(** * QuantumPulse ledger core: a shallow embedding and its properties

    Part I embeds the C++ headers of the ledger subsystem:

    - [Mining]     : [quantumpulse_mining_v7.h] (supply cap, reward
                     halving, difficulty adjustment);
    - [Ledger]     : [quantumpulse_blockchain_v7.h] (balances,
                     authentication, price adjustment, block addition,
                     the guarded [transfer]) and the free functions of
                     [quantumpulse_blockchain_v7.cpp];
    - [UTXO]       : [quantumpulse_utxo_v7.h];
    - [Mempool]    : [quantumpulse_mempool_v7.h];
    - [Reentrancy] : the atomic actions of [transfer] under concurrent
                     callers;
    - [Crypto]     : [quantumpulse_crypto_v7.h] (constant-time
                     comparison, rate limiter, hashing, signing, proofs,
                     key pairs, tokens);
    - [Sharding]   : [quantumpulse_sharding_v7.h];
    - [TxBuild]    : the constructor of [class Transaction];
    - [Pow]        : [MiningManager::mineBlock] and [Block::mine];
    - [Chain]      : the constructor of [class Blockchain] and
                     [validateChain];
    - [Helpers]    : [sanitizeInput] and [oracleSimulation] of
                     [quantumpulse_blockchain_v7.cpp];
    - [UTXOTx]     : [UTXOSet::validateInputs];
    - [MempoolQueries] : [getBlockTemplate] and the lookups of the pool.

    Part II states and proves the properties, one module of facts per
    component.

    C++ [double] is IEEE-754 binary64 and is modelled by Rocq's primitive
    floats; [int], [int64_t], [uint64_t] and [size_t] are integers in [Z]
    with their wrap-around written out; [std::string] is [string];
    [std::map] is a [gmap] and [std::set] a [gset], sorted where the code
    iterates.  [std::pow] and [std::sin] are parameters.  An exception
    that leaves a function is a constructor of its result type
    ([Ledger.outcome]), and [std::terminate] out of a [noexcept] function
    is [Pow.Terminated].  The logger is left out: it does not feed back
    into any result. *)

From Stdlib Require Import ZArith Floats Lia String Ascii Bool List.
From stdpp Require Import gmap strings list sorting pretty.

Set Warnings "-inexact-float,-clear-no-such-hyp".
Local Open Scope Z_scope.

(** * Part I: the embedding *)

(** ** Strings *)

Module Str.

(** [s.find(pat)]: index of the first occurrence of [pat] in [s];
    [None] stands for [std::string::npos]. *)
Fixpoint find (s pat : string) : option nat :=
  if String.prefix pat s then Some 0%nat
  else match s with
       | EmptyString => None
       | String _ s' => option_map S (find s' pat)
       end.

(** [s.empty()] *)
Definition empty (s : string) : bool :=
  match s with EmptyString => true | _ => false end.

(** [s.find(pat) != std::string::npos] *)
Definition contains (s pat : string) : bool :=
  match find s pat with Some _ => true | None => false end.

(** [s.find(pat) == 0] *)
Definition starts_with (s pat : string) : bool :=
  match find s pat with Some O => true | _ => false end.

(** The substring relation the marker test decides. *)
Definition substring_of (pat s : string) : Prop :=
  exists a b, s = String.append a (String.append pat b).

(** [std::string(count, ch)] for an [int count]: the count is converted
    to [size_t], so a negative one is above [max_size()] and the
    constructor throws [std::length_error], for which [None] stands. *)
Definition fill (count : Z) (ch : ascii) : option string :=
  if count <? 0 then None
  else Some (string_of_list_ascii (repeat ch (Z.to_nat count))).

(** [s.substr(0, count)] for an [int count]: the count is converted to
    [size_t], and the result stops at the end of [s]. *)
Definition substr0 (s : string) (count : Z) : string :=
  String.substring 0
    (Z.to_nat (Z.min (count mod 2 ^ 64) (Z.of_nat (String.length s)))) s.

End Str.

(** ** Machine integers and binary64 helpers *)

Module Dbl.

(** Two's-complement wrap-around of [int64_t]. *)
Definition wrap64 (z : Z) : Z := (z + 2 ^ 63) mod 2 ^ 64 - 2 ^ 63.

(** Two's-complement wrap-around of [int]. *)
Definition wrap32 (z : Z) : Z := (z + 2 ^ 31) mod 2 ^ 32 - 2 ^ 31.

(** Wrap-around of [uint64_t] / [size_t]. *)
Definition wrapu64 (z : Z) : Z := z mod 2 ^ 64.

Definition INT64_MIN : Z := - 2 ^ 63.
Definition INT64_MAX : Z := 2 ^ 63 - 1.

(** [std::numeric_limits<double>::max()] *)
Definition DBL_MAX : float := 0x1.fffffffffffffp1023%float.

(** Conversion of an integer to [double] (round to nearest, ties to even),
    as [static_cast<double>] of an [int64_t] or [uint64_t] does. *)
Definition of_Z (z : Z) : float :=
  SF2Prim (binary_normalize prec emax z 0 false).

(** Integral part of a finite [double], rounded toward zero. *)
Definition trunc (x : float) : option Z :=
  match Prim2SF x with
  | S754_zero _ => Some 0
  | S754_finite s m e =>
      Some (cond_Zopp s (if 0 <=? e then Z.pos m * 2 ^ e
                         else Z.pos m / 2 ^ (- e)))
  | _ => None
  end.

(** [static_cast<int64_t>(x)]: truncation toward zero.  Out of range (and
    for NaN) the conversion is undefined in C++; the value x86-64 yields
    (the "integer indefinite" [INT64_MIN]) is taken. *)
Definition to_int64 (x : float) : Z :=
  match trunc x with
  | Some z => if (INT64_MIN <=? z) && (z <=? INT64_MAX) then z else INT64_MIN
  | None => INT64_MIN
  end.

(** [std::min(a, b)] is [(b < a) ? b : a]; [std::max(a, b)] is
    [(a < b) ? b : a]. *)
Definition std_min (a b : float) : float := if (b <? a)%float then b else a.
Definition std_max (a b : float) : float := if (a <? b)%float then b else a.

(** [std::isinf] *)
Definition isinf (x : float) : bool := is_infinity x.

(** Not a NaN, as a property of the IEEE datum. *)
Definition not_nan (x : float) : Prop := Prim2SF x <> S754_nan.

End Dbl.

(** ** Mining engine ([quantumpulse_mining_v7.h]) *)

Module Mining.

(** [struct MiningConfig] *)
Definition MAX_MINABLE_COINS : float := 3000000%float.
Definition INITIAL_REWARD : float := 50%float.
Definition MIN_REWARD : float := 0.0005%float.
Definition HALVING_INTERVAL : Z := 210000.
Definition MAX_DIFFICULTY : Z := 512.
Definition MIN_DIFFICULTY : Z := 1.
Definition DEFAULT_DIFFICULTY : Z := 4.

(** The data members of [class MiningManager]; [miningMutex_] serialises
    every member function that writes them, so a call is one atomic state
    transition. *)
Record MiningManager := mkMiningManager {
  totalMinedCoins_ : Z;      (* std::atomic<int64_t> *)
  currentDifficulty_ : Z     (* int *)
}.

(** The constructor. *)
Definition MiningManager_new : MiningManager :=
  mkMiningManager 0 DEFAULT_DIFFICULTY.

(** [maxSatoshis] of [addMinedCoins]. *)
Definition maxSatoshis : Z :=
  Dbl.to_int64 (MAX_MINABLE_COINS * 100000000)%float.

(** [void addMinedCoins(double amount)] *)
Definition addMinedCoins (mm : MiningManager) (amount : float)
  : MiningManager :=
  let amountSatoshis := Dbl.to_int64 (amount * 100000000)%float in
  let current := totalMinedCoins_ mm in
  if Dbl.wrap64 (current + amountSatoshis) >? maxSatoshis
  then mkMiningManager maxSatoshis (currentDifficulty_ mm)
  else mkMiningManager (Dbl.wrap64 (current + amountSatoshis))
                       (currentDifficulty_ mm).

(** [double getTotalMinedCoins() const] *)
Definition getTotalMinedCoins (mm : MiningManager) : float :=
  (Dbl.of_Z (totalMinedCoins_ mm) / 100000000)%float.

(** [bool checkMiningLimit() const] *)
Definition checkMiningLimit (mm : MiningManager) : bool :=
  (getTotalMinedCoins mm <? MAX_MINABLE_COINS)%float.

(** [void adjustDifficulty(double actualBlockTime, double targetBlockTime)]
    of the header. *)
Definition adjustDifficulty (mm : MiningManager)
    (actualBlockTime targetBlockTime : float) : MiningManager :=
  if (targetBlockTime <=? 0)%float then mm
  else
    let ratio := (actualBlockTime / targetBlockTime)%float in
    let d := currentDifficulty_ mm in
    mkMiningManager (totalMinedCoins_ mm)
      (if (ratio <? 0.5)%float
       then Z.min (Dbl.wrap32 (d + 2)) MAX_DIFFICULTY
       else if (ratio <? 0.8)%float
       then Z.min (Dbl.wrap32 (d + 1)) MAX_DIFFICULTY
       else if (2.0 <? ratio)%float
       then Z.max (Dbl.wrap32 (d - 2)) MIN_DIFFICULTY
       else if (1.5 <? ratio)%float
       then Z.max (Dbl.wrap32 (d - 1)) MIN_DIFFICULTY
       else d).

(** [MiningManager::adjustDifficulty] of [quantumpulse_mining_v7.cpp]:
    no guard on the target time, and the bounds written as literals. *)
Definition adjustDifficulty_cpp (mm : MiningManager)
    (actualBlockTime targetBlockTime : float) : MiningManager :=
  let ratio := (actualBlockTime / targetBlockTime)%float in
  let d := currentDifficulty_ mm in
  mkMiningManager (totalMinedCoins_ mm)
    (if (ratio <? 0.5)%float then Z.min (Dbl.wrap32 (d + 2)) 512
     else if (ratio <? 0.8)%float then Z.min (Dbl.wrap32 (d + 1)) 512
     else if (2.0 <? ratio)%float then Z.max (Dbl.wrap32 (d - 2)) 1
     else if (1.5 <? ratio)%float then Z.max (Dbl.wrap32 (d - 1)) 1
     else d).

(** [int getDifficulty() const] *)
Definition getDifficulty (mm : MiningManager) : Z := currentDifficulty_ mm.

Section Libm.

(** [std::pow] of the C library. *)
Variable std_pow : float -> float -> float.

(** [static double calculateBlockReward(uint64_t blockHeight)] *)
Definition calculateBlockReward (blockHeight : Z) : float :=
  let halvings := blockHeight / HALVING_INTERVAL in
  let reward := (INITIAL_REWARD / std_pow 2.0 (Dbl.of_Z halvings))%float in
  Dbl.std_max reward MIN_REWARD.

End Libm.

End Mining.

(** ** Ledger ([quantumpulse_blockchain_v7.h] and
    [quantumpulse_blockchain_v7.cpp]) *)

Module Ledger.

(** The fields of [class Transaction] that validation reads. *)
Record Transaction := mkTransaction {
  sender : string;
  receiver : string;
  txId : string;
  signature : string;
  zkProof : string;
  multiSignatures : list string;
  amount : float;
  fee : float;
  expiresAt : Z
}.

(** [CryptoManager::verifyTransaction] *)
Definition verifyTransaction (txId signature sender : string) : bool :=
  if Str.empty txId || Str.empty signature || Str.empty sender then false
  else Str.starts_with signature "hmac_v11_"
       || Str.starts_with signature "signed_v11_".

(** [CryptoManager::zkStarkVerify_v11] *)
Definition zkStarkVerify_v11 (proof : string) : bool :=
  negb (Str.empty proof) && Str.starts_with proof "zk_proof_v11_".

(** [CryptoManager::validateMultiSignature], with
    [REQUIRED_SIGNATURES = 10]. *)
Definition validateMultiSignature (signatures : list string) : bool :=
  if (length signatures <? 10)%nat then false
  else forallb (fun sig => negb (Str.empty sig)
                           && (4 <=? String.length sig)%nat) signatures.

(** [bool Transaction::verify(CryptoManager&) const]; [now] is the value
    of [time(nullptr)]. *)
Definition Transaction_verify (now : Z) (tx : Transaction) : bool :=
  if now >? expiresAt tx then false
  else if negb (verifyTransaction (txId tx) (signature tx) (sender tx))
  then false
  else if negb (zkStarkVerify_v11 (zkProof tx)) then false
  else if negb (validateMultiSignature (multiSignatures tx)) then false
  else true.

(** The fields of [class Block] that the ledger reads. *)
Record Block := mkBlock {
  prevHash : string;
  hash : string;
  difficulty : Z;
  reward : float;
  transactions : list Transaction;
  isOrphaned : bool;
  shardId : Z
}.

(** What a call yields: a returned value, the [std::runtime_error]
    thrown by the [ReentrancyGuard] constructor, or the
    [std::length_error] thrown by [std::string(count, ch)]. *)
Inductive outcome (A : Type) : Type :=
| Returned (a : A)
| ReentrancyFault
| LengthError.
Arguments Returned {A} a.
Arguments ReentrancyFault {A}.
Arguments LengthError {A}.

(** [bool Block::validate(CryptoManager&) const]; a block that is not a
    genesis block and has a negative difficulty makes
    [std::string target(difficulty, '0')] throw. *)
Definition Block_validate (now : Z) (b : Block) : outcome bool :=
  if Str.starts_with (prevHash b) "genesis_"
  then Returned (negb (isOrphaned b))
  else
    match Str.fill (difficulty b) "0" with
    | None => LengthError
    | Some target =>
        if negb (String.eqb (Str.substr0 (hash b) (difficulty b)) target)
        then Returned false
        else if negb (forallb (Transaction_verify now) (transactions b))
        then Returned false
        else Returned (negb (isOrphaned b))
    end.

(** The data members of [class Blockchain] that the operations below read
    or write. *)
Record Blockchain := mkBlockchain {
  chain : list Block;
  balances : gmap string float;
  hiddenBalances : gmap string float;
  founderStealthAddress : string;
  totalMinedCoins : Z;           (* std::atomic<int64_t> *)
  isAddingBlock : bool;          (* std::atomic<bool> *)
  isTransferring : bool          (* std::atomic<bool> *)
}.

(** [bool isHiddenAddress(const std::string&) const] *)
Definition isHiddenAddress (bc : Blockchain) (address : string) : bool :=
  bool_decide (is_Some (hiddenBalances bc !! address)).

(** [bool authenticateUser(account, authToken) const] *)
Definition authenticateUser (bc : Blockchain) (account authToken : string)
  : bool :=
  if Str.empty account then false
  else if String.eqb account (founderStealthAddress bc)
          && negb (Str.empty authToken) then true
  else negb (Str.empty authToken) && Str.contains authToken "_v11_".

(** [std::optional<double> getBalance(account, authToken) const] *)
Definition getBalance (bc : Blockchain) (account authToken : string)
  : option float :=
  if isHiddenAddress bc account then
    if negb (authenticateUser bc account authToken) then None
    else hiddenBalances bc !! account
  else if negb (authenticateUser bc account authToken) then None
  else match balances bc !! account with
       | Some v => Some v
       | None => Some 0%float
       end.

(** [bool addBlock(const Block&)]: the guard on [isAddingBlock], then the
    body; the guard's destructor clears the flag on each return and when
    [validate] throws. *)
Definition addBlock (now : Z) (bc : Blockchain) (block : Block)
  : Blockchain * outcome bool :=
  if isAddingBlock bc then (bc, ReentrancyFault)
  else
    match Block_validate now block with
    | Returned false => (bc, Returned false)
    | Returned true =>
        (mkBlockchain (chain bc ++ [block]) (balances bc)
           (hiddenBalances bc) (founderStealthAddress bc)
           (Dbl.wrap64 (totalMinedCoins bc
                        + Dbl.to_int64 (reward block * 100000000)%float))
           false (isTransferring bc),
         Returned true)
    | ReentrancyFault => (bc, ReentrancyFault)
    | LengthError => (bc, LengthError)
    end.

(** [double getTotalMinedCoins() const] *)
Definition getTotalMinedCoins (bc : Blockchain) : float :=
  let mined := (Dbl.of_Z (totalMinedCoins bc) / 100000000.0)%float in
  Dbl.std_min mined 3000000.0%float.

(** [bool checkMiningLimit() const] *)
Definition checkMiningLimit (bc : Blockchain) : bool :=
  negb (3000000 <=? getTotalMinedCoins bc)%float.

(** [int adjustDifficulty(int, double, double)] of
    [quantumpulse_blockchain_v7.cpp]. *)
Definition adjustDifficulty (currentDifficulty : Z)
    (actualBlockTime targetBlockTime : float) : Z :=
  let ratio := (actualBlockTime / targetBlockTime)%float in
  if (ratio <? 0.5)%float
  then Z.min (Dbl.wrap32 (currentDifficulty + 2)) 512
  else if (ratio <? 0.75)%float
  then Z.min (Dbl.wrap32 (currentDifficulty + 1)) 512
  else if (2.0 <? ratio)%float
  then Z.max (Dbl.wrap32 (currentDifficulty - 2)) 1
  else if (1.5 <? ratio)%float
  then Z.max (Dbl.wrap32 (currentDifficulty - 1)) 1
  else currentDifficulty.

Section Libm.

(** [std::pow] and [std::sin] of the C library. *)
Variable std_pow : float -> float -> float.
Variable std_sin : float -> float.

(** [double calculateBlockReward(uint64_t blockHeight) const], with the
    members [halvingInterval = 210000] and [initialReward = 50.0]. *)
Definition calculateBlockReward (blockHeight : Z) : float :=
  let halvings := blockHeight / 210000 in
  let reward := (50.0 / std_pow 2 (Dbl.of_Z halvings))%float in
  Dbl.std_max reward 0.0005%float.

Definition MINIMUM_PRICE : float := 600000.0%float.

(** The value of [newPrice] in [adjustCoinPrice] when the floor clamp is
    reached: growth, oracle factor, overflow saturation. *)
Definition saturatedPrice (currentPrice : float) (blockHeight : Z) : float :=
  let growthFactor := 1.0005%float in
  let newPrice :=
    (currentPrice
     * std_pow growthFactor (Dbl.of_Z (blockHeight mod 1000000)))%float in
  let oracleAdjustment :=
    (1.0 + std_sin (Dbl.of_Z blockHeight * 0.01) * 0.001)%float in
  let oracleAdjustment :=
    if (oracleAdjustment <? 1.0)%float then 1.0%float
    else oracleAdjustment in
  let newPrice := (newPrice * oracleAdjustment)%float in
  if Dbl.isinf newPrice || (Dbl.DBL_MAX / 2 <? newPrice)%float
  then (Dbl.DBL_MAX / 2)%float
  else newPrice.

(** [double adjustCoinPrice(double currentPrice, uint64_t blockHeight,
    int shardId) const]; the shard only labels the log line. *)
Definition adjustCoinPrice (currentPrice : float) (blockHeight : Z)
    (shardId : Z) : float :=
  Dbl.std_max (saturatedPrice currentPrice blockHeight) MINIMUM_PRICE.

End Libm.

(** [m[k] += amount] on a [std::map<std::string, double>]: a missing key
    is first inserted with the value [0.0]. *)
Definition credit (m : gmap string float) (k : string) (amount : float)
  : gmap string float :=
  <[k := (default 0%float (m !! k) + amount)%float]> m.

(** The body of [transfer], run while the guard is held: the new balance
    stores and the returned flag. *)
Definition transfer_body (bc : Blockchain) (from to : string)
    (amount : float) (privateKey : string)
  : gmap string float * gmap string float * bool :=
  let unchanged := (balances bc, hiddenBalances bc, false) in
  if Str.empty from || Str.empty to || (amount <=? 0)%float then unchanged
  else
    match hiddenBalances bc !! from with
    | Some hb =>
        if (hb <? amount)%float then unchanged
        else if negb (authenticateUser bc from privateKey) then unchanged
        else
          let hidden' := <[from := (hb - amount)%float]> (hiddenBalances bc) in
          if bool_decide (is_Some (hidden' !! to))
          then (balances bc, credit hidden' to amount, true)
          else (credit (balances bc) to amount, hidden', true)
    | None =>
        match balances bc !! from with
        | None => unchanged
        | Some b =>
            if (b <? amount)%float then unchanged
            else
              (credit (<[from := (b - amount)%float]> (balances bc)) to amount,
               hiddenBalances bc, true)
        end
    end.

(** The ledger with the balance stores and the [isTransferring] flag
    replaced. *)
Definition with_stores (bc : Blockchain)
    (st : gmap string float * gmap string float) (flag : bool) : Blockchain :=
  mkBlockchain (chain bc) (fst st) (snd st) (founderStealthAddress bc)
    (totalMinedCoins bc) (isAddingBlock bc) flag.

(** [bool transfer(from, to, amount, privateKey, shardId)] as one call
    that holds [chainMutex]: the guard's constructor throws when
    [isTransferring] is already set; otherwise the flag is set, the body
    runs, and the guard's destructor clears the flag on every return. *)
Definition transfer (bc : Blockchain) (from to : string) (amount : float)
    (privateKey : string) (shardId : Z) : Blockchain * outcome bool :=
  if isTransferring bc then (bc, ReentrancyFault)
  else
    let '(b, h, r) := transfer_body bc from to amount privateKey in
    (with_stores bc (b, h) false, Returned r).

End Ledger.

(** ** UTXO set ([quantumpulse_utxo_v7.h]) *)

Module UTXO.

(** Keys of a [std::set<std::string>] are visited in increasing order. *)
Definition key_le (x y : string) : Prop := String.leb x y = true.

Global Instance key_le_dec x y : Decision (key_le x y).
Proof. unfold key_le. apply _. Defined.

Section Amounts.

(** The number type of amounts with its zero, its addition and the value
    of the literal [2000000.0].  The code has [double], [0.0], [+=] on
    doubles and the binary64 value 2000000; the definitions do not depend
    on which numbers these are. *)
Context {A : Type}.
Variable zero : A.
Variable add : A -> A -> A.
Variable premine : A.

(** [struct UTXOutput] *)
Record UTXOutput := mkUTXOutput {
  txid : string;
  vout : Z;
  address : string;
  amount : A;
  scriptPubKey : string;
  blockHeight : Z;
  coinbase : bool;
  confirmations : Z
}.

(** The data members of [class UTXOSet]; [mutex_] makes each member
    function one atomic step. *)
Record UTXOSet := mkUTXOSet {
  utxos_ : gmap string UTXOutput;            (* key = txid:vout *)
  addressUtxos_ : gmap string (gset string)
}.

(** [txid + ":" + std::to_string(vout)] *)
Definition make_key (txid : string) (vout : Z) : string :=
  String.append txid (String.append ":" (pretty vout)).

Definition utxo_key (u : UTXOutput) : string := make_key (txid u) (vout u).

(** [addressUtxos_[address]], an empty set when the address has no
    entry. *)
Definition keys_of (s : UTXOSet) (address : string) : gset string :=
  default ∅ (addressUtxos_ s !! address).

(** [void addUTXO(const UTXOutput&)] *)
Definition addUTXO (s : UTXOSet) (utxo : UTXOutput) : UTXOSet :=
  let key := utxo_key utxo in
  mkUTXOSet (<[key := utxo]> (utxos_ s))
    (<[address utxo := {[key]} ∪ keys_of s (address utxo)]>
       (addressUtxos_ s)).

(** [bool spendUTXO(const std::string& txid, int vout)] *)
Definition spendUTXO (s : UTXOSet) (txid : string) (vout : Z)
  : UTXOSet * bool :=
  let key := make_key txid vout in
  match utxos_ s !! key with
  | None => (s, false)
  | Some utxo =>
      (mkUTXOSet (delete key (utxos_ s))
         (<[address utxo := keys_of s (address utxo) ∖ {[key]}]>
            (addressUtxos_ s)),
       true)
  end.

(** [std::optional<UTXOutput> getUTXO(txid, vout) const] *)
Definition getUTXO (s : UTXOSet) (txid : string) (vout : Z)
  : option UTXOutput :=
  utxos_ s !! make_key txid vout.

(** [std::vector<UTXOutput> getAddressUTXOs(address) const] *)
Definition getAddressUTXOs (s : UTXOSet) (address : string)
  : list UTXOutput :=
  match addressUtxos_ s !! address with
  | None => []
  | Some keys =>
      omap (fun key => utxos_ s !! key) (merge_sort key_le (elements keys))
  end.

(** [double getBalance(address) const] *)
Definition getBalance (s : UTXOSet) (address : string) : A :=
  fold_left (fun balance utxo => add balance (amount utxo))
    (getAddressUTXOs s address) zero.

(** [size_t getUTXOCount() const] *)
Definition getUTXOCount (s : UTXOSet) : nat := size (utxos_ s).

(** The output [addGenesisUTXO] builds. *)
Definition genesis : UTXOutput :=
  mkUTXOutput "genesis_coinbase_000000000000000000000000000000000000" 0
    "Shankar-Lal-Khati" premine
    "OP_DUP OP_HASH160 <pubKeyHash> OP_EQUALVERIFY OP_CHECKSIG"
    0 true 999999.

(** The constructor: an empty set, then [addGenesisUTXO()]. *)
Definition UTXOSet_new : UTXOSet := addUTXO (mkUTXOSet ∅ ∅) genesis.

End Amounts.

Arguments mkUTXOutput {A}.
Arguments mkUTXOSet {A}.

(** The instance the code has: amounts are [double], a balance starts
    at [0.0] and grows by [+=], and the genesis output carries
    [2000000.0]. *)
Definition UTXOSet_new_double : @UTXOSet float :=
  UTXOSet_new 2000000.0%float.

Definition getBalance_double (s : @UTXOSet float) (address : string)
  : float :=
  getBalance 0%float PrimFloat.add s address.

End UTXO.

(** ** Transaction pool ([quantumpulse_mempool_v7.h]) *)

Module Mempool.

(** The fields of [UTXO::Transaction] that the pool reads. *)
Record Transaction := mkTransaction {
  txid : string;
  fee : float;
  size : Z;        (* int *)
  vsize : Z;       (* int *)
  weight : Z       (* int *)
}.

(** [struct MempoolEntry] *)
Record MempoolEntry := mkMempoolEntry {
  tx : Transaction;
  entryTime : Z;
  feeRate : float;
  ancestorCount : Z;
  descendantCount : Z;
  modifiedFee : float;
  height : Z
}.

(** The data members of [class TransactionMempool]; [feeIndex_] is the
    priority queue, kept as the list of its pushes (nothing pops it). *)
Record TransactionMempool := mkTransactionMempool {
  transactions_ : gmap string MempoolEntry;
  maxSize_ : Z;          (* size_t *)
  currentSize_ : Z;      (* size_t *)
  currentHeight_ : Z;
  feeIndex_ : list (string * float)
}.

(** The constructor, for a cap that fits [size_t]. *)
Definition TransactionMempool_new (maxSize : Z) : TransactionMempool :=
  mkTransactionMempool ∅ maxSize 0 0 [].

(** The entries in the order a [std::map] is iterated: by key. *)
Definition in_key_order (m : gmap string MempoolEntry)
  : list (string * MempoolEntry) :=
  merge_sort (fun a b => UTXO.key_le (fst a) (fst b)) (map_to_list m).

(** The comparator of [evictLowFeeTxs] orders by increasing fee rate;
    this is "not after": [b] does not come strictly before [a]. *)
Definition fee_not_after (a b : string * float) : Prop :=
  (snd b <? snd a)%float = false.

Global Instance fee_not_after_dec a b : Decision (fee_not_after a b).
Proof. unfold fee_not_after. apply _. Defined.

(** The loop of [evictLowFeeTxs] over the sorted pairs. *)
Fixpoint evict_loop (sorted : list (string * float)) (needed freed : Z)
    (txs : gmap string MempoolEntry) : gmap string MempoolEntry :=
  match sorted with
  | [] => txs
  | (txid, _) :: rest =>
      if freed >=? needed then txs
      else
        let sz := match txs !! txid with
                  | Some e => size (tx e)
                  | None => 0
                  end in
        evict_loop rest needed (Dbl.wrapu64 (freed + sz)) (delete txid txs)
  end.

(** [void evictLowFeeTxs(size_t needed)].  [std::sort] leaves the order
    of equal fee rates open; a stable sort of the key-ordered entries is
    one of the orders it may produce. *)
Definition evictLowFeeTxs (mp : TransactionMempool) (needed : Z)
  : TransactionMempool :=
  let sorted :=
    merge_sort fee_not_after
      (map (fun p => (fst p, feeRate (snd p)))
           (in_key_order (transactions_ mp))) in
  mkTransactionMempool (evict_loop sorted needed 0 (transactions_ mp))
    (maxSize_ mp) (currentSize_ mp) (currentHeight_ mp) (feeIndex_ mp).

(** [bool addTransaction(const UTXO::Transaction&)]; [now] is the value
    of [std::time(nullptr)]. *)
Definition addTransaction (now : Z) (mp : TransactionMempool)
    (t : Transaction) : TransactionMempool * bool :=
  match transactions_ mp !! txid t with
  | Some _ => (mp, false)
  | None =>
      let mp :=
        if Dbl.wrapu64 (currentSize_ mp + size t) >? maxSize_ mp
        then evictLowFeeTxs mp (Dbl.wrapu64 (size t))
        else mp in
      let entry :=
        mkMempoolEntry t now (fee t / Dbl.of_Z (vsize t))%float 0 0 (fee t)
          (currentHeight_ mp) in
      (mkTransactionMempool (<[txid t := entry]> (transactions_ mp))
         (maxSize_ mp) (Dbl.wrapu64 (currentSize_ mp + size t))
         (currentHeight_ mp)
         (feeIndex_ mp ++ [(txid t, feeRate entry)]),
       true)
  end.

(** [bool removeTransaction(const std::string&)] *)
Definition removeTransaction (mp : TransactionMempool) (txid : string)
  : TransactionMempool * bool :=
  match transactions_ mp !! txid with
  | None => (mp, false)
  | Some e =>
      (mkTransactionMempool (delete txid (transactions_ mp)) (maxSize_ mp)
         (Dbl.wrapu64 (currentSize_ mp - size (tx e)))
         (currentHeight_ mp) (feeIndex_ mp),
       true)
  end.

(** [bool hasTransaction(const std::string&) const] *)
Definition hasTransaction (mp : TransactionMempool) (txid : string) : bool :=
  bool_decide (is_Some (transactions_ mp !! txid)).

(** [size_t getSize() const] and [size_t getBytes() const] *)
Definition getSize (mp : TransactionMempool) : nat :=
  stdpp.base.size (transactions_ mp).
Definition getBytes (mp : TransactionMempool) : Z := currentSize_ mp.

End Mempool.

(** ** Concurrent invocations of [transfer]

    [transfer] first constructs a [std::unique_lock] on [chainMutex] and
    then the [ReentrancyGuard] on [isTransferring]; on return, or when an
    exception unwinds the stack, the two are destroyed in the reverse
    order.  An invocation is the sequence of these atomic actions, and
    threads interleave them. *)

Module Reentrancy.
Import Ledger.

(** The arguments of one invocation. *)
Record invocation := mkInvocation {
  inv_from : string;
  inv_to : string;
  inv_amount : float;
  inv_key : string;
  inv_shard : Z
}.

(** Where an invocation stands. *)
Inductive pc : Type :=
| Waiting                 (* called; blocks in the unique_lock constructor *)
| HoldsLock               (* owns chainMutex; guard not yet constructed *)
| InBody                  (* guard constructed: the flag was clear, now set *)
| BodyDone (r : bool)     (* body has run; guard and lock still alive *)
| GuardGone (r : bool)    (* ~ReentrancyGuard has cleared the flag *)
| Finished (r : bool)     (* lock released, [r] returned *)
| Unwinding               (* guard constructor threw; lock still owned *)
| Faulted.                (* the exception has left the call *)

(** The shared ledger, the owner of [chainMutex], and the invocations in
    flight (one per thread, addressed by position). *)
Record world := mkWorld {
  ledger : Blockchain;
  chainMutex : option nat;
  threads : list (invocation * pc)
}.

Definition set_flag (bc : Blockchain) (flag : bool) : Blockchain :=
  with_stores bc (balances bc, hiddenBalances bc) flag.

(** One atomic action of thread [i]; [None] when the thread is blocked,
    has finished, or does not exist. *)
Definition step (w : world) (i : nat) : option world :=
  match threads w !! i with
  | None => None
  | Some (c, p) =>
      let goto bc mutex p' :=
        Some (mkWorld bc mutex (<[i := (c, p')]> (threads w))) in
      match p with
      | Waiting =>
          match chainMutex w with
          | None => goto (ledger w) (Some i) HoldsLock
          | Some _ => None
          end
      | HoldsLock =>
          if isTransferring (ledger w)
          then goto (ledger w) (chainMutex w) Unwinding
          else goto (set_flag (ledger w) true) (chainMutex w) InBody
      | InBody =>
          let '(b, h, r) :=
            transfer_body (ledger w) (inv_from c) (inv_to c) (inv_amount c)
              (inv_key c) in
          goto (with_stores (ledger w) (b, h) true) (chainMutex w) (BodyDone r)
      | BodyDone r =>
          goto (set_flag (ledger w) false) (chainMutex w) (GuardGone r)
      | GuardGone r => goto (ledger w) None (Finished r)
      | Unwinding => goto (ledger w) None Faulted
      | Finished _ | Faulted => None
      end
  end.

(** The world after the actions of a schedule (a list of thread
    numbers); [None] when the schedule asks for an action that is not
    enabled. *)
Fixpoint run (schedule : list nat) (w : world) : option world :=
  match schedule with
  | [] => Some w
  | i :: rest =>
      match step w i with
      | Some w' => run rest w'
      | None => None
      end
  end.

(** Invocations made concurrently on a ledger: nobody owns the mutex and
    every thread has made its call. *)
Definition start (bc : Blockchain) (calls : list invocation) : world :=
  mkWorld bc None (map (fun c => (c, Waiting)) calls).

Inductive reachable (w0 : world) : world -> Prop :=
| reach_start : reachable w0 w0
| reach_step w i w' :
    reachable w0 w -> step w i = Some w' -> reachable w0 w'.

End Reentrancy.

(** ** Cryptographic services ([quantumpulse_crypto_v7.h]) *)

Module Crypto.

(** [struct CryptoConfig] *)
Definition REQUIRED_SIGNATURES : Z := 10.
Definition KEY_ROTATION_INTERVAL_SEC : Z := 3600.
Definition RATE_LIMIT_PER_SEC : Z := 20000.
Definition MAX_DATA_SIZE : Z := 2000000.

(** The value of a [char] read as [unsigned char]. *)
Definition uchar (c : ascii) : Z := Z.of_N (N_of_ascii c).

(** The loop of [constantTimeCompare] over two strings of one length:
    [result |= a[i] ^ b[i]] on an [unsigned char]. *)
Fixpoint compare_loop (a b : string) (result : Z) : Z :=
  match a, b with
  | String x a', String y b' =>
      compare_loop a' b' (Z.lor result (Z.lxor (uchar x) (uchar y)) mod 256)
  | _, _ => result
  end.

(** [bool SecureMemory::constantTimeCompare(string_view a, string_view b)] *)
Definition constantTimeCompare (a b : string) : bool :=
  if negb (String.length a =? String.length b)%nat then false
  else compare_loop a b 0 =? 0.

(** [struct KeyPair] *)
Record KeyPair := mkKeyPair {
  publicKey : string;
  privateKey : string;
  multiSignatures : list string;
  createdAt : Z;
  expiresAt : Z;
  keyVersion : Z
}.

(** The constructor [KeyPair()]; [now] is the value of [std::time(nullptr)]. *)
Definition KeyPair_new (now : Z) : KeyPair :=
  mkKeyPair "" "" [] now (now + 86400) 11.



(** [class RateLimiter] *)
Record RateLimiter := mkRateLimiter {
  maxPerSecond_ : Z;     (* int *)
  requestCount_ : Z;     (* int *)
  windowStart_ : Z;      (* time_t *)
  deniedCount_ : Z       (* size_t *)
}.

(** The constructor; [now] is the value of [std::time(nullptr)]. *)
Definition RateLimiter_new (maxRequests now : Z) : RateLimiter :=
  mkRateLimiter maxRequests 0 now 0.

(** [bool RateLimiter::allowRequest()] at clock value [now]. *)
Definition allowRequest (now : Z) (rl : RateLimiter) : RateLimiter * bool :=
  let rl :=
    if now >? windowStart_ rl
    then mkRateLimiter (maxPerSecond_ rl) 0 now (deniedCount_ rl)
    else rl in
  if requestCount_ rl >=? maxPerSecond_ rl
  then (mkRateLimiter (maxPerSecond_ rl) (requestCount_ rl) (windowStart_ rl)
          (Dbl.wrapu64 (deniedCount_ rl + 1)),
        false)
  else (mkRateLimiter (maxPerSecond_ rl) (Dbl.wrap32 (requestCount_ rl + 1))
          (windowStart_ rl) (deniedCount_ rl),
        true).

(** [size_t getDeniedCount() const] *)
Definition getDeniedCount (rl : RateLimiter) : Z := deniedCount_ rl.

(** The patterns of [validateInput]. *)
Definition sqlPatterns : list string :=
  ["';"; "--;"; "/*"; "*/"; "DROP "; "DELETE "; "UNION "; "SELECT "]%string.
Definition xssPatterns : list string :=
  ["<script"; "javascript:"; "onerror="; "onclick="]%string.

(** [bool validateInput(string_view data, string_view operation, int)];
    the operation and the shard only label the log line. *)
Definition validateInput (data : string) : bool :=
  if Str.empty data then false
  else if Z.of_nat (String.length data) >? MAX_DATA_SIZE then false
  else if existsb (Str.contains data) sqlPatterns then false
  else if existsb (Str.contains data) xssPatterns then false
  else true.

(** [snprintf(buf, 3, "%02x", byte)]: two lower-case hexadecimal digits. *)
Definition hex_digit (n : N) : ascii :=
  nth (N.to_nat n) (list_ascii_of_string "0123456789abcdef") "0"%char.

Definition hex2 (b : Byte.byte) : string :=
  let n := Byte.to_N b in
  String (hex_digit (n / 16)) (String (hex_digit (n mod 16)) EmptyString).

(** The loops that append [hex2] of each byte of a buffer. *)
Definition hex (bytes : list Byte.byte) : string :=
  fold_left (fun acc b => String.append acc (hex2 b)) bytes EmptyString.

(** [decrypt]: it reads no member of the manager. *)
Definition decrypt (encryptedData : string) : option string :=
  if Str.empty encryptedData
     || negb (Str.starts_with encryptedData "aes256gcm_")
  then None
  else Some (String.substring 10 (String.length encryptedData - 10)
               encryptedData).

Section OpenSSL.

(** The digest the three [EVP_Digest*] calls leave in the buffer, [None]
    when the context cannot be made or one of the calls fails; and the
    bytes [HMAC] writes for a key and a message ([hmacLen] of them). *)
Variable EVP_sha512 : string -> option (list Byte.byte).
Variable HMAC_sha512 : string -> string -> list Byte.byte.

(** [std::string sha3_512_v11(string_view data, int shardId)] *)
Definition sha3_512_v11 (data : string) (shardId : Z) : string :=
  if negb (validateInput data) then ""
  else match EVP_sha512 data with
       | None => ""
       | Some digest =>
           String.append (hex (firstn 64 digest))
             (String.append "_v11_" (pretty shardId))
       end.

(** [std::string signTransaction(data, privateKey, shardId)]: the
    manager's rate limiter is the state it changes. *)
Definition signTransaction (now : Z) (rl : RateLimiter)
    (data privateKey : string) (shardId : Z) : RateLimiter * string :=
  let '(rl, allowed) := allowRequest now rl in
  if negb allowed then (rl, EmptyString)
  else if negb (validateInput data) || Str.empty privateKey
  then (rl, EmptyString)
  else
    (rl,
     String.append
       (String.append "hmac_v11_" (hex (HMAC_sha512 privateKey data)))
       (String.append "_shard" (pretty shardId))).

(** [std::string zkStarkProve_v11(data, shardId)]; [randomBytes] is what
    [RAND_bytes] delivers, [None] when it does not return 1. *)
Definition zkStarkProve_v11 (randomBytes : option (list Byte.byte))
    (data : string) (shardId : Z) : string :=
  if negb (validateInput data) then ""
  else match randomBytes with
       | None => ""
       | Some bytes =>
           String.append "zk_proof_v11_"
             (String.append (sha3_512_v11 data shardId)
                (String.append "_" (hex (firstn 32 bytes))))
       end.

(** [KeyPair generateKeyPair(int shardId)]; [randomBytes] is the outcome
    of the first [RAND_bytes] call (64 bytes) and [sigBytes i] the
    content of the 16-byte buffer of the [i]-th signature. *)
Definition generateKeyPair (now : Z) (randomBytes : option (list Byte.byte))
    (sigBytes : nat -> list Byte.byte) (shardId : Z) : KeyPair :=
  let keyPair := KeyPair_new now in
  match randomBytes with
  | None => keyPair
  | Some bytes =>
      let pubHex := hex (firstn 32 bytes) in
      let privHex := hex (firstn 32 (skipn 32 bytes)) in
      mkKeyPair
        (String.append "pub_v11_"
           (String.append pubHex (String.append "_shard" (pretty shardId))))
        (String.append "priv_v11_"
           (String.append privHex (String.append "_shard" (pretty shardId))))
        (map (fun i => String.append "multisig_" (hex (firstn 16 (sigBytes i))))
             (seq 0 (Z.to_nat REQUIRED_SIGNATURES)))
        (createdAt keyPair) (expiresAt keyPair) (keyVersion keyPair)
  end.

(** [std::optional<std::string> encrypt(string_view data, int shardId)] *)
Definition encrypt (data : string) (shardId : Z) : option string :=
  if negb (validateInput data) then None
  else Some (String.append "aes256gcm_" (sha3_512_v11 data shardId)).

(** [std::string generateAuthToken(string_view privateKey, int shardId)] *)
Definition generateAuthToken (now : Z) (privateKey : string) (shardId : Z)
  : string :=
  let tokenData :=
    String.append privateKey
      (String.append "_"
         (String.append (pretty now)
            (String.append "_" (pretty shardId)))) in
  sha3_512_v11 tokenData shardId.

End OpenSSL.

End Crypto.

(** ** Shard assignment ([quantumpulse_sharding_v7.h]) *)

Module Sharding.

(** [struct ShardingConfig] *)
Definition MAX_SHARDS : Z := 2048.
Definition ACTIVE_SHARDS : Z := 16.

(** The data members of [class ShardingManager]; [shardMutex_] makes
    each member function one atomic step. *)
Record ShardingManager := mkShardingManager {
  shardCount_ : Z;                      (* int *)
  shardAssignments_ : gmap string Z;    (* unordered_map<string, int> *)
  syncCount_ : Z;                       (* size_t *)
  rebalanceCount_ : Z                   (* size_t *)
}.

(** The constructor. *)
Definition ShardingManager_new : ShardingManager :=
  mkShardingManager ACTIVE_SHARDS ∅ 0 0.

Section Hash.

(** [std::hash<std::string_view>], whose values are [size_t]. *)
Variable std_hash : string -> Z.

(** [static int calculateShardId(std::string_view dataId)] *)
Definition calculateShardId (dataId : string) : Z :=
  let hash := Dbl.wrapu64 (std_hash dataId) in
  Dbl.wrap32 (hash mod ACTIVE_SHARDS).

(** [void assignShard(std::string_view dataId, int shardId)] *)
Definition assignShard (sm : ShardingManager) (dataId : string) (shardId : Z)
  : ShardingManager :=
  let effectiveShardId :=
    if (shardId <? 0) || (shardId >=? shardCount_ sm)
    then calculateShardId dataId
    else shardId in
  mkShardingManager (shardCount_ sm)
    (<[dataId := effectiveShardId]> (shardAssignments_ sm))
    (syncCount_ sm) (rebalanceCount_ sm).

(** [int getShardForData(std::string_view dataId) const] *)
Definition getShardForData (sm : ShardingManager) (dataId : string) : Z :=
  match shardAssignments_ sm !! dataId with
  | Some shard => shard
  | None => calculateShardId dataId
  end.

End Hash.

(** [void syncShards()] *)
Definition syncShards (sm : ShardingManager) : ShardingManager :=
  mkShardingManager (shardCount_ sm) (shardAssignments_ sm)
    (Dbl.wrapu64 (syncCount_ sm + 1)) (rebalanceCount_ sm).

(** [void rebalanceShards()] *)
Definition rebalanceShards (sm : ShardingManager) : ShardingManager :=
  mkShardingManager (shardCount_ sm) (shardAssignments_ sm)
    (syncCount_ sm) (Dbl.wrapu64 (rebalanceCount_ sm + 1)).

(** [bool validateShard(int shardId) const] *)
Definition validateShard (sm : ShardingManager) (shardId : Z) : bool :=
  (shardId >=? 0) && (shardId <? shardCount_ sm).

(** [int getShardCount() const], [int getMaxShards() const] and
    [size_t getAssignmentCount() const] *)
Definition getShardCount (sm : ShardingManager) : Z := shardCount_ sm.
Definition getMaxShards (sm : ShardingManager) : Z := MAX_SHARDS.
Definition getAssignmentCount (sm : ShardingManager) : Z :=
  Z.of_nat (size (shardAssignments_ sm)).

End Sharding.

(** ** Building a transaction (the constructor of [class Transaction],
    [quantumpulse_blockchain_v7.h]) *)

Module TxBuild.
Import Ledger.

(** [std::tolower] on an [unsigned char], in the "C" locale. *)
Definition tolower (c : ascii) : ascii :=
  let n := N_of_ascii c in
  if ((65 <=? n) && (n <=? 90))%N then ascii_of_N (n + 32) else c.

Fixpoint lower (s : string) : string :=
  match s with
  | EmptyString => EmptyString
  | String c s' => String (tolower c) (lower s')
  end.

(** [sensitivePatterns_] of [AI::AIManager]. *)
Definition sensitivePatterns : list string :=
  ["password"; "secret"; "api_key"; "private_key"; "token"; "credential";
   "ssn"; "credit_card"]%string.

(** [bool AIManager::preventDataLeak(std::string_view data, int)]; the
    counter of leaks it keeps is left out. *)
Definition preventDataLeak (data : string) : bool :=
  existsb (Str.contains (lower data)) sensitivePatterns.

(** What the constructor throws. *)
Inductive exception : Type :=
| invalid_argument (what : string)
| overflow_error (what : string)
| runtime_error (what : string).

Section Services.

(** The library functions behind the managers, and
    [std::to_string(double)]. *)
Variable EVP_sha512 : string -> option (list Byte.byte).
Variable HMAC_sha512 : string -> string -> list Byte.byte.
Variable std_hash : string -> Z.
Variable to_string_double : float -> string.

(** [Transaction(sender_, receiver_, amount_, fee_, keyPair, shardId_,
    cryptoManager, aiManager, shardingManager)].  [now] is the value of
    [time(nullptr)] and [zkRandom] what [RAND_bytes] delivers to
    [zkStarkProve_v11].  The call changes the rate limiter of the
    [CryptoManager] and the assignments of the [ShardingManager];
    [detectAnomaly] only logs and counts. *)
Definition Transaction_new (now : Z) (rl : Crypto.RateLimiter)
    (sm : Sharding.ShardingManager) (zkRandom : option (list Byte.byte))
    (sender_ receiver_ : string) (amount_ fee_ : float)
    (keyPair : Crypto.KeyPair) (shardId_ : Z)
  : Crypto.RateLimiter * Sharding.ShardingManager
    * (exception + Transaction) :=
  if Str.empty sender_ || Str.empty receiver_
  then (rl, sm, inl (invalid_argument "Sender and receiver cannot be empty"))
  else if (amount_ <=? 0)%float
  then (rl, sm, inl (invalid_argument "Amount must be positive"))
  else if (fee_ <? 0)%float
  then (rl, sm, inl (invalid_argument "Fee cannot be negative"))
  else if Str.contains sender_ ";" || Str.contains receiver_ ";"
          || Str.contains sender_ "<" || Str.contains receiver_ "<"
  then (rl, sm, inl (invalid_argument "Malicious characters detected"))
  else if (Dbl.DBL_MAX / 2 <? amount_)%float
          || (Dbl.DBL_MAX / 2 <? fee_)%float
  then (rl, sm, inl (overflow_error "Amount/fee overflow"))
  else
    let timestamp := now in
    let expiresAt := timestamp + 86400 in
    let data :=
      String.append sender_
        (String.append receiver_
           (String.append (to_string_double amount_)
              (String.append (to_string_double fee_)
                 (String.append (pretty timestamp) (pretty shardId_))))) in
    let txId := Crypto.sha3_512_v11 EVP_sha512 data shardId_ in
    let '(rl, signature) :=
      Crypto.signTransaction HMAC_sha512 now rl txId
        (Crypto.privateKey keyPair) shardId_ in
    let zkProof := Crypto.zkStarkProve_v11 EVP_sha512 zkRandom txId shardId_ in
    let multiSignatures := Crypto.multiSignatures keyPair in
    if negb (validateMultiSignature multiSignatures)
    then (rl, sm, inl (runtime_error "Multi-signature validation failed"))
    else if preventDataLeak data
    then (rl, sm, inl (runtime_error "Data leak detected"))
    else
      (rl, Sharding.assignShard std_hash sm txId shardId_,
       inr (mkTransaction sender_ receiver_ txId signature zkProof
              multiSignatures amount_ fee_ expiresAt)).

End Services.

End TxBuild.

(** ** Proof of work ([MiningManager::mineBlock] of
    [quantumpulse_mining_v7.h]) *)

Module Pow.
Import Mining.

(** [MiningConfig::MAX_NONCE_ATTEMPTS] *)
Definition MAX_NONCE_ATTEMPTS : Z := 10000000.

(** What a call of the [noexcept] [mineBlock] yields: the values it
    leaves and returns, or [std::terminate] when an exception would
    leave it. *)
Inductive run (A : Type) : Type :=
| Finished (a : A)
| Terminated.
Arguments Finished {A} a.
Arguments Terminated {A}.

(** [std::string target(difficulty, '0')]: [None] when the constructor
    throws [std::length_error], which it does for a negative
    difficulty. *)
Definition target (difficulty : Z) : option string :=
  Str.fill difficulty "0".

(** [hash.substr(0, difficulty) == target] *)
Definition meets_target (hash : string) (difficulty : Z) (target : string)
  : bool :=
  String.eqb (Str.substr0 hash difficulty) target.

(** ["0123456789abcdef"[n]] *)
Definition hex_char (n : Z) : ascii :=
  nth (Z.to_nat n) (list_ascii_of_string "0123456789abcdef") "000"%char.

(** The loop of [generateHash] over [i = 0 .. 63], which appends
    ["0123456789abcdef"[(hash >> (i % 16)) & 0xF]]. *)
Definition hash_string (hash : Z) : string :=
  string_of_list_ascii
    (map (fun i => hex_char (Z.land (Z.shiftr hash (i mod 16)) 15))
         (seqZ 0 64)).

Section Hash.

(** [std::hash<std::string>], whose values are [size_t]. *)
Variable std_hash : string -> Z.

(** [std::string generateHash(data, nonce, shardId) const] *)
Definition generateHash (data : string) (nonce shardId : Z) : string :=
  let hash :=
    Dbl.wrapu64
      (std_hash (String.append data
                   (String.append (pretty nonce) (pretty shardId)))) in
  hash_string hash.

(** The [for] loop of [mineBlock], with [attempts] nonces still to try;
    it yields the final values of [nonce] and [hash] and the flag
    returned. *)
Fixpoint mine_loop (attempts : nat) (data : string) (difficulty : Z)
    (target : string) (nonce : Z) (hash : string) (shardId : Z)
  : Z * string * bool :=
  match attempts with
  | O => (nonce, hash, false)
  | S attempts' =>
      let hash := generateHash data nonce shardId in
      if meets_target hash difficulty target then (nonce, hash, true)
      else mine_loop attempts' data difficulty target (nonce + 1) hash
             shardId
  end.

(** [bool mineBlock(data, difficulty, int& nonce, std::string& hash,
    shardId) noexcept]: the values left in [nonce] and [hash], and the
    flag; the exception of a negative difficulty ends the program. *)
Definition mineBlock (mm : MiningManager) (data : string) (difficulty : Z)
    (nonce : Z) (hash : string) (shardId : Z) : run (Z * string * bool) :=
  if negb (checkMiningLimit mm) then Finished (nonce, hash, false)
  else
    match target difficulty with
    | None => Terminated
    | Some target =>
        Finished (mine_loop (Z.to_nat MAX_NONCE_ATTEMPTS) data difficulty
                    target 0 hash shardId)
    end.

(** [bool Block::mine(MiningManager&, CryptoManager&)].  The members
    [merkleRoot], [timestamp] and [nonce] of the block, which [Block]
    leaves out, are passed here, and the new [nonce] is returned beside
    the block. *)
Definition Block_mine (mm : MiningManager) (b : Ledger.Block)
    (merkleRoot : string) (timestamp nonce : Z)
  : run (MiningManager * Ledger.Block * Z * bool) :=
  if negb (checkMiningLimit mm) then Finished (mm, b, nonce, false)
  else
    let data :=
      String.append (Ledger.prevHash b)
        (String.append merkleRoot (pretty timestamp)) in
    match mineBlock mm data (Ledger.difficulty b) nonce (Ledger.hash b)
            (Ledger.shardId b) with
    | Terminated => Terminated
    | Finished (nonce, hash, success) =>
        let b :=
          Ledger.mkBlock (Ledger.prevHash b) hash (Ledger.difficulty b)
            (Ledger.reward b) (Ledger.transactions b) (Ledger.isOrphaned b)
            (Ledger.shardId b) in
        if success
        then Finished (addMinedCoins mm (Ledger.reward b), b, nonce, true)
        else Finished (mm, b, nonce, false)
    end.

End Hash.

End Pow.

(** ** The chain of blocks ([class Blockchain] of
    [quantumpulse_blockchain_v7.h]) *)

Module Chain.
Import Ledger.

(** The constructor [Block()]. *)
Definition Block_new : Block := mkBlock "" "" 4 50.0%float [] false 0.

(** The genesis block of shard [i], as the constructor of [Blockchain]
    fills it in; [sha3] is [CryptoManager::sha3_512_v11]. *)
Definition genesis_block (sha3 : string -> Z -> string) (i : Z) : Block :=
  mkBlock (String.append "genesis_" (pretty i))
    (sha3 (String.append "genesis_" (pretty i)) i)
    4 50.0%float (transactions Block_new) (isOrphaned Block_new) i.

(** [void initializePreminedAccounts()]; [stealthKeyPair] is what
    [generateKeyPair(0)] returns. *)
Definition initializePreminedAccounts (sha3 : string -> Z -> string)
    (stealthKeyPair : Crypto.KeyPair) (bc : Blockchain) : Blockchain :=
  let stealthAddress :=
    sha3 (String.append (Crypto.publicKey stealthKeyPair) "_stealth_founder")
      0 in
  mkBlockchain (chain bc) (balances bc)
    (<[stealthAddress := 2000000.0%float]> (hiddenBalances bc))
    stealthAddress (totalMinedCoins bc) (isAddingBlock bc)
    (isTransferring bc).

(** The constructor [Blockchain()]: sixteen genesis blocks, then the
    premined account. *)
Definition Blockchain_new (sha3 : string -> Z -> string)
    (stealthKeyPair : Crypto.KeyPair) : Blockchain :=
  initializePreminedAccounts sha3 stealthKeyPair
    (mkBlockchain (map (genesis_block sha3) (seqZ 0 16)) ∅ ∅ "" 0 false
       false).

(** The loop of [validateChain] over the blocks that follow the first:
    it ends at the first block whose [validate] returns false or
    throws. *)
Fixpoint validate_from (now : Z) (blocks : list Block) : outcome bool :=
  match blocks with
  | [] => Returned true
  | b :: rest =>
      match Block_validate now b with
      | Returned true => validate_from now rest
      | Returned false => Returned false
      | ReentrancyFault => ReentrancyFault
      | LengthError => LengthError
      end
  end.

(** [bool validateChain() const]: the loop runs from index 1. *)
Definition validateChain (now : Z) (bc : Blockchain) : outcome bool :=
  validate_from now (tail (chain bc)).

(** [bool deepValidateChain(const std::vector<Block>&, CryptoManager&)]
    of [quantumpulse_blockchain_v7.cpp]. *)
Definition deepValidateChain (now : Z) (chain : list Block)
  : outcome bool :=
  match chain with
  | [] => Returned true
  | _ :: rest => validate_from now rest
  end.

(** [size_t getChainLength() const] *)
Definition getChainLength (bc : Blockchain) : Z :=
  Z.of_nat (length (chain bc)).

End Chain.

(** ** Free functions of [quantumpulse_blockchain_v7.cpp] *)

Module Helpers.

(** The characters of [std::string dangerous]: semicolon, angle
    brackets, double quote, single quote, back quote, backslash. *)
Definition dangerous : list ascii :=
  [";"; "<"; ">"; "034"; "'"; "`"; "\"]%char.

(** [s.erase(std::remove(s.begin(), s.end(), c), s.end())] *)
Fixpoint erase_remove (c : ascii) (s : string) : string :=
  match s with
  | EmptyString => EmptyString
  | String x s' =>
      if Ascii.eqb x c then erase_remove c s'
      else String x (erase_remove c s')
  end.

(** [std::string sanitizeInput(const std::string& input)] *)
Definition sanitizeInput (input : string) : string :=
  let sanitized :=
    fold_left (fun sanitized c => erase_remove c sanitized) dangerous input in
  if Z.of_nat (String.length sanitized) >? 2000000
  then String.substring 0 (Z.to_nat 2000000) sanitized
  else sanitized.

(** [bool zeroTrustVerify(account, action, shardId)] *)
Definition zeroTrustVerify (account action : string) (shardId : Z) : bool :=
  if Str.empty account || Str.empty action then false else true.

(** The comparator [operator<] of [std::sort] on doubles, as "not
    after": [b] does not come strictly before [a]. *)
Definition double_not_after (a b : float) : Prop := (b <? a)%float = false.

Global Instance double_not_after_dec a b : Decision (double_not_after a b).
Proof. unfold double_not_after. apply _. Defined.

Section Libm.

(** [std::sin] and [std::cos] of the C library. *)
Variable std_sin : float -> float.
Variable std_cos : float -> float.

(** [double oracleSimulation(double currentPrice, uint64_t blockHeight)];
    a stable sort stands for [std::sort]. *)
Definition oracleSimulation (currentPrice : float) (blockHeight : Z)
  : float :=
  let source1 :=
    (currentPrice
     * (1.0 + std_sin (Dbl.of_Z blockHeight * 0.001) * 0.01))%float in
  let source2 :=
    (currentPrice
     * (1.0 + std_cos (Dbl.of_Z blockHeight * 0.002) * 0.008))%float in
  let source3 := (currentPrice * 1.0005)%float in
  let values := merge_sort double_not_after [source1; source2; source3] in
  let median := nth 1 values 0%float in
  Dbl.std_max median 600000.0%float.

End Libm.

End Helpers.

(** ** Transactions over the UTXO set ([quantumpulse_utxo_v7.h]) *)

Module UTXOTx.

(** [struct TxInput] *)
Record TxInput := mkTxInput {
  in_txid : string;        (* txid *)
  in_vout : Z;             (* vout *)
  scriptSig : string;
  witness : string;
  sequence : Z
}.

(** [struct TxOutput] *)
Record TxOutput := mkTxOutput {
  out_amount : float;          (* amount *)
  out_scriptPubKey : string;   (* scriptPubKey *)
  out_address : string         (* address *)
}.

(** The fields of [struct Transaction] that [validateInputs] reads. *)
Record Transaction := mkTransaction {
  txid : string;
  vin : list TxInput;
  vout : list TxOutput;
  fee : float
}.

(** The first loop of [validateInputs]: [None] when an input is not in
    the set, else the sum of the amounts found. *)
Fixpoint sum_inputs (s : @UTXO.UTXOSet float) (inputs : list TxInput)
    (inputSum : float) : option float :=
  match inputs with
  | [] => Some inputSum
  | input :: rest =>
      match UTXO.getUTXO s (in_txid input) (in_vout input) with
      | None => None
      | Some utxo => sum_inputs s rest (inputSum + UTXO.amount utxo)%float
      end
  end.

(** [bool validateInputs(const Transaction& tx) const] *)
Definition validateInputs (s : @UTXO.UTXOSet float) (tx : Transaction)
  : bool :=
  match sum_inputs s (vin tx) 0%float with
  | None => false
  | Some inputSum =>
      let outputSum :=
        fold_left (fun outputSum output => (outputSum + out_amount output)%float)
          (vout tx) 0%float in
      (outputSum <=? inputSum)%float
  end.

End UTXOTx.

(** ** Reading the pool ([quantumpulse_mempool_v7.h]) *)

Module MempoolQueries.
Import Mempool.

(** The comparator of [getBlockTemplate] puts the higher fee rate first;
    this is "not after": [b] does not come strictly before [a]. *)
Definition fee_not_before (a b : MempoolEntry) : Prop :=
  (feeRate a <? feeRate b)%float = false.

Global Instance fee_not_before_dec a b : Decision (fee_not_before a b).
Proof. unfold fee_not_before. apply _. Defined.

(** The second loop of [getBlockTemplate]; [currentWeight] is a
    [size_t]. *)
Fixpoint template_loop (sorted : list MempoolEntry)
    (maxWeight currentWeight : Z) : list Transaction :=
  match sorted with
  | [] => []
  | entry :: rest =>
      if Dbl.wrapu64 (currentWeight + weight (tx entry)) <=? maxWeight
      then tx entry
           :: template_loop rest maxWeight
                (Dbl.wrapu64 (currentWeight + weight (tx entry)))
      else template_loop rest maxWeight currentWeight
  end.

(** [std::vector<UTXO::Transaction> getBlockTemplate(size_t maxWeight)].
    As for [evictLowFeeTxs], a stable sort of the key-ordered entries
    stands for [std::sort]. *)
Definition getBlockTemplate (mp : TransactionMempool) (maxWeight : Z)
  : list Transaction :=
  let sorted :=
    merge_sort fee_not_before
      (map snd (in_key_order (transactions_ mp))) in
  template_loop sorted maxWeight 0.

(** [std::optional<UTXO::Transaction> getTransaction(txid) const] *)
Definition getTransaction (mp : TransactionMempool) (txid : string)
  : option Transaction :=
  match transactions_ mp !! txid with
  | Some entry => Some (tx entry)
  | None => None
  end.

(** [double getTotalFee() const] *)
Definition getTotalFee (mp : TransactionMempool) : float :=
  fold_left (fun total p => (total + fee (tx (snd p)))%float)
    (in_key_order (transactions_ mp)) 0%float.

(** [void setHeight(int height)] *)
Definition setHeight (mp : TransactionMempool) (height : Z)
  : TransactionMempool :=
  mkTransactionMempool (transactions_ mp) (maxSize_ mp) (currentSize_ mp)
    height (feeIndex_ mp).

End MempoolQueries.

(** * Part II: properties *)

(** ** Facts about strings *)

Module StrFacts.
Import Str.

Lemma empty_true s : empty s = true <-> s = EmptyString.
Proof. destruct s; simpl; split; congruence. Qed.

Lemma append_nil b : String.append EmptyString b = b.
Proof. reflexivity. Qed.

Lemma append_cons c p b :
  String.append (String c p) b = String c (String.append p b).
Proof. reflexivity. Qed.

Lemma prefix_app p s :
  String.prefix p s = true <-> exists b, s = String.append p b.
Proof.
  revert s; induction p as [|c p IH]; intros s; simpl.
  - destruct s; (split; [intros _; eexists; apply eq_sym, append_nil | done]).
  - destruct s as [|d s]; simpl.
    + split; [discriminate|].
      intros [b Hb]; rewrite append_cons in Hb; discriminate.
    + destruct (ascii_dec c d) as [->|Hne].
      * rewrite IH. split; intros [b Hb]; exists b.
        -- rewrite append_cons. congruence.
        -- rewrite append_cons in Hb. congruence.
      * split; [discriminate|].
        intros [b Hb]. rewrite append_cons in Hb. congruence.
Qed.

Lemma find_unfold s pat :
  find s pat =
  if String.prefix pat s then Some 0%nat
  else match s with
       | EmptyString => None
       | String _ s' => option_map S (find s' pat)
       end.
Proof. by destruct s. Qed.

Lemma contains_substring s pat :
  contains s pat = true <-> substring_of pat s.
Proof.
  unfold contains, substring_of.
  induction s as [|c s IH]; rewrite find_unfold;
    destruct (String.prefix pat _) eqn:Hp.
  - split; [intros _|done].
    apply prefix_app in Hp as [b Hb]. by exists EmptyString, b.
  - split; [done|]. intros (a & b & Hab).
    destruct a; [|rewrite append_cons in Hab; discriminate].
    rewrite append_nil in Hab.
    assert (String.prefix pat "" = true) by (apply prefix_app; eauto).
    congruence.
  - split; [intros _|done].
    apply prefix_app in Hp as [b Hb]. by exists EmptyString, b.
  - destruct (find s pat) as [n|]; simpl.
    + split; [intros _|done].
      destruct IH as [IH _]. destruct (IH eq_refl) as (a & b & ->).
      by exists (String c a), b.
    + split; [done|]. intros (a & b & Hab).
      destruct a as [|c' a].
      * rewrite append_nil in Hab.
        assert (String.prefix pat (String c s) = true)
          by (apply prefix_app; eauto).
        congruence.
      * rewrite append_cons in Hab. injection Hab as -> ->.
        destruct IH as [_ IH]. discriminate IH. eauto.
Qed.

End StrFacts.

(** ** IEEE-754 facts used below

    The primitive operations are specified by [SpecFloat]; the lemmas
    here follow a datum through rounding far enough to know that it is
    not a NaN, and order two data that are not NaN. *)

Module DblFacts.
Import Dbl.

Definition sf_not_nan (x : spec_float) : Prop := x <> S754_nan.

Definition sf_is_inf (x : spec_float) : bool :=
  match x with S754_infinity _ => true | _ => false end.

Definition sf_is_zero (x : spec_float) : bool :=
  match x with S754_zero _ => true | _ => false end.

Definition sf_finite (x : spec_float) : Prop :=
  match x with S754_zero _ | S754_finite _ _ _ => True | _ => False end.

Lemma shr_1_nonneg mrs : 0 <= shr_m mrs -> 0 <= shr_m (shr_1 mrs).
Proof.
  destruct mrs as [m r s]; simpl.
  destruct m as [|p|p]; [done| |lia].
  destruct p; simpl; lia.
Qed.

Lemma iter_pos_shr_1_nonneg p mrs :
  0 <= shr_m mrs -> 0 <= shr_m (SpecFloat.iter_pos shr_1 p mrs).
Proof.
  revert mrs; induction p as [p IH|p IH|]; intros mrs H; simpl.
  - apply IH, IH, shr_1_nonneg, H.
  - apply IH, IH, H.
  - apply shr_1_nonneg, H.
Qed.

Lemma shr_record_of_loc_m m l : shr_m (shr_record_of_loc m l) = m.
Proof. by destruct l as [|[]]. Qed.

Lemma shr_fexp_nonneg m e l :
  0 <= m -> 0 <= shr_m (fst (shr_fexp prec emax m e l)).
Proof.
  intros H. unfold shr_fexp, shr.
  destruct (fexp prec emax (Zdigits2 m + e) - e) as [|p|p]; simpl;
    rewrite ?shr_record_of_loc_m; try done.
  apply iter_pos_shr_1_nonneg. by rewrite shr_record_of_loc_m.
Qed.

Lemma round_nearest_even_nonneg m l :
  0 <= m -> 0 <= round_nearest_even m l.
Proof.
  intros H. unfold round_nearest_even.
  destruct l as [|[]]; try lia. destruct (Z.even m); lia.
Qed.

Lemma binary_round_aux_not_nan s m e l :
  0 <= m -> sf_not_nan (binary_round_aux prec emax s m e l).
Proof.
  intros Hm. unfold binary_round_aux.
  pose proof (shr_fexp_nonneg m e l Hm) as H1.
  destruct (shr_fexp prec emax m e l) as [mrs' e']. simpl in H1.
  pose proof (shr_fexp_nonneg _ e' loc_Exact
                (round_nearest_even_nonneg _ (loc_of_shr_record mrs') H1))
    as H2.
  destruct (shr_fexp prec emax _ e' loc_Exact) as [mrs'' e'']. simpl in H2.
  destruct (shr_m mrs'') as [|p|p]; [done| |lia].
  by destruct (e'' <=? emax - prec).
Qed.

Lemma binary_round_not_nan s m e :
  sf_not_nan (binary_round prec emax s m e).
Proof.
  unfold binary_round. destruct (shl_align _ _ _) as [mz ez].
  by apply binary_round_aux_not_nan.
Qed.

Lemma binary_normalize_not_nan m e sz :
  sf_not_nan (binary_normalize prec emax m e sz).
Proof.
  unfold binary_normalize. destruct m; [done|..];
    apply binary_round_not_nan.
Qed.

Lemma SFmul_not_nan x y :
  sf_not_nan x -> sf_not_nan y ->
  sf_is_inf x && sf_is_zero y = false ->
  sf_is_zero x && sf_is_inf y = false ->
  sf_not_nan (SFmul prec emax x y).
Proof.
  intros Hx Hy H1 H2.
  destruct x as [sx|sx| |sx mx ex], y as [sy|sy| |sy my ey];
    simpl in *; try done.
  by apply binary_round_aux_not_nan.
Qed.


Lemma SFadd_not_nan x y :
  sf_finite x -> sf_not_nan y -> sf_not_nan (SFadd prec emax x y).
Proof.
  intros Hx Hy.
  destruct x as [sx|sx| |sx mx ex], y as [sy|sy| |sy my ey];
    simpl in *; try done.
  - by destruct sx, sy.
  - apply binary_normalize_not_nan.
Qed.





Lemma SFcompare_antisym x y c :
  SFcompare x y = Some c -> SFcompare y x = Some (CompOpp c).
Proof.
  destruct x as [sx|sx| |sx mx ex], y as [sy|sy| |sy my ey]; simpl;
    try discriminate; intros [= <-]; f_equal;
    repeat match goal with b : bool |- _ => destruct b end; try done.
  - rewrite (Z.compare_antisym ey ex).
    destruct (ey ?= ex); simpl; try done.
    rewrite CompOpp_involutive. exact (Pos.compare_cont_antisym my mx Eq).
  - rewrite (Z.compare_antisym ey ex).
    destruct (ey ?= ex); simpl; try done.
    symmetry. exact (Pos.compare_cont_antisym mx my Eq).
Qed.

Lemma SFcompare_not_nan x y :
  sf_not_nan x -> sf_not_nan y -> exists c, SFcompare x y = Some c.
Proof.
  intros Hx Hy. destruct x, y; simpl; try done; eauto.
Qed.

(** The order is total away from NaN: [not (x < y)] gives [y <= x]. *)
Lemma ltb_false_leb x y :
  not_nan x -> not_nan y -> (x <? y)%float = false -> (y <=? x)%float = true.
Proof.
  unfold not_nan. intros Hx Hy. rewrite ltb_spec, leb_spec.
  unfold SFltb, SFleb.
  destruct (SFcompare_not_nan _ _ Hx Hy) as [c Hc].
  rewrite Hc, (SFcompare_antisym _ _ _ Hc). by destruct c.
Qed.

Lemma leb_refl x : not_nan x -> (x <=? x)%float = true.
Proof.
  unfold not_nan. intros Hx. rewrite leb_spec. unfold SFleb.
  destruct (Prim2SF x) as [s|s| |s m e]; simpl; try done.
  - by destruct s.
  - rewrite Z.compare_refl.
    destruct s; simpl; by rewrite Pos.compare_cont_refl.
Qed.


Lemma std_max_ge a b :
  not_nan a -> not_nan b -> (b <=? std_max a b)%float = true.
Proof.
  intros Ha Hb. unfold std_max.
  destruct (a <? b)%float eqn:E; [by apply leb_refl|].
  by apply ltb_false_leb.
Qed.

(** *** Magnitudes

    [sf_mag B x] says that the finite datum [x] is below [2^B] in
    absolute value.  The bounds are followed through rounding, loosely:
    they only have to stay clear of the overflow threshold. *)

Lemma digits2_pos_size p : digits2_pos p = Pos.size p.
Proof. induction p; simpl; congruence. Qed.

Lemma Zdigits2_log2 p : Zdigits2 (Z.pos p) = Z.log2 (Z.pos p) + 1.
Proof.
  simpl. rewrite digits2_pos_size. destruct p; simpl; lia.
Qed.

Lemma Zdigits2_nonneg m : 0 <= m -> 0 <= Zdigits2 m.
Proof. destruct m; simpl; lia. Qed.

Lemma Zdigits2_gt m : 0 <= m -> m < 2 ^ Zdigits2 m.
Proof.
  intros H. destruct m as [|p|p]; [simpl; lia| |lia].
  rewrite Zdigits2_log2. apply Z.log2_spec. lia.
Qed.

Lemma Zdigits2_le m d : 0 <= m -> 0 <= d -> m < 2 ^ d -> Zdigits2 m <= d.
Proof.
  intros Hm Hd H. destruct m as [|p|p]; [simpl; lia| |lia].
  rewrite Zdigits2_log2.
  assert (Z.log2 (Z.pos p) < d) by (apply Z.log2_lt_pow2; lia). lia.
Qed.

Lemma shr_1_m mrs : 0 <= shr_m mrs -> shr_m (shr_1 mrs) = shr_m mrs / 2.
Proof.
  destruct mrs as [m r s]; simpl. intros H.
  destruct m as [|p|p]; [done| |lia].
  destruct p; simpl shr_m.
  - rewrite Pos2Z.inj_xI. apply Z.div_unique with 1; lia.
  - rewrite Pos2Z.inj_xO. apply Z.div_unique with 0; lia.
  - reflexivity.
Qed.

Lemma pow2_xO p : 2 ^ Z.pos p~0 = 2 ^ Z.pos p * 2 ^ Z.pos p.
Proof. rewrite <- Z.pow_add_r by lia. f_equal. lia. Qed.

Lemma pow2_xI p : 2 ^ Z.pos p~1 = 2 * (2 ^ Z.pos p * 2 ^ Z.pos p).
Proof.
  rewrite <- Z.pow_add_r by lia. rewrite <- Z.pow_succ_r by lia.
  f_equal. lia.
Qed.

Lemma iter_pos_shr_1_m p mrs :
  0 <= shr_m mrs ->
  shr_m (SpecFloat.iter_pos shr_1 p mrs) = shr_m mrs / 2 ^ Z.pos p.
Proof.
  revert mrs. induction p as [p IH|p IH|]; intros mrs H;
    simpl SpecFloat.iter_pos.
  - assert (0 <= shr_m (shr_1 mrs)) as H1.
    { rewrite shr_1_m by done. apply Z.div_pos; lia. }
    assert (0 <= shr_m (SpecFloat.iter_pos shr_1 p (shr_1 mrs))) as H2.
    { rewrite IH by done. apply Z.div_pos; lia. }
    rewrite IH, IH, shr_1_m by done.
    rewrite !Z.div_div by lia. by rewrite pow2_xI.
  - assert (0 <= shr_m (SpecFloat.iter_pos shr_1 p mrs)) as H2.
    { rewrite IH by done. apply Z.div_pos; lia. }
    rewrite IH, IH by done.
    rewrite !Z.div_div by lia. by rewrite pow2_xO.
  - rewrite shr_1_m by done. reflexivity.
Qed.

Definition sf_mag (B : Z) (x : spec_float) : Prop :=
  match x with
  | S754_zero _ => True
  | S754_finite _ m e => Zdigits2 (Z.pos m) + e <= B
  | _ => False
  end.

Lemma fexp_eq x : fexp prec emax x = Z.max (x - 53) (-1074).
Proof. reflexivity. Qed.

Lemma shr_fexp_bound m e l :
  0 <= m ->
  0 <= shr_m (fst (shr_fexp prec emax m e l))
  /\ snd (shr_fexp prec emax m e l)
     = Z.max e (fexp prec emax (Zdigits2 m + e))
  /\ Zdigits2 (shr_m (fst (shr_fexp prec emax m e l)))
     + snd (shr_fexp prec emax m e l)
     <= Z.max (Zdigits2 m + e) (fexp prec emax (Zdigits2 m + e)).
Proof.
  intros Hm. unfold shr_fexp, shr.
  remember (fexp prec emax (Zdigits2 m + e)) as f eqn:Hf.
  destruct (f - e) as [|p|p] eqn:Hn; simpl fst; simpl snd;
    rewrite ?shr_record_of_loc_m.
  - repeat split; lia.
  - rewrite iter_pos_shr_1_m by (by rewrite shr_record_of_loc_m).
    rewrite shr_record_of_loc_m.
    assert (0 <= m / 2 ^ Z.pos p) as Hq by (apply Z.div_pos; lia).
    split; [done|]. split; [lia|].
    destruct (Z.eq_dec (m / 2 ^ Z.pos p) 0) as [->|Hne]; [simpl; lia|].
    pose proof (Zdigits2_gt m Hm) as Hlt.
    pose proof (Zdigits2_nonneg m Hm) as Hd0.
    assert (2 ^ Z.pos p <= m) as Hge.
    { destruct (Z_lt_le_dec m (2 ^ Z.pos p)) as [Hl|]; [|done].
      rewrite Z.div_small in Hne by lia. done. }
    assert (Z.pos p < Zdigits2 m) as Hpd.
    { apply (Z.pow_lt_mono_r_iff 2); lia. }
    assert (Zdigits2 (m / 2 ^ Z.pos p) <= Zdigits2 m - Z.pos p); [|lia].
    apply Zdigits2_le; [done|lia|].
    apply Z.div_lt_upper_bound; [lia|].
    rewrite <- Z.pow_add_r by lia.
    by replace (Z.pos p + (Zdigits2 m - Z.pos p)) with (Zdigits2 m) by lia.
  - repeat split; lia.
Qed.

Lemma round_nearest_even_digits m l :
  0 <= m ->
  0 <= round_nearest_even m l
  /\ Zdigits2 (round_nearest_even m l) <= Zdigits2 m + 1.
Proof.
  intros Hm.
  assert (m <= round_nearest_even m l <= m + 1) as Hr.
  { unfold round_nearest_even. destruct l as [|[]]; try lia.
    destruct (Z.even m); lia. }
  split; [lia|].
  pose proof (Zdigits2_gt m Hm). pose proof (Zdigits2_nonneg m Hm).
  apply Zdigits2_le; [lia|lia|].
  rewrite Z.pow_add_r, Z.pow_1_r by lia. lia.
Qed.

Lemma binary_round_aux_mag s m e l B :
  0 < m -> Zdigits2 m + e <= B -> -1074 <= B <= 972 ->
  sf_mag (B + 1) (binary_round_aux prec emax s m e l).
Proof.
  intros Hm Hd HB. unfold binary_round_aux.
  assert (1 <= Zdigits2 m) as Hd1.
  { destruct m as [|p|p]; try lia. rewrite Zdigits2_log2.
    pose proof (Z.log2_nonneg (Z.pos p)). lia. }
  destruct (shr_fexp_bound m e l) as (H1 & H2 & H3); [lia|].
  destruct (shr_fexp prec emax m e l) as [mrs' e'].
  simpl fst in *; simpl snd in *.
  destruct (round_nearest_even_digits (shr_m mrs') (loc_of_shr_record mrs') H1)
    as [H4 H5].
  set (m2 := round_nearest_even (shr_m mrs') (loc_of_shr_record mrs')) in *.
  destruct (shr_fexp_bound m2 e' loc_Exact H4) as (H6 & H7 & H8).
  destruct (shr_fexp prec emax m2 e' loc_Exact) as [mrs'' e''].
  simpl fst in *; simpl snd in *.
  rewrite fexp_eq in *.
  revert H6 H8.
  destruct (shr_m mrs'') as [|p|p]; intros H6 H8; [done| |lia].
  simpl Zdigits2 in H8.
  assert (e'' <= 971) as He by lia.
  change (emax - prec) with 971.
  apply Z.leb_le in He. rewrite He. simpl. lia.
Qed.

Lemma sf_mag_mono B B' x : B <= B' -> sf_mag B x -> sf_mag B' x.
Proof. intros H. destruct x; simpl; try done. lia. Qed.

Lemma Zdigits2_mul a b :
  0 <= a -> 0 <= b -> Zdigits2 (a * b) <= Zdigits2 a + Zdigits2 b.
Proof.
  intros Ha Hb.
  pose proof (Zdigits2_gt a Ha). pose proof (Zdigits2_gt b Hb).
  pose proof (Zdigits2_nonneg a Ha). pose proof (Zdigits2_nonneg b Hb).
  apply Zdigits2_le; [nia|lia|].
  rewrite Z.pow_add_r by lia. nia.
Qed.

Lemma SFmul_mag x y Bx By :
  sf_mag Bx x -> sf_mag By y -> -1074 <= Bx + By <= 972 ->
  sf_mag (Bx + By + 1) (SFmul prec emax x y).
Proof.
  intros Hx Hy HB.
  destruct x as [sx|sx| |sx mx ex], y as [sy|sy| |sy my ey];
    simpl in Hx, Hy; try done.
  cbn [SFmul]. apply binary_round_aux_mag; [lia| |done].
  assert (Zdigits2 (Z.pos (mx * my))
          <= Zdigits2 (Z.pos mx) + Zdigits2 (Z.pos my)) as Hd.
  { rewrite Pos2Z.inj_mul. apply Zdigits2_mul; lia. }
  simpl Zdigits2 in *. lia.
Qed.

Lemma shl_align_mag mx ex ex' :
  Zdigits2 (Z.pos (fst (shl_align mx ex ex'))) + snd (shl_align mx ex ex')
  <= Zdigits2 (Z.pos mx) + ex
  /\ snd (shl_align mx ex ex') = Z.min ex ex'.
Proof.
  unfold shl_align. destruct (ex' - ex) as [|d|d] eqn:Hd; simpl fst; simpl snd;
    [lia|lia|].
  split; [|lia].
  change (Pos.iter xO mx d) with (shift_pos d mx).
  rewrite shift_pos_correct. change (Z.pow_pos 2 d) with (2 ^ Z.pos d).
  pose proof (Zdigits2_gt (Z.pos mx)). pose proof (Zdigits2_nonneg (Z.pos mx)).
  assert (Zdigits2 (2 ^ Z.pos d * Z.pos mx) <= Zdigits2 (Z.pos mx) + Z.pos d);
    [|lia].
  apply Zdigits2_le; [nia|lia|].
  rewrite Z.pow_add_r by lia. nia.
Qed.

Lemma binary_round_mag s p e B :
  Zdigits2 (Z.pos p) + e <= B -> -1074 <= B <= 972 ->
  sf_mag (B + 1) (binary_round prec emax s p e).
Proof.
  intros Hd HB. unfold binary_round.
  pose proof (shl_align_mag p e (fexp prec emax (Z.pos (digits2_pos p) + e)))
    as [H _].
  destruct (shl_align p e _) as [mz ez]. simpl fst in H; simpl snd in H.
  apply binary_round_aux_mag; [lia| |done]. lia.
Qed.

Lemma SFadd_mag x y Bx By :
  sf_mag Bx x -> sf_mag By y -> -1074 <= Z.max Bx By + 1 <= 972 ->
  sf_mag (Z.max Bx By + 2) (SFadd prec emax x y).
Proof.
  intros Hx Hy HB.
  destruct x as [sx|sx| |sx mx ex], y as [sy|sy| |sy my ey];
    simpl in Hx, Hy; try done.
  - simpl. by destruct sx, sy.
  - simpl. lia.
  - simpl. lia.
  - cbn [SFadd].
    destruct (shl_align_mag mx ex (Z.min ex ey)) as [Ha Ha'].
    destruct (shl_align_mag my ey (Z.min ex ey)) as [Hb Hb'].
    destruct (shl_align mx ex (Z.min ex ey)) as [a ea].
    destruct (shl_align my ey (Z.min ex ey)) as [b eb].
    simpl fst in *; simpl snd in *.
    remember (Z.min ex ey) as ez eqn:Hez.
    remember (Z.max Bx By) as B eqn:HBdef.
    assert (1 <= Zdigits2 (Z.pos a)) as Ha1 by (simpl; lia).
    assert (1 <= Zdigits2 (Z.pos b)) as Hb1 by (simpl; lia).
    assert (Zdigits2 (Z.pos a) <= B - ez) as Hda
      by (simpl Zdigits2 in *; lia).
    assert (Zdigits2 (Z.pos b) <= B - ez) as Hdb
      by (simpl Zdigits2 in *; lia).
    assert (Z.pos a < 2 ^ (B - ez)) as HA.
    { eapply Z.lt_le_trans; [apply Zdigits2_gt; lia|].
      apply Z.pow_le_mono_r; lia. }
    assert (Z.pos b < 2 ^ (B - ez)) as HB'.
    { eapply Z.lt_le_trans; [apply Zdigits2_gt; lia|].
      apply Z.pow_le_mono_r; lia. }
    assert (2 ^ (B - ez + 1) = 2 * 2 ^ (B - ez)) as Hp.
    { rewrite Z.pow_add_r by lia. lia. }
    remember (cond_Zopp sx (Z.pos a) + cond_Zopp sy (Z.pos b)) as M eqn:HM.
    assert (Z.abs M < 2 ^ (B - ez + 1)) as HMb.
    { subst M. destruct sx, sy; simpl cond_Zopp; lia. }
    unfold binary_normalize. destruct M as [|p|p]; [done|..].
    + replace (B + 2) with ((B + 1) + 1) by lia.
      apply binary_round_mag; [|lia].
      assert (Zdigits2 (Z.pos p) <= B - ez + 1); [|lia].
      apply Zdigits2_le; lia.
    + replace (B + 2) with ((B + 1) + 1) by lia.
      apply binary_round_mag; [|lia].
      assert (Zdigits2 (Z.pos p) <= B - ez + 1); [|lia].
      apply Zdigits2_le; lia.
Qed.

Lemma abs_le_one_mag s :
  (abs s <=? 1)%float = true -> sf_mag 1 (Prim2SF s).
Proof.
  rewrite leb_spec, abs_spec. intros H.
  pose proof (Prim2SF_valid s) as Hv.
  change (Prim2SF 1) with (S754_finite false 4503599627370496 (-52)) in H.
  destruct (Prim2SF s) as [sg|sg| |sg m e].
  - exact I.
  - discriminate H.
  - discriminate H.
  - change (SFabs (S754_finite sg m e)) with (S754_finite false m e) in H.
    unfold SFleb, SFcompare in H.
    unfold SpecFloat.valid_binary, bounded, canonical_mantissa in Hv.
    apply andb_true_iff in Hv as [Hc _]. apply Z.eqb_eq in Hc.
    rewrite fexp_eq in Hc. unfold sf_mag, Zdigits2.
    destruct (e ?= -52) eqn:He.
    + apply Z.compare_eq in He. clear H. lia.
    + rewrite Z.compare_lt_iff in He. clear H. lia.
    + discriminate H.
Qed.

End DblFacts.

(** ** Properties of authentication and balance queries *)

Module LedgerFacts.
Import Ledger.


Definition sample_founder : string := "9f86d081884c7d659a2feaa0c55ad015".

Definition sample_ledger : Blockchain :=
  mkBlockchain [] {[ "alice"%string := 125.5%float ]}
    {[ sample_founder := 2000000.0%float ]} sample_founder 0 false false.

Lemma substring_nonempty pat s :
  pat <> EmptyString -> Str.substring_of pat s -> s <> EmptyString.
Proof.
  intros Hpat (a & b & ->) Hs.
  destruct a;
    [rewrite StrFacts.append_nil in Hs
    |rewrite StrFacts.append_cons in Hs; done].
  destruct pat; [done|]. rewrite StrFacts.append_cons in Hs. done.
Qed.

Lemma empty_false s : Str.empty s = false <-> s <> EmptyString.
Proof. destruct s; simpl; split; congruence. Qed.

(** C5 (as stated) fails for the empty account: it is not the founder
    address, the token carries the marker, and the call still rejects. *)
Lemma authenticateUser_empty_account_rejected :
  EmptyString <> founderStealthAddress sample_ledger
  /\ Str.substring_of "_v11_" "view_v11_key"
  /\ authenticateUser sample_ledger "" "view_v11_key" = false.
Proof.
  split; [done|]. split; [|reflexivity].
  by exists "view"%string, "key"%string.
Qed.

(** C5 (amended): [authenticateUser] rejects every empty token and every
    empty account; for a non-empty account other than the founder stealth
    address it accepts a token exactly when the token contains "_v11_";
    for the (non-empty) founder stealth address it accepts every non-empty
    token. *)
Theorem authenticateUser_rule (bc : Blockchain) (account token : string) :
  (token = EmptyString -> authenticateUser bc account token = false)
  /\ (account = EmptyString -> authenticateUser bc account token = false)
  /\ (account <> EmptyString -> account <> founderStealthAddress bc ->
      (authenticateUser bc account token = true
       <-> Str.substring_of "_v11_" token))
  /\ (account <> EmptyString -> account = founderStealthAddress bc ->
      token <> EmptyString -> authenticateUser bc account token = true).
Proof.
  unfold authenticateUser. repeat split.
  - intros ->. destruct (Str.empty account); [done|].
    simpl. by rewrite andb_false_r.
  - by intros ->.
  - intros Hauth. apply empty_false in H. rewrite H in Hauth.
    apply String.eqb_neq in H0. rewrite H0 in Hauth. simpl in Hauth.
    apply andb_true_iff in Hauth as [_ Hc].
    by apply StrFacts.contains_substring.
  - intros Hsub. apply empty_false in H. rewrite H.
    apply String.eqb_neq in H0. rewrite H0. simpl.
    apply andb_true_iff. split.
    + apply negb_true_iff, empty_false.
      by eapply substring_nonempty; [|exact Hsub].
    + by apply StrFacts.contains_substring.
  - intros Hne Heq Htok. apply empty_false in Hne. rewrite Hne.
    apply String.eqb_eq in Heq. rewrite Heq.
    apply empty_false in Htok. by rewrite Htok.
Qed.

(** The rule at the sample ledger: a public account with and without the
    marker, and the founder address with an arbitrary token. *)
Lemma authenticateUser_rule_witness :
  (authenticateUser sample_ledger "alice" "view_v11_key" = true
   <-> Str.substring_of "_v11_" "view_v11_key")
  /\ authenticateUser sample_ledger sample_founder "anything" = true.
Proof.
  split.
  - destruct (authenticateUser_rule sample_ledger "alice" "view_v11_key")
      as (_ & _ & H & _). apply H; vm_compute; congruence.
  - destruct (authenticateUser_rule sample_ledger sample_founder "anything")
      as (_ & _ & _ & H). apply H; vm_compute; congruence.
Defined.

(** C4: for every ledger state, a hidden address yields no value unless
    the token authenticates and its stored hidden balance when it does; a
    public address yields no value without an authenticating token, and
    the value zero when it is authenticated but absent from the public
    store. *)
Theorem getBalance_cases (bc : Blockchain) (account token : string) :
  (isHiddenAddress bc account = true ->
   authenticateUser bc account token = false ->
   getBalance bc account token = None)
  /\ (forall v, hiddenBalances bc !! account = Some v ->
      authenticateUser bc account token = true ->
      getBalance bc account token = Some v)
  /\ (isHiddenAddress bc account = false ->
      authenticateUser bc account token = false ->
      getBalance bc account token = None)
  /\ (isHiddenAddress bc account = false ->
      authenticateUser bc account token = true ->
      balances bc !! account = None ->
      getBalance bc account token = Some 0%float).
Proof.
  unfold getBalance. repeat split.
  - by intros -> ->.
  - intros v Hv Hauth.
    assert (isHiddenAddress bc account = true) as ->.
    { unfold isHiddenAddress. apply bool_decide_eq_true. by rewrite Hv. }
    by rewrite Hauth.
  - by intros -> ->.
  - by intros -> -> ->.
Qed.

(** The four cases at the sample ledger. *)
Lemma getBalance_cases_witness :
  getBalance sample_ledger sample_founder "" = None
  /\ getBalance sample_ledger sample_founder "viewkey"
     = Some 2000000.0%float
  /\ getBalance sample_ledger "bob" "" = None
  /\ getBalance sample_ledger "bob" "view_v11_key" = Some 0%float.
Proof.
  split; [|split; [|split]].
  - destruct (getBalance_cases sample_ledger sample_founder "")
      as (H & _). apply H; reflexivity.
  - destruct (getBalance_cases sample_ledger sample_founder "viewkey")
      as (_ & H & _). apply H; reflexivity.
  - destruct (getBalance_cases sample_ledger "bob" "")
      as (_ & _ & H & _). apply H; reflexivity.
  - destruct (getBalance_cases sample_ledger "bob" "view_v11_key")
      as (_ & _ & _ & H). apply H; reflexivity.
Defined.

End LedgerFacts.

(** ** Supply cap, reward schedule and difficulty *)

Module MiningFacts.
Import Mining.

(** The cap in satoshi units: 3,000,000 coins of 10^8 units each. *)
Lemma maxSatoshis_value : maxSatoshis = 300000000000000.
Proof. reflexivity. Qed.

(** The member functions that write a [MiningManager]. *)
Inductive call : Type :=
| AddMinedCoins (amount : float)
| AdjustDifficulty (actualBlockTime targetBlockTime : float).

Definition perform (mm : MiningManager) (c : call) : MiningManager :=
  match c with
  | AddMinedCoins amount => addMinedCoins mm amount
  | AdjustDifficulty a t => adjustDifficulty mm a t
  end.

(** The manager after a sequence of calls on a fresh one.  The calls
    hold [miningMutex_], so concurrent callers produce one of these
    sequences. *)
Definition run (calls : list call) : MiningManager :=
  fold_left perform calls MiningManager_new.

(** The state invariant of a [MiningManager]. *)
Definition mining_inv (mm : MiningManager) : Prop :=
  totalMinedCoins_ mm <= maxSatoshis
  /\ MIN_DIFFICULTY <= currentDifficulty_ mm <= MAX_DIFFICULTY.

Lemma wrap32_small z : - 2 ^ 31 <= z < 2 ^ 31 -> Dbl.wrap32 z = z.
Proof. intros H. unfold Dbl.wrap32. rewrite Z.mod_small; lia. Qed.

Lemma wrap64_small z : - 2 ^ 63 <= z < 2 ^ 63 -> Dbl.wrap64 z = z.
Proof. intros H. unfold Dbl.wrap64. rewrite Z.mod_small; lia. Qed.

Lemma adjustDifficulty_range mm a t :
  1 <= currentDifficulty_ mm <= 512 ->
  1 <= currentDifficulty_ (adjustDifficulty mm a t) <= 512.
Proof.
  intros H. unfold adjustDifficulty, MAX_DIFFICULTY, MIN_DIFFICULTY.
  destruct (t <=? 0)%float; [done|]. simpl.
  rewrite !wrap32_small by lia.
  repeat destruct (_ <? _)%float; lia.
Qed.

Lemma addMinedCoins_le mm amount :
  totalMinedCoins_ (addMinedCoins mm amount) <= maxSatoshis.
Proof.
  unfold addMinedCoins.
  destruct (_ >? maxSatoshis) eqn:E; simpl; [lia|].
  rewrite Z.gtb_ltb in E. by apply Z.ltb_ge in E.
Qed.

Lemma perform_inv mm c : mining_inv mm -> mining_inv (perform mm c).
Proof.
  intros [Ht Hd]. destruct c as [amount|a t]; simpl.
  - split; [apply addMinedCoins_le|].
    unfold addMinedCoins. by destruct (_ >? _).
  - split; [|by apply adjustDifficulty_range].
    unfold adjustDifficulty. by destruct (t <=? 0)%float.
Qed.

Lemma run_inv calls : mining_inv (run calls).
Proof.
  unfold run.
  assert (mining_inv MiningManager_new) as H0.
  { split; [by rewrite maxSatoshis_value|done]. }
  revert H0. generalize MiningManager_new.
  induction calls as [|c calls IH]; intros mm H; simpl; [done|].
  by apply IH, perform_inv.
Qed.








(** *** Difficulty adjustment *)

Definition clamp (lo hi z : Z) : Z := Z.max lo (Z.min hi z).

(** The stepped rule as the specification words it, clamped to
    [[1, 512]]. *)
Definition difficulty_spec (d : Z) (ratio : float) : Z :=
  clamp MIN_DIFFICULTY MAX_DIFFICULTY
    (if (ratio <? 0.5)%float then d + 2
     else if (ratio <? 0.8)%float then d + 1
     else if (2.0 <? ratio)%float then d - 2
     else if (1.5 <? ratio)%float then d - 1
     else d).

(** Both versions of [MiningManager::adjustDifficulty] follow the rule
    with the thresholds 0.5, 0.8, 2.0 and 1.5; the header returns early
    when the target time is not positive. *)
Lemma MiningManager_adjustDifficulty_spec mm a t :
  mining_inv mm ->
  (t <=? 0)%float = false ->
  getDifficulty (adjustDifficulty mm a t)
  = difficulty_spec (getDifficulty mm) (a / t)
  /\ getDifficulty (adjustDifficulty_cpp mm a t)
     = difficulty_spec (getDifficulty mm) (a / t).
Proof.
  intros [_ Hd] Ht.
  unfold adjustDifficulty, adjustDifficulty_cpp, difficulty_spec, clamp,
    getDifficulty, MAX_DIFFICULTY, MIN_DIFFICULTY in *.
  rewrite Ht. simpl. rewrite !wrap32_small by lia.
  repeat destruct (_ <? _)%float; lia.
Qed.

Lemma adjustDifficulty_guard mm a t :
  (t <=? 0)%float = true -> adjustDifficulty mm a t = mm.
Proof. unfold adjustDifficulty. by intros ->. Qed.

(** C8: the free function [adjustDifficulty] of
    [quantumpulse_blockchain_v7.cpp] tests the ratio against 0.75 where
    the rule, and both [MiningManager] versions, have 0.8: at difficulty
    4 and ratio 0.77 it leaves the difficulty at 4, where the rule and
    [MiningManager::adjustDifficulty] give 5. *)
Theorem adjustDifficulty_threshold_075 :
  (0.77 / 1 <? 0.8)%float = true
  /\ Ledger.adjustDifficulty 4 0.77 1 = 4
  /\ difficulty_spec 4 (0.77 / 1) = 5
  /\ getDifficulty (adjustDifficulty (mkMiningManager 0 4) 0.77 1) = 5
  /\ getDifficulty (adjustDifficulty_cpp (mkMiningManager 0 4) 0.77 1) = 5.
Proof. repeat split. Qed.

(** *** Reward schedule *)

(** [2^k] as a [double]: exact, and [+inf] past the exponent range. *)
Definition pow2 (k : Z) : float := Z.ldexp 1 k.

(** The schedule as the specification words it:
    [max(initialReward / 2^(h div halvingInterval), minReward)]. *)
Definition reward_spec (h : Z) : float :=
  Dbl.std_max (50 / pow2 (h / 210000))%float 0.0005%float.

(** What is asked of the C library: [pow(2.0, k)] is the exact power of
    two for the integral exponent [k]. *)
Definition pow2_exact (std_pow : float -> float -> float) (k : Z) : Prop :=
  std_pow 2%float (Dbl.of_Z k) = pow2 k.

(** A reference [pow] for a non-negative integral exponent, by repeated
    multiplication. *)
Definition pow_ref (b e : float) : float :=
  match Dbl.trunc e with
  | Some n => Nat.iter (Z.to_nat n) (fun acc => (acc * b)%float) 1%float
  | None => nan
  end.

(** The schedule in closed form: sixteen exact halvings of 50, then the
    floor. *)
Definition reward_closed (k : Z) : float :=
  if k <=? 16 then Z.ldexp 50 (- k) else 0.0005%float.

Definition reward_closed_ok (k : Z) : bool :=
  Leibniz.eqb (Dbl.std_max (50 / pow2 k)%float 0.0005%float)
              (reward_closed k).

Lemma reward_closed_table :
  forallb reward_closed_ok (map Z.of_nat (seq 0 2099)) = true.
Proof. vm_compute. reflexivity. Qed.

Lemma pow2_saturates k : 2098 <= k -> pow2 k = pow2 2098.
Proof.
  intros H. unfold pow2, Z.ldexp.
  change (emax - (SpecFloat.emin prec emax)) with 2098.
  by replace (Z.min k 2098) with (Z.min 2098 2098) by lia.
Qed.

Lemma reward_spec_closed h :
  0 <= h -> reward_spec h = reward_closed (h / 210000).
Proof.
  intros Hh. unfold reward_spec.
  assert (0 <= h / 210000) as Hk by (apply Z.div_pos; lia).
  generalize dependent (h / 210000). clear h Hh. intros k Hk.
  assert (forall k, 0 <= k <= 2098 ->
            Dbl.std_max (50 / pow2 k)%float 0.0005%float = reward_closed k)
    as Htab.
  { intros j Hj. apply Leibniz.eqb_spec.
    pose proof reward_closed_table as Hall.
    rewrite forallb_forall in Hall. apply Hall.
    apply in_map_iff. exists (Z.to_nat j). split; [lia|].
    apply in_seq. lia. }
  destruct (Z_le_gt_dec k 2098) as [Hle|Hgt]; [by apply Htab|].
  rewrite pow2_saturates by lia. rewrite Htab by lia.
  unfold reward_closed.
  destruct (k <=? 16) eqn:E; [apply Z.leb_le in E; lia|done].
Qed.

(** C3: for every block height the reward is
    [max(50 / 2^(h div 210000), 0.0005)], in [MiningManager] and in the
    ledger alike, given a [pow] that is exact on powers of two; that is 50
    halved once per interval for sixteen intervals and 0.0005 from then
    on; in particular the reward is 50 at height 0, 25 at height 210000
    and 12.5 at height 420000. *)
Theorem calculateBlockReward_halving (std_pow : float -> float -> float) :
  (forall h, 0 <= h < 2 ^ 64 -> pow2_exact std_pow (h / 210000) ->
     calculateBlockReward std_pow h = reward_spec h
     /\ Ledger.calculateBlockReward std_pow h = reward_spec h
     /\ reward_spec h = reward_closed (h / 210000))
  /\ (pow2_exact std_pow 0 ->
      calculateBlockReward std_pow 0 = 50%float
      /\ Ledger.calculateBlockReward std_pow 0 = 50%float)
  /\ (pow2_exact std_pow 1 ->
      calculateBlockReward std_pow 210000 = 25%float
      /\ Ledger.calculateBlockReward std_pow 210000 = 25%float)
  /\ (pow2_exact std_pow 2 ->
      calculateBlockReward std_pow 420000 = 12.5%float
      /\ Ledger.calculateBlockReward std_pow 420000 = 12.5%float).
Proof.
  assert (forall h, pow2_exact std_pow (h / 210000) ->
            calculateBlockReward std_pow h = reward_spec h
            /\ Ledger.calculateBlockReward std_pow h = reward_spec h) as Hgen.
  { intros h Hp. unfold pow2_exact in Hp.
    unfold calculateBlockReward, Ledger.calculateBlockReward, reward_spec,
      HALVING_INTERVAL, INITIAL_REWARD, MIN_REWARD.
    by rewrite Hp. }
  split; [|split; [|split]].
  - intros h Hh Hp. destruct (Hgen h Hp) as [-> ->].
    split; [done|]. split; [done|]. apply reward_spec_closed. lia.
  - intros Hp. by destruct (Hgen 0 Hp) as [-> ->].
  - intros Hp. by destruct (Hgen 210000 Hp) as [-> ->].
  - intros Hp. by destruct (Hgen 420000 Hp) as [-> ->].
Qed.

(** The schedule with the reference [pow]: heights 0, 210000, 420000 and
    one past the seventeenth halving. *)
Lemma calculateBlockReward_halving_witness :
  calculateBlockReward pow_ref 0 = 50%float
  /\ calculateBlockReward pow_ref 210000 = 25%float
  /\ Ledger.calculateBlockReward pow_ref 420000 = 12.5%float
  /\ calculateBlockReward pow_ref 3570001 = 0.0005%float.
Proof.
  destruct (calculateBlockReward_halving pow_ref) as (Hg & H0 & H1 & H2).
  split; [|split; [|split]].
  - apply H0. reflexivity.
  - apply H1. reflexivity.
  - apply H2. reflexivity.
  - destruct (Hg 3570001) as (-> & _ & ->); [lia|reflexivity|reflexivity].
Defined.

End MiningFacts.

(** ** The price floor *)

Module PriceFacts.
Import Ledger Dbl DblFacts.

(** A reference sine near zero, for running the model: the Taylor
    polynomial of degree five. *)
Definition sin_ref (x : float) : float :=
  (x - x * x * x / 6 + x * x * x * x * x / 120)%float.

Lemma finite_sf x : is_finite x = true -> sf_finite (Prim2SF x).
Proof.
  unfold is_finite, is_nan, is_infinity.
  rewrite !FloatAxioms.eqb_spec, abs_spec.
  change (Prim2SF infinity) with (S754_infinity false).
  destruct (Prim2SF x) as [sg|sg| |sg m e]; try done.
  destruct sg; cbn; by rewrite ?orb_true_r.
Qed.

Lemma sf_finite_not_nan x : sf_finite x -> sf_not_nan x.
Proof. by destruct x. Qed.

Lemma sf_finite_not_inf x : sf_finite x -> sf_is_inf x = false.
Proof. by destruct x. Qed.

Lemma sf_mag_finite B x : sf_mag B x -> sf_finite x.
Proof. by destruct x. Qed.

(** The oracle factor, after its clamp from below, is a finite non-zero
    datum when the sine lies in [[-1, 1]]. *)
Lemma oracle_factor_finite (s : float) :
  (abs s <=? 1)%float = true ->
  let o := (1.0 + s * 0.001)%float in
  let o' := if (o <? 1.0)%float then 1.0%float else o in
  exists sg m e, Prim2SF o' = S754_finite sg m e.
Proof.
  intros Hs o o'.
  assert (sf_mag 3 (Prim2SF o)) as Ho.
  { subst o. rewrite add_spec, mul_spec.
    apply (SFadd_mag _ _ 1 (-7)); [by vm_compute| |lia].
    apply (SFmul_mag _ _ 1 (-9)); [by apply abs_le_one_mag|by vm_compute|lia]. }
  subst o'. destruct (o <? 1.0)%float eqn:Hlt.
  - by exists false, 4503599627370496%positive, (-52).
  - rewrite ltb_spec in Hlt.
    destruct (Prim2SF o) as [sg|sg| |sg m e]; try done.
    by exists sg, m, e.
Qed.

Section Libm.

Variable std_pow : float -> float -> float.
Variable std_sin : float -> float.

Lemma saturatedPrice_not_nan (p : float) (h : Z) :
  is_finite p = true ->
  is_finite (std_pow 1.0005 (of_Z (h mod 1000000))) = true ->
  (abs (std_sin (of_Z h * 0.01)) <=? 1)%float = true ->
  not_nan (saturatedPrice std_pow std_sin p h).
Proof.
  intros Hp Hpow Hsin. unfold saturatedPrice.
  destruct (oracle_factor_finite _ Hsin) as (sg & m & e & Ho).
  cbv zeta in Ho.
  destruct (isinf _ || _)%bool; [by vm_compute|].
  unfold not_nan. rewrite mul_spec, Ho.
  apply SFmul_not_nan; [|done|by rewrite andb_false_r..].
  rewrite mul_spec.
  apply finite_sf in Hp, Hpow.
  apply SFmul_not_nan; auto using sf_finite_not_nan.
  - by rewrite sf_finite_not_inf.
  - by rewrite (sf_finite_not_inf _ Hpow), andb_false_r.
Qed.

(** C1: for every finite price (negative ones included), block height
    and shard, [adjustCoinPrice] ends with the floor clamp
    [std::max(newPrice, 600000.0)] and returns a value that is at least
    600000, on the overflow-saturation path as on the other; the C
    library is asked for a finite [pow(1.0005, h % 1000000)] and a sine in
    [[-1, 1]]. *)
Theorem adjustCoinPrice_floor (p : float) (h shard : Z) :
  is_finite p = true ->
  is_finite (std_pow 1.0005 (of_Z (h mod 1000000))) = true ->
  (abs (std_sin (of_Z h * 0.01)) <=? 1)%float = true ->
  adjustCoinPrice std_pow std_sin p h shard
  = std_max (saturatedPrice std_pow std_sin p h) 600000
  /\ (600000 <=? adjustCoinPrice std_pow std_sin p h shard)%float = true
  /\ (adjustCoinPrice std_pow std_sin p h shard <? 600000)%float = false.
Proof.
  intros Hp Hpow Hsin.
  pose proof (saturatedPrice_not_nan p h Hp Hpow Hsin) as Hnn.
  split; [done|].
  assert ((600000 <=? adjustCoinPrice std_pow std_sin p h shard)%float = true)
    as Hle by (apply std_max_ge; [done|by vm_compute]).
  split; [done|].
  revert Hle. rewrite leb_spec, ltb_spec. unfold SFleb, SFltb.
  destruct (SFcompare _ (Prim2SF (adjustCoinPrice _ _ _ _ _))) as [c|] eqn:Hc;
    [|done].
  rewrite (SFcompare_antisym _ _ _ Hc). by destruct c.
Qed.

End Libm.

(** The floor with the reference [pow] and sine: the prices of the test
    suite, and a price near the top of the range, which saturates. *)
Lemma adjustCoinPrice_floor_witness :
  (600000 <=? adjustCoinPrice MiningFacts.pow_ref sin_ref 599999 0 0)%float
  = true
  /\ (600000
      <=? adjustCoinPrice MiningFacts.pow_ref sin_ref 1000000 100 0)%float
     = true
  /\ adjustCoinPrice MiningFacts.pow_ref sin_ref DBL_MAX 100 0
     = (DBL_MAX / 2)%float.
Proof.
  split; [|split].
  - apply (adjustCoinPrice_floor MiningFacts.pow_ref sin_ref 599999 0 0);
      by vm_compute.
  - apply (adjustCoinPrice_floor MiningFacts.pow_ref sin_ref 1000000 100 0);
      by vm_compute.
  - destruct (adjustCoinPrice_floor MiningFacts.pow_ref sin_ref DBL_MAX 100 0)
      as (-> & _); by vm_compute.
Defined.

End PriceFacts.

(** ** Properties of the UTXO set *)

Module UTXOFacts.
Import UTXO.

(** C10: a freshly constructed [UTXOSet] holds exactly one output, the
    coinbase output "genesis_coinbase_0...0":0 of 2,000,000.0 owned by
    "Shankar-Lal-Khati"; [getUTXOCount()] is 1 and the balance of that
    address is 2,000,000.0 before any [addUTXO] call. *)
Theorem fresh_set_has_genesis_utxo :
  utxos_ UTXOSet_new_double
  = {[ "genesis_coinbase_000000000000000000000000000000000000:0"%string
       := genesis 2000000.0%float ]}
  /\ txid (genesis 2000000.0%float)
     = "genesis_coinbase_000000000000000000000000000000000000"%string
  /\ vout (genesis 2000000.0%float) = 0
  /\ amount (genesis 2000000.0%float) = 2000000.0%float
  /\ address (genesis 2000000.0%float) = "Shankar-Lal-Khati"%string
  /\ coinbase (genesis 2000000.0%float) = true
  /\ getUTXOCount UTXOSet_new_double = 1%nat
  /\ getAddressUTXOs UTXOSet_new_double "Shankar-Lal-Khati"
     = [genesis 2000000.0%float]
  /\ getBalance_double UTXOSet_new_double "Shankar-Lal-Khati"
     = 2000000.0%float.
Proof.
  split; [reflexivity|]. repeat split.
Qed.

(** *** The order of the keys *)

Lemma ascii_compare_refl (a : ascii) : Ascii.compare a a = Eq.
Proof. unfold Ascii.compare. apply N.compare_refl. Qed.

Lemma ascii_compare_lt_trans (a b c : ascii) :
  Ascii.compare a b = Lt -> Ascii.compare b c = Lt -> Ascii.compare a c = Lt.
Proof. unfold Ascii.compare. rewrite !N.compare_lt_iff. lia. Qed.

Lemma string_compare_lt_trans (x y z : string) :
  String.compare x y = Lt -> String.compare y z = Lt ->
  String.compare x z = Lt.
Proof.
  revert y z. induction x as [|a x IH]; intros [|b y] [|c z]; simpl;
    try done.
  destruct (Ascii.compare a b) eqn:Eab; [| |done].
  - apply Ascii.compare_eq_iff in Eab as ->.
    destruct (Ascii.compare b c) eqn:Ebc; [|done|done]. apply IH.
  - destruct (Ascii.compare b c) eqn:Ebc; [| |done].
    + apply Ascii.compare_eq_iff in Ebc as <-. by rewrite Eab.
    + intros _ _. by rewrite (ascii_compare_lt_trans a b c).
Qed.

Global Instance key_le_total : Total key_le.
Proof. intros x y. apply String.leb_total. Qed.

Global Instance key_le_antisym : AntiSymm eq key_le.
Proof. intros x y. apply String.leb_antisym. Qed.

Global Instance key_le_trans : Transitive key_le.
Proof.
  intros x y z. unfold key_le, String.leb.
  destruct (String.compare x y) eqn:Exy; [| |done].
  - apply String.compare_eq_iff in Exy as ->. done.
  - destruct (String.compare y z) eqn:Eyz; [| |done].
    + apply String.compare_eq_iff in Eyz as <-. by rewrite Exy.
    + intros _ _. by rewrite (string_compare_lt_trans x y z).
Qed.

(** [x] comes strictly before [y]. *)
Definition key_lt (x y : string) : Prop := key_le x y /\ x <> y.

(** The keys of a set in increasing order, as an iteration over the
    [std::set] visits them. *)
Definition sorted_keys (X : gset string) : list string :=
  merge_sort key_le (elements X).

Lemma sorted_keys_sorted X : StronglySorted key_le (sorted_keys X).
Proof. apply StronglySorted_merge_sort; apply _. Qed.

Lemma sorted_keys_perm X : sorted_keys X ≡ₚ elements X.
Proof. apply merge_sort_Permutation. Qed.

Lemma elem_of_sorted_keys X k : k ∈ sorted_keys X <-> k ∈ X.
Proof. by rewrite sorted_keys_perm, elem_of_elements. Qed.

Lemma filter_none {B} (P : B -> Prop) `{!forall x, Decision (P x)} l :
  Forall (fun x => ~ P x) l -> filter P l = [].
Proof.
  induction 1 as [|x l Hx _ IH]; [done|].
  by rewrite filter_cons, decide_False.
Qed.

Lemma filter_every {B} (P : B -> Prop) `{!forall x, Decision (P x)} l :
  Forall P l -> filter P l = l.
Proof.
  induction 1 as [|x l Hx _ IH]; [done|].
  by rewrite filter_cons, decide_True, IH.
Qed.

(** A sorted list splits, at any key, into the keys not after it and the
    keys after it. *)
Lemma sorted_split (k : string) (l : list string) :
  StronglySorted key_le l ->
  l = filter (fun x => key_le x k) l ++ filter (fun x => ~ key_le x k) l.
Proof.
  induction 1 as [|x l Hl IH Hx]; [done|].
  rewrite !filter_cons. destruct (decide (key_le x k)) as [Hxk|Hxk].
  - rewrite decide_False by tauto. simpl. by rewrite <- IH.
  - rewrite decide_True by done.
    assert (filter (fun y => key_le y k) l = []) as ->.
    { apply filter_none. eapply Forall_impl; [exact Hx|].
      simpl. intros y Hxy Hyk. apply Hxk. by etrans. }
    simpl. f_equal. symmetry. apply filter_every.
    eapply Forall_impl; [exact Hx|]. simpl. intros y Hxy Hyk.
    apply Hxk. by etrans.
Qed.

(** The keys of [X] other than [k] are, in order, the keys [l1] before
    [k] and then the keys [l2] after it; with [k] the order is [l1], [k],
    [l2]. *)
Lemma sorted_keys_insert (X : gset string) (k : string) :
  exists l1 l2,
    sorted_keys (X ∖ {[k]}) = l1 ++ l2
    /\ sorted_keys ({[k]} ∪ X) = l1 ++ k :: l2
    /\ Forall (fun x => key_lt x k) l1
    /\ Forall (fun x => key_lt k x) l2.
Proof.
  set (L := sorted_keys (X ∖ {[k]})).
  pose proof (sorted_keys_sorted (X ∖ {[k]})) as HL. fold L in HL.
  assert (forall x, x ∈ L -> x <> k) as Hk.
  { intros x Hx. apply elem_of_sorted_keys in Hx. set_solver. }
  exists (filter (fun x => key_le x k) L), (filter (fun x => ~ key_le x k) L).
  assert (Forall (fun x => key_lt x k) (filter (fun x => key_le x k) L))
    as H1.
  { apply Forall_forall. intros x Hx. apply list_elem_of_filter in Hx as [? ?].
    split; [done|by apply Hk]. }
  assert (Forall (fun x => key_lt k x) (filter (fun x => ~ key_le x k) L))
    as H2.
  { apply Forall_forall. intros x Hx. apply list_elem_of_filter in Hx as [Hn ?].
    split; [|intros ->; by apply (Hk x)].
    destruct (total key_le x k); [done|done]. }
  split; [by apply sorted_split|]. split; [|done].
  apply (StronglySorted_unique key_le).
  - apply sorted_keys_sorted.
  - rewrite (sorted_split k L HL) in HL.
    apply StronglySorted_app in HL as (_ & HL1 & HL2).
    apply StronglySorted_app_2; [|done|].
    + intros x y Hx Hy. rewrite Forall_forall in H1, H2.
      apply elem_of_cons in Hy as [->|Hy]; [by apply H1|].
      etrans; [apply (H1 x Hx)|apply (H2 y Hy)].
    + constructor; [done|]. eapply Forall_impl; [exact H2|]. by intros x [? _].
  - rewrite sorted_keys_perm.
    replace ({[k]} ∪ X) with ({[k]} ∪ X ∖ {[k]}).
    2:{ apply set_eq. intros x. destruct (decide (x = k)); set_solver. }
    rewrite elements_union_singleton by set_solver.
    rewrite <- Permutation_middle. constructor.
    rewrite <- (sorted_split k L HL). symmetry. apply sorted_keys_perm.
Qed.
(** *** Adding and spending *)

Section RoundTrip.

Context {A : Type}.
Variable zero : A.
Variable add : A -> A -> A.
Variable premine : A.

Local Abbreviation UTXOutput := (@UTXOutput A).
Local Abbreviation UTXOSet := (@UTXOSet A).

(** The states a [UTXOSet] goes through: the constructed set, then any
    calls of [addUTXO] and [spendUTXO]. *)
Inductive reachable : UTXOSet -> Prop :=
| reach_new : reachable (UTXOSet_new premine)
| reach_add s u : reachable s -> reachable (addUTXO s u)
| reach_spend s t v : reachable s -> reachable (fst (spendUTXO s t v)).

(** Every stored output sits under its own key, and that key is in the
    side index of the output's address. *)
Definition indexed (s : UTXOSet) : Prop :=
  forall k u, utxos_ s !! k = Some u ->
              k = utxo_key u /\ k ∈ keys_of s (address u).

Lemma keys_of_insert (s : UTXOSet) m a b X :
  addressUtxos_ s = m ->
  keys_of (mkUTXOSet (utxos_ s) (<[a := X]> m)) b
  = if decide (a = b) then X else keys_of s b.
Proof.
  intros <-. unfold keys_of. simpl. rewrite lookup_insert.
  by destruct (decide (a = b)).
Qed.

Lemma keys_of_addUTXO (s : UTXOSet) u b :
  keys_of (addUTXO s u) b
  = if decide (address u = b) then {[utxo_key u]} ∪ keys_of s b
    else keys_of s b.
Proof.
  unfold keys_of, addUTXO. simpl. rewrite lookup_insert.
  destruct (decide (address u = b)) as [->|]; done.
Qed.

Lemma indexed_new : indexed (UTXOSet_new premine).
Proof.
  intros k u. unfold UTXOSet_new. rewrite keys_of_addUTXO. simpl.
  rewrite lookup_insert.
  destruct (decide (utxo_key (genesis premine) = k)) as [<-|];
    [|by rewrite lookup_empty].
  intros [= <-]. split; [done|]. rewrite decide_True by done. set_solver.
Qed.

Lemma indexed_addUTXO s u : indexed s -> indexed (addUTXO s u).
Proof.
  intros Hs k u'. rewrite keys_of_addUTXO. simpl. rewrite lookup_insert.
  destruct (decide (utxo_key u = k)) as [<-|Hne].
  - intros [= <-]. split; [done|]. rewrite decide_True by done. set_solver.
  - intros Hk. destruct (Hs _ _ Hk) as [-> Hin]. split; [done|].
    destruct (decide _); set_solver.
Qed.

Lemma indexed_spendUTXO s t v : indexed s -> indexed (fst (spendUTXO s t v)).
Proof.
  intros Hs. unfold spendUTXO.
  destruct (utxos_ s !! make_key t v) as [u0|] eqn:E; [|done].
  intros k u'. simpl. rewrite lookup_delete.
  destruct (decide (make_key t v = k)) as [<-|Hne]; [done|].
  intros Hk. destruct (Hs _ _ Hk) as [-> Hin]. split; [done|].
  unfold keys_of in *. simpl. rewrite lookup_insert.
  destruct (decide (address u0 = address u')) as [Ha|Ha]; simpl.
  - rewrite Ha. set_solver.
  - done.
Qed.

Lemma reachable_indexed s : reachable s -> indexed s.
Proof.
  induction 1; auto using indexed_new, indexed_addUTXO, indexed_spendUTXO.
Qed.

Lemma spendUTXO_missing (s : UTXOSet) t v :
  utxos_ s !! make_key t v = None -> spendUTXO s t v = (s, false).
Proof. intros H. unfold spendUTXO. by rewrite H. Qed.

Lemma spendUTXO_stored (s : UTXOSet) t v u0 :
  utxos_ s !! make_key t v = Some u0 ->
  spendUTXO s t v
  = (mkUTXOSet (delete (make_key t v) (utxos_ s))
       (<[address u0 := keys_of s (address u0) ∖ {[make_key t v]}]>
          (addressUtxos_ s)),
     true).
Proof. intros H. unfold spendUTXO. by rewrite H. Qed.

(** [getAddressUTXOs] lists, in some order, the stored outputs whose key
    is in the side index of the address. *)
Lemma getAddressUTXOs_perm (s : UTXOSet) a :
  getAddressUTXOs s a
  ≡ₚ omap (fun key => utxos_ s !! key) (elements (keys_of s a)).
Proof.
  unfold getAddressUTXOs, keys_of.
  destruct (addressUtxos_ s !! a) as [X|]; simpl.
  - by rewrite merge_sort_Permutation.
  - by rewrite elements_empty.
Qed.

Lemma omap_lookup_agree (m m' : gmap string UTXOutput) (l : list string) :
  (forall k, k ∈ l -> m !! k = m' !! k) ->
  omap (fun key => m !! key) l = omap (fun key => m' !! key) l.
Proof.
  induction l as [|k l IH]; intros H; csimpl; [done|].
  rewrite (H k) by set_solver. rewrite IH; [done|].
  intros k' Hk'. apply H. set_solver.
Qed.

(** The outputs listed for the keys [X], when [key] is set aside. *)
Lemma omap_elements_split (m : gmap string UTXOutput) (X : gset string) key :
  omap (fun k => m !! k) (elements X)
  ≡ₚ (if decide (key ∈ X) then option_list (m !! key) else [])
     ++ omap (fun k => m !! k) (elements (X ∖ {[key]})).
Proof.
  destruct (decide (key ∈ X)) as [Hin|Hnin].
  - assert (X = {[key]} ∪ (X ∖ {[key]})) as HX.
    { apply set_eq. intros x. destruct (decide (x = key)); set_solver. }
    rewrite HX at 1. rewrite elements_union_singleton by set_solver.
    simpl. by destruct (m !! key).
  - simpl. by replace (X ∖ {[key]}) with X by set_solver.
Qed.

(** After [addUTXO(u)] of a key that is not stored, the address of [u]
    lists [u] and the outputs it listed before. *)
Lemma getAddressUTXOs_addUTXO (s : UTXOSet) u :
  utxos_ s !! utxo_key u = None ->
  getAddressUTXOs (addUTXO s u) (address u)
  ≡ₚ u :: getAddressUTXOs s (address u).
Proof.
  intros Hfresh. rewrite !getAddressUTXOs_perm.
  rewrite keys_of_addUTXO, decide_True by done.
  rewrite (omap_elements_split _ _ (utxo_key u)).
  rewrite (omap_elements_split (utxos_ s) _ (utxo_key u)).
  rewrite Hfresh. simpl. rewrite lookup_insert_eq.
  rewrite decide_True by set_solver. simpl.
  destruct (decide (utxo_key u ∈ keys_of s (address u))); simpl;
    (constructor;
     replace (({[utxo_key u]} ∪ keys_of s (address u)) ∖ {[utxo_key u]})
       with (keys_of s (address u) ∖ {[utxo_key u]}) by set_solver;
     erewrite omap_lookup_agree; [done|];
     intros k Hk; apply lookup_insert_ne; set_solver).
Qed.

(** After a successful [spendUTXO] of the stored output [u], its address
    lists the outputs it listed before, less [u]. *)
Lemma getAddressUTXOs_spendUTXO (s : UTXOSet) u :
  indexed s ->
  utxos_ s !! utxo_key u = Some u ->
  getAddressUTXOs s (address u)
  ≡ₚ u :: getAddressUTXOs (fst (spendUTXO s (txid u) (vout u))) (address u).
Proof.
  intros Hs Hu. destruct (Hs _ _ Hu) as [_ Hin].
  unfold spendUTXO. fold (utxo_key u). rewrite Hu. simpl.
  rewrite !getAddressUTXOs_perm.
  rewrite (omap_elements_split (utxos_ s) _ (utxo_key u)).
  rewrite decide_True, Hu by done. simpl. constructor.
  unfold keys_of at 2. simpl. rewrite lookup_insert_eq. simpl.
  erewrite omap_lookup_agree; [done|].
  intros k Hk. symmetry. apply lookup_delete_ne. set_solver.
Qed.

Lemma not_elem_of_spendUTXO (s : UTXOSet) u :
  indexed s ->
  utxos_ s !! utxo_key u = Some u ->
  u ∉ getAddressUTXOs (fst (spendUTXO s (txid u) (vout u))) (address u).
Proof.
  intros Hs Hu Hin.
  rewrite getAddressUTXOs_perm in Hin.
  apply list_elem_of_omap in Hin as (k & _ & Hk).
  unfold spendUTXO in Hk. fold (utxo_key u) in Hk. rewrite Hu in Hk.
  simpl in Hk. rewrite lookup_delete in Hk.
  destruct (decide (utxo_key u = k)) as [|Hne]; [done|].
  by destruct (Hs _ _ Hk) as [-> _].
Qed.

(** [getAddressUTXOs] lists the stored outputs under the keys of the
    address's side index, in the order of the keys. *)
Lemma getAddressUTXOs_sorted (s : UTXOSet) a :
  getAddressUTXOs s a
  = omap (fun key => utxos_ s !! key) (sorted_keys (keys_of s a)).
Proof.
  unfold getAddressUTXOs, keys_of, sorted_keys.
  destruct (addressUtxos_ s !! a) as [X|]; simpl; [done|].
  by rewrite elements_empty.
Qed.

(** A key of the side index under which nothing is stored does not show
    in the listing. *)
Lemma omap_sorted_skip (m : gmap string UTXOutput) (X : gset string) k :
  m !! k = None ->
  omap (fun key => m !! key) (sorted_keys X)
  = omap (fun key => m !! key) (sorted_keys (X ∖ {[k]})).
Proof.
  intros Hk. destruct (decide (k ∈ X)) as [Hin|Hnin].
  - destruct (sorted_keys_insert X k) as (l1 & l2 & -> & H & _).
    replace ({[k]} ∪ X) with X in H by set_solver.
    rewrite H, !omap_app. csimpl. by rewrite Hk.
  - by replace (X ∖ {[k]}) with X by set_solver.
Qed.

Lemma omap_lookup_insert_ne (m : gmap string UTXOutput) k u
    (l : list string) :
  k ∉ l ->
  omap (fun key => <[k := u]> m !! key) l = omap (fun key => m !! key) l.
Proof.
  intros Hk. apply omap_lookup_agree. intros k' Hk'.
  apply lookup_insert_ne. by intros ->.
Qed.

Lemma omap_lookup_delete_ne (m : gmap string UTXOutput) k
    (l : list string) :
  k ∉ l ->
  omap (fun key => delete k m !! key) l = omap (fun key => m !! key) l.
Proof.
  intros Hk. apply omap_lookup_agree. intros k' Hk'.
  apply lookup_delete_ne. by intros ->.
Qed.

Lemma key_lt_not_elem_l k (l : list string) :
  Forall (fun x => key_lt x k) l -> k ∉ l.
Proof. rewrite Forall_forall. intros H Hk. by destruct (H k Hk). Qed.

Lemma key_lt_not_elem_r k (l : list string) :
  Forall (fun x => key_lt k x) l -> k ∉ l.
Proof. rewrite Forall_forall. intros H Hk. by destruct (H k Hk). Qed.

(** The outputs stored under keys before (after) [k] have keys before
    (after) [k]. *)
Lemma omap_keys (s : UTXOSet) (P : string -> Prop) (l : list string) :
  indexed s -> Forall P l ->
  Forall (fun o => P (utxo_key o)) (omap (fun key => utxos_ s !! key) l).
Proof.
  intros Hs Hl. apply Forall_forall. intros o Ho.
  apply list_elem_of_omap in Ho as (k & Hk & Hko).
  destruct (Hs _ _ Hko) as [<- _]. rewrite Forall_forall in Hl. by apply Hl.
Qed.

(** After [addUTXO(u)] of a key that is not stored, the address of [u]
    lists the outputs it listed before, with [u] at the place of its
    key. *)
Lemma getAddressUTXOs_insert (s : UTXOSet) u :
  indexed s ->
  utxos_ s !! utxo_key u = None ->
  exists l1 l2,
    getAddressUTXOs s (address u) = l1 ++ l2
    /\ getAddressUTXOs (addUTXO s u) (address u) = l1 ++ u :: l2
    /\ Forall (fun o => key_lt (utxo_key o) (utxo_key u)) l1
    /\ Forall (fun o => key_lt (utxo_key u) (utxo_key o)) l2.
Proof.
  intros Hs Hfresh.
  destruct (sorted_keys_insert (keys_of s (address u)) (utxo_key u))
    as (k1 & k2 & Hout & Hin & H1 & H2).
  exists (omap (fun key => utxos_ s !! key) k1),
         (omap (fun key => utxos_ s !! key) k2).
  split; [|split; [|split]].
  - rewrite getAddressUTXOs_sorted.
    rewrite (omap_sorted_skip _ _ (utxo_key u)) by done.
    by rewrite Hout, omap_app.
  - rewrite getAddressUTXOs_sorted, keys_of_addUTXO, decide_True by done.
    rewrite Hin, omap_app. unfold addUTXO. cbn [utxos_]. csimpl.
    rewrite lookup_insert_eq. cbn.
    rewrite !omap_lookup_insert_ne;
      [done|by apply key_lt_not_elem_r|by apply key_lt_not_elem_l].
  - by apply (omap_keys s (fun x => key_lt x (utxo_key u))).
  - by apply (omap_keys s (fun x => key_lt (utxo_key u) x)).
Qed.

(** After a successful [spendUTXO] of the stored output [u], its address
    lists the outputs it listed before, without [u]. *)
Lemma getAddressUTXOs_remove (s : UTXOSet) u :
  indexed s ->
  utxos_ s !! utxo_key u = Some u ->
  exists l1 l2,
    getAddressUTXOs s (address u) = l1 ++ u :: l2
    /\ getAddressUTXOs (fst (spendUTXO s (txid u) (vout u))) (address u)
       = l1 ++ l2
    /\ Forall (fun o => key_lt (utxo_key o) (utxo_key u)) l1
    /\ Forall (fun o => key_lt (utxo_key u) (utxo_key o)) l2.
Proof.
  intros Hs Hu. destruct (Hs _ _ Hu) as [_ Hk].
  destruct (sorted_keys_insert (keys_of s (address u)) (utxo_key u))
    as (k1 & k2 & Hout & Hin & H1 & H2).
  replace ({[utxo_key u]} ∪ keys_of s (address u))
    with (keys_of s (address u)) in Hin by set_solver.
  exists (omap (fun key => utxos_ s !! key) k1),
         (omap (fun key => utxos_ s !! key) k2).
  split; [|split; [|split]].
  - rewrite getAddressUTXOs_sorted, Hin, omap_app. csimpl. by rewrite Hu.
  - rewrite (spendUTXO_stored s _ _ u) by done. cbn [fst].
    rewrite getAddressUTXOs_sorted. fold (utxo_key u).
    match goal with
    | |- context [keys_of (mkUTXOSet ?m ?i) (address u)] =>
        assert (keys_of (mkUTXOSet m i) (address u)
                = keys_of s (address u) ∖ {[utxo_key u]}) as ->
    end.
    { unfold keys_of at 1. cbn [addressUtxos_].
      by rewrite lookup_insert_eq. }
    cbn [utxos_]. rewrite Hout, omap_app.
    rewrite !omap_lookup_delete_ne;
      [done|by apply key_lt_not_elem_r|by apply key_lt_not_elem_l].
  - by apply (omap_keys s (fun x => key_lt x (utxo_key u))).
  - by apply (omap_keys s (fun x => key_lt (utxo_key u) x)).
Qed.

(** [addUTXO(u)] of a key that is not stored, then
    [spendUTXO(u.txid, u.vout)]: every lookup and every listing is as
    before the two calls. *)
Lemma addUTXO_spendUTXO (s : UTXOSet) u :
  utxos_ s !! utxo_key u = None ->
  let s' := fst (spendUTXO (addUTXO s u) (txid u) (vout u)) in
  snd (spendUTXO (addUTXO s u) (txid u) (vout u)) = true
  /\ utxos_ s' = utxos_ s
  /\ forall a, getAddressUTXOs s' a = getAddressUTXOs s a.
Proof.
  intros Hfresh s'.
  assert (utxos_ (addUTXO s u) !! make_key (txid u) (vout u) = Some u)
    as Hu by apply lookup_insert_eq.
  subst s'. rewrite (spendUTXO_stored _ _ _ u) by done. cbn [fst snd].
  split; [done|].
  assert (delete (make_key (txid u) (vout u)) (utxos_ (addUTXO s u))
          = utxos_ s) as Hm by by apply delete_insert_id.
  split; [exact Hm|].
  intros a. rewrite !getAddressUTXOs_sorted. cbn [utxos_]. rewrite Hm.
  unfold keys_of at 1. cbn [addressUtxos_]. rewrite lookup_insert.
  destruct (decide (address u = a)) as [<-|Hne]; cbn [default]; unfold id.
  - rewrite keys_of_addUTXO, decide_True by done. fold (utxo_key u).
    rewrite (omap_sorted_skip (utxos_ s) (keys_of s (address u))
               (utxo_key u)) by done.
    do 2 f_equal. set_solver.
  - unfold addUTXO. cbn [addressUtxos_]. by rewrite lookup_insert_ne.
Qed.

(** A balance is the sum of the listed amounts, added one after the
    other from [zero] in the order of the listing. *)
Definition total (l : list UTXOutput) (z : A) : A :=
  fold_left (fun balance utxo => add balance (amount utxo)) l z.

Lemma total_app l1 l2 z : total (l1 ++ l2) z = total l2 (total l1 z).
Proof. apply fold_left_app. Qed.
(** C7 (amended): in every state of a [UTXOSet], for a UTXO [u] whose
    key is not stored, [addUTXO(u)] puts [u] among the outputs listed for
    [u.address], at the place of its key in key order; the balance of
    that address, which adds the listed amounts in that order, then has
    [u.amount] added at that place, and it is the earlier balance plus
    [u.amount] when no listed output has a greater key; a
    [spendUTXO(u.txid, u.vout)] that follows succeeds and puts every
    lookup, listing and balance back as before.  A successful
    [spendUTXO(u.txid, u.vout)] of the stored [u] removes it from
    [getAddressUTXOs(u.address)] and leaves the other outputs listed in
    their order, so the balance is the sum without [u.amount]; and
    [spendUTXO] of a key that is not stored (never added, or already
    spent) returns false and leaves the set unchanged. *)
Theorem utxo_round_trip (s : UTXOSet) (u : UTXOutput) :
  reachable s ->
  (utxos_ s !! utxo_key u = None ->
   (exists l1 l2,
      getAddressUTXOs s (address u) = l1 ++ l2
      /\ getAddressUTXOs (addUTXO s u) (address u) = l1 ++ u :: l2
      /\ Forall (fun o => key_lt (utxo_key o) (utxo_key u)) l1
      /\ Forall (fun o => key_lt (utxo_key u) (utxo_key o)) l2
      /\ getBalance zero add s (address u) = total l2 (total l1 zero)
      /\ getBalance zero add (addUTXO s u) (address u)
         = total l2 (add (total l1 zero) (amount u))
      /\ (l2 = [] ->
          getBalance zero add (addUTXO s u) (address u)
          = add (getBalance zero add s (address u)) (amount u)))
   /\ let s' := fst (spendUTXO (addUTXO s u) (txid u) (vout u)) in
      snd (spendUTXO (addUTXO s u) (txid u) (vout u)) = true
      /\ (forall t v, getUTXO s' t v = getUTXO s t v)
      /\ (forall a, getAddressUTXOs s' a = getAddressUTXOs s a)
      /\ (forall a, getBalance zero add s' a = getBalance zero add s a))
  /\ (utxos_ s !! utxo_key u = Some u ->
      let s' := fst (spendUTXO s (txid u) (vout u)) in
      snd (spendUTXO s (txid u) (vout u)) = true
      /\ (u ∉ getAddressUTXOs s' (address u))
      /\ (exists l1 l2,
            getAddressUTXOs s (address u) = l1 ++ u :: l2
            /\ getAddressUTXOs s' (address u) = l1 ++ l2
            /\ getBalance zero add s (address u)
               = total l2 (add (total l1 zero) (amount u))
            /\ getBalance zero add s' (address u)
               = total l2 (total l1 zero)
            /\ (l2 = [] ->
                getBalance zero add s (address u)
                = add (getBalance zero add s' (address u)) (amount u)))
      /\ spendUTXO s' (txid u) (vout u) = (s', false))
  /\ (forall t v, utxos_ s !! make_key t v = None ->
      spendUTXO s t v = (s, false)).
Proof.
  intros Hr. pose proof (reachable_indexed s Hr) as Hs.
  split; [|split].
  - intros Hfresh. split.
    + destruct (getAddressUTXOs_insert s u Hs Hfresh)
        as (l1 & l2 & Hb & Ha & H1 & H2).
      exists l1, l2. unfold getBalance. rewrite Hb, Ha.
      fold (total (l1 ++ l2) zero). fold (total (l1 ++ u :: l2) zero).
      rewrite !total_app. repeat (split; [done|]).
      by intros ->.
    + destruct (addUTXO_spendUTXO s u Hfresh) as (Hok & Hm & Hl).
      intros s'. split; [done|]. split; [|split; [done|]].
      * intros t v. unfold getUTXO. fold s' in Hm. by rewrite Hm.
      * intros a. unfold getBalance. fold s' in Hl. by rewrite Hl.
  - intros Hu s'. split; [|split; [|split]].
    + unfold spendUTXO. fold (utxo_key u). by rewrite Hu.
    + by apply not_elem_of_spendUTXO.
    + destruct (getAddressUTXOs_remove s u Hs Hu)
        as (l1 & l2 & Hb & Ha & _).
      exists l1, l2. fold s' in Ha. unfold getBalance. rewrite Hb, Ha.
      fold (total (l1 ++ l2) zero). fold (total (l1 ++ u :: l2) zero).
      rewrite !total_app. repeat (split; [done|]).
      by intros ->.
    + subst s'. apply spendUTXO_missing.
      rewrite (spendUTXO_stored s _ _ u) by done. simpl.
      apply lookup_delete_eq.
  - intros t v Hnone. by apply spendUTXO_missing.
Qed.

End RoundTrip.

(** The round trip on the code's doubles: 25.5 coins to "alice" on top
    of the constructed set, spent again, and a spend of a key never
    added. *)
Definition sample_utxo : @UTXOutput float :=
  mkUTXOutput "4a5e1e4baab89f3a" 1 "alice" 25.5%float "OP_CHECKSIG" 7 false
    6.

Lemma utxo_round_trip_witness :
  let s0 := UTXOSet_new_double in
  let s1 := addUTXO s0 sample_utxo in
  let s2 := fst (spendUTXO s1 "4a5e1e4baab89f3a" 1) in
  snd (spendUTXO s1 "4a5e1e4baab89f3a" 1) = true
  /\ getBalance_double s2 "alice" = getBalance_double s0 "alice"
  /\ (sample_utxo ∉ getAddressUTXOs s2 "alice")
  /\ spendUTXO s2 "4a5e1e4baab89f3a" 1 = (s2, false)
  /\ spendUTXO s0 "4a5e1e4baab89f3a" 1 = (s0, false).
Proof.
  intros s0 s1 s2.
  destruct (utxo_round_trip 0%float PrimFloat.add 2000000.0%float s0
              sample_utxo (reach_new _)) as (Hadd & _ & Hmiss).
  destruct (utxo_round_trip 0%float PrimFloat.add 2000000.0%float s1
              sample_utxo (reach_add _ _ _ (reach_new _)))
    as (_ & Hspend & _).
  destruct (Hadd eq_refl) as (_ & Hok & _ & _ & Hbal).
  destruct (Hspend eq_refl) as (_ & Hout & _ & Hagain).
  split; [exact Hok|]. split; [exact (Hbal "alice"%string)|].
  split; [exact Hout|]. split; [exact Hagain|].
  apply Hmiss. reflexivity.
Defined.

(** Three outputs of "carol": 0.2 and 0.3 stored, 0.1 to be added under
    a key that sorts before the other two. *)
Definition carol_b : @UTXOutput float :=
  mkUTXOutput "b7c2" 0 "carol" 0.2%float "OP_CHECKSIG" 1 false 1.

Definition carol_c : @UTXOutput float :=
  mkUTXOutput "c9d4" 0 "carol" 0.3%float "OP_CHECKSIG" 1 false 1.

Definition carol_a : @UTXOutput float :=
  mkUTXOutput "a1f0" 0 "carol" 0.1%float "OP_CHECKSIG" 2 false 1.

Definition carol_set : @UTXOSet float :=
  addUTXO (addUTXO UTXOSet_new_double carol_b) carol_c.

(** C7 (as stated) fails on the code's doubles, where a balance does not
    always move by exactly the amount of the output: with 0.2 and 0.3
    stored for "carol" (balance 0.5), [addUTXO] of an output of 0.1 whose
    key is new and sorts first gives the balance 0.6000000000000001,
    which is not 0.5 + 0.1; and spending that output again lowers the
    balance to 0.5, which is not 0.6000000000000001 - 0.1. *)
Lemma utxo_balance_not_exact :
  let s1 := addUTXO carol_set carol_a in
  let s2 := fst (spendUTXO s1 "a1f0" 0) in
  reachable 2000000.0%float carol_set
  /\ getUTXO carol_set "a1f0" 0 = None
  /\ getBalance_double carol_set "carol" = 0.5%float
  /\ getBalance_double s1 "carol" = 0.6000000000000001%float
  /\ (0.5 + 0.1 = 0.6)%float
  /\ getBalance_double s1 "carol"
     <> (getBalance_double carol_set "carol" + amount carol_a)%float
  /\ snd (spendUTXO s1 "a1f0" 0) = true
  /\ getBalance_double s2 "carol" = 0.5%float
  /\ getBalance_double s2 "carol"
     <> (getBalance_double s1 "carol" - amount carol_a)%float.
Proof.
  intros s1 s2.
  split; [apply reach_add, reach_add, reach_new|].
  split; [reflexivity|].
  split; [reflexivity|]. split; [reflexivity|]. split; [reflexivity|].
  split; [|split; [reflexivity|split; [reflexivity|]]].
  - vm_compute. intros H. discriminate H.
  - vm_compute. intros H. discriminate H.
Qed.

End UTXOFacts.

(** ** The byte-size cap of the pool *)

Module MempoolFacts.
Import Mempool.

(** The bytes of the transactions that are in the pool. *)
Definition resident_bytes (mp : TransactionMempool) : Z :=
  map_fold (fun _ e acc => acc + size (tx e)) 0 (transactions_ mp).

Definition tx_a : Transaction := mkTransaction "a1" 1%float 60 60 240.
Definition tx_b : Transaction := mkTransaction "b2" 2%float 60 60 240.
Definition tx_big : Transaction := mkTransaction "c3" 1%float 150 150 600.

(** C6: with a cap of 100 bytes, admitting [tx_b] (60 bytes) after [tx_a]
    (60 bytes) evicts [tx_a] but does not take its bytes off the size
    counter, which then reads 120; and a transaction of 150 bytes is
    admitted into the empty pool, whose content is then above the cap. *)
Theorem addTransaction_exceeds_cap :
  let p0 := TransactionMempool_new 100 in
  let p1 := fst (addTransaction 0 p0 tx_a) in
  let p2 := fst (addTransaction 0 p1 tx_b) in
  let q := fst (addTransaction 0 p0 tx_big) in
  (getBytes p1 = 60
   /\ snd (addTransaction 0 p1 tx_b) = true
   /\ hasTransaction p2 "a1" = false
   /\ hasTransaction p2 "b2" = true
   /\ resident_bytes p2 = 60
   /\ getBytes p2 = 120
   /\ maxSize_ p2 = 100)
  /\ (snd (addTransaction 0 p0 tx_big) = true
      /\ resident_bytes q = 150
      /\ getBytes q = 150
      /\ maxSize_ q = 100).
Proof. vm_compute. repeat split. Qed.

(** [removeTransaction] takes the bytes of what it removes off the
    counter; [evictLowFeeTxs] leaves the counter as it is. *)
Lemma removeTransaction_counter mp txid e :
  transactions_ mp !! txid = Some e ->
  getBytes (fst (removeTransaction mp txid))
  = Dbl.wrapu64 (getBytes mp - size (tx e)).
Proof. intros H. unfold removeTransaction. by rewrite H. Qed.

Lemma evictLowFeeTxs_counter mp needed :
  getBytes (evictLowFeeTxs mp needed) = getBytes mp.
Proof. reflexivity. Qed.

End MempoolFacts.

(** ** The lock, the guard and the invocations of [transfer] *)

Module ReentrancyFacts.
Import Ledger Reentrancy.

(** Outside the critical section: not yet in, or already out. *)
Definition quiet (p : pc) : bool :=
  match p with Waiting | Finished _ => true | _ => false end.

(** What the owner of the mutex may be doing, given the flag. *)
Definition owner_ok (flag : bool) (p : pc) : bool :=
  match p with
  | HoldsLock | GuardGone _ => negb flag
  | InBody | BodyDone _ => flag
  | _ => false
  end.

(** The invariant of the interleavings: with the mutex free the flag is
    clear and every invocation is outside; with the mutex owned, the
    owner alone is inside, and the flag is set exactly while the owner's
    guard is alive. *)
Definition inv (w : world) : Prop :=
  match chainMutex w with
  | None =>
      isTransferring (ledger w) = false
      /\ forall j t, threads w !! j = Some t -> quiet (snd t) = true
  | Some i =>
      (exists c p, threads w !! i = Some (c, p)
                   /\ owner_ok (isTransferring (ledger w)) p = true)
      /\ forall j t, j <> i -> threads w !! j = Some t -> quiet (snd t) = true
  end.

Definition finished (p : pc) : bool :=
  match p with Finished _ => true | _ => false end.

Definition all_finished (w : world) : Prop :=
  forall j t, threads w !! j = Some t -> finished (snd t) = true.

Lemma start_inv bc calls : isTransferring bc = false -> inv (start bc calls).
Proof.
  intros Hf. split; [done|]. intros j t Hj. simpl in Hj.
  rewrite list_lookup_fmap in Hj.
  destruct (calls !! j); simpl in Hj; [|done]. by injection Hj as <-.
Qed.

(** In a world that satisfies the invariant, a thread that is inside is
    the owner of the mutex. *)
Lemma inside_is_owner w i c p :
  inv w -> threads w !! i = Some (c, p) -> quiet p = false ->
  chainMutex w = Some i /\ owner_ok (isTransferring (ledger w)) p = true.
Proof.
  unfold inv. intros Hinv Hi Hq.
  destruct (chainMutex w) as [o|].
  - destruct Hinv as [(c' & p' & Ho & Hok) Hothers].
    destruct (decide (i = o)) as [->|Hne].
    + rewrite Hi in Ho. by injection Ho as <- <-.
    + specialize (Hothers i _ Hne Hi). simpl in Hothers. congruence.
  - destruct Hinv as [_ Hall]. specialize (Hall i _ Hi). simpl in Hall.
    congruence.
Qed.

Lemma owner_moves w i c p p' bc :
  inv w -> threads w !! i = Some (c, p) -> quiet p = false ->
  owner_ok (isTransferring bc) p' = true ->
  inv (mkWorld bc (chainMutex w) (<[i := (c, p')]> (threads w))).
Proof.
  intros Hinv Hi Hq Hok.
  destruct (inside_is_owner w i c p Hinv Hi Hq) as [Hm _].
  unfold inv in *. simpl. rewrite Hm in *. destruct Hinv as [_ Hothers].
  split.
  - exists c, p'. split; [|done].
    apply list_lookup_insert_eq. by eapply lookup_lt_Some.
  - intros j t Hne Hj. rewrite list_lookup_insert_ne in Hj by done. eauto.
Qed.

Lemma step_inv w i w' : inv w -> step w i = Some w' -> inv w'.
Proof.
  intros Hinv Hstep. unfold step in Hstep.
  destruct (threads w !! i) as [[c p]|] eqn:Hi; [|done].
  destruct p as [| | |r|r|r| |]; try done.
  - (* Waiting: the mutex is free and is taken *)
    destruct (chainMutex w) eqn:Hm; [done|]. injection Hstep as <-.
    unfold inv in *. rewrite Hm in Hinv. simpl. destruct Hinv as [Hf Hall].
    split.
    + exists c, HoldsLock. rewrite Hf. split; [|done].
      apply list_lookup_insert_eq. by eapply lookup_lt_Some.
    + intros j t Hne Hj. rewrite list_lookup_insert_ne in Hj by done. eauto.
  - (* HoldsLock: the flag is clear, the guard sets it *)
    destruct (inside_is_owner w i c _ Hinv Hi eq_refl) as [_ Hok].
    simpl in Hok. apply negb_true_iff in Hok. rewrite Hok in Hstep.
    injection Hstep as <-. by eapply owner_moves.
  - (* InBody *)
    destruct (transfer_body _ _ _ _ _) as [[b h] r].
    injection Hstep as <-. by eapply owner_moves.
  - (* BodyDone: the guard's destructor *)
    injection Hstep as <-. by eapply owner_moves.
  - (* GuardGone: the lock's destructor *)
    destruct (inside_is_owner w i c _ Hinv Hi eq_refl) as [Hm Hok].
    simpl in Hok. apply negb_true_iff in Hok.
    injection Hstep as <-. unfold inv in *. simpl. rewrite Hm in Hinv.
    destruct Hinv as [_ Hothers]. split; [done|].
    intros j t Hj. destruct (decide (j = i)) as [->|Hne].
    + rewrite list_lookup_insert_eq in Hj by (by eapply lookup_lt_Some).
      by injection Hj as <-.
    + rewrite list_lookup_insert_ne in Hj by done. eauto.
  - (* Unwinding is never reached *)
    by destruct (inside_is_owner w i c _ Hinv Hi eq_refl) as [_ Hok].
Qed.

Lemma reachable_inv w0 w : inv w0 -> reachable w0 w -> inv w.
Proof. induction 2; eauto using step_inv. Qed.

Lemma inv_no_fault w j c p :
  inv w -> threads w !! j = Some (c, p) -> p <> Unwinding /\ p <> Faulted.
Proof.
  intros Hinv Hj.
  destruct (quiet p) eqn:Hq; [by destruct p|].
  destruct (inside_is_owner w j c p Hinv Hj Hq) as [_ Hok].
  by destruct p.
Qed.

(** No deadlock: while an invocation has not finished, some thread has
    an enabled action. *)
Lemma inv_progress w :
  inv w -> ~ all_finished w -> exists i w', step w i = Some w'.
Proof.
  intros Hinv Hnf. unfold inv in Hinv.
  destruct (chainMutex w) as [o|] eqn:Hm.
  - destruct Hinv as [(c & p & Ho & Hok) _]. exists o.
    unfold step. rewrite Ho.
    destruct p; simpl in Hok; try done; try by eexists.
    + apply negb_true_iff in Hok. rewrite Hok. by eexists.
    + destruct (transfer_body _ _ _ _ _) as [[b h] r]. by eexists.
  - destruct Hinv as [_ Hall].
    destruct (decide (Forall (fun t => finished (snd t) = true) (threads w)))
      as [Hfin|Hex].
    + exfalso. apply Hnf. intros j t Hj.
      rewrite Forall_lookup in Hfin. eauto.
    + apply not_Forall_Exists in Hex; [|apply _].
      apply Exists_exists in Hex as ([c p] & Hin & Hp).
      apply list_elem_of_lookup in Hin as [i Hi]. exists i.
      specialize (Hall i _ Hi). simpl in *.
      assert (p = Waiting) as -> by (by destruct p).
      unfold step. rewrite Hi, Hm. by eexists.
Qed.

(** The atomic actions an invocation still has to take. *)
Definition remaining (p : pc) : nat :=
  match p with
  | Waiting => 5 | HoldsLock => 4 | InBody => 3 | BodyDone _ => 2
  | GuardGone _ => 1 | Unwinding => 1 | Finished _ | Faulted => 0
  end.

Definition weight (ts : list (invocation * pc)) : nat :=
  sum_list (map (fun t => remaining (snd t)) ts).

Lemma weight_insert ts i c p p' :
  ts !! i = Some (c, p) ->
  (weight (<[i := (c, p')]> ts) + remaining p = weight ts + remaining p')%nat.
Proof.
  unfold weight. revert i. induction ts as [|t ts IH]; intros i Hi; [done|].
  destruct i as [|i]; simpl in *.
  - injection Hi as ->. simpl. lia.
  - specialize (IH i Hi). lia.
Qed.

Lemma step_weight w i w' :
  step w i = Some w' -> (weight (threads w') < weight (threads w))%nat.
Proof.
  unfold step. intros Hstep.
  destruct (threads w !! i) as [[c p]|] eqn:Hi; [|done].
  assert (forall bc m p', (remaining p' < remaining p)%nat ->
            (weight (threads (mkWorld bc m (<[i := (c, p')]> (threads w))))
             < weight (threads w))%nat)
    as Hgo.
  { intros bc m p' Hp. simpl.
    pose proof (weight_insert _ _ _ _ p' Hi). lia. }
  destruct p as [| | |r|r|r| |]; try done.
  - destruct (chainMutex w); [done|]. injection Hstep as <-.
    apply Hgo. simpl. lia.
  - destruct (isTransferring (ledger w)); injection Hstep as <-;
      apply Hgo; simpl; lia.
  - destruct (transfer_body _ _ _ _ _) as [[b h] r].
    injection Hstep as <-. apply Hgo. simpl. lia.
  - injection Hstep as <-. apply Hgo. simpl. lia.
  - injection Hstep as <-. apply Hgo. simpl. lia.
  - injection Hstep as <-. apply Hgo. simpl. lia.
Qed.

Lemma run_reachable w0 schedule w w' :
  reachable w0 w -> run schedule w = Some w' -> reachable w0 w'.
Proof.
  revert w. induction schedule as [|i rest IH]; intros w Hr Hrun; simpl in *.
  - by injection Hrun as <-.
  - destruct (step w i) as [w1|] eqn:Hs; [|done].
    eapply IH; [|exact Hrun]. by eapply reach_step.
Qed.

Lemma all_finished_dec w : {all_finished w} + {~ all_finished w}.
Proof.
  destruct (decide (Forall (fun t => finished (snd t) = true) (threads w)))
    as [H|H].
  - left. intros j t Hj. rewrite Forall_lookup in H. eauto.
  - right. intros Hall. apply H. apply Forall_lookup. exact Hall.
Qed.

(** Every interleaving can be continued until all invocations have
    finished, and is over after five actions per invocation. *)
Lemma inv_completes n w :
  inv w -> (weight (threads w) <= n)%nat ->
  exists schedule w', run schedule w = Some w' /\ all_finished w'.
Proof.
  revert w. induction n as [|n IH]; intros w Hinv Hle.
  - destruct (all_finished_dec w) as [Hf|Hnf]; [by exists [], w|].
    destruct (inv_progress w Hinv Hnf) as (i & w' & Hs).
    apply step_weight in Hs. lia.
  - destruct (all_finished_dec w) as [Hf|Hnf]; [by exists [], w|].
    destruct (inv_progress w Hinv Hnf) as (i & w' & Hs).
    destruct (IH w') as (sched & w'' & Hrun & Hfin).
    + by eapply step_inv.
    + apply step_weight in Hs. lia.
    + exists (i :: sched), w''. simpl. by rewrite Hs.
Qed.

(** *** The guard in one call *)

Lemma transfer_fault_when_held bc from to amount key shard :
  isTransferring bc = true ->
  transfer bc from to amount key shard = (bc, ReentrancyFault).
Proof. unfold transfer. by intros ->. Qed.

Lemma transfer_releases_flag bc from to amount key shard :
  isTransferring bc = false ->
  isTransferring (fst (transfer bc from to amount key shard)) = false
  /\ exists r, snd (transfer bc from to amount key shard) = Returned r.
Proof.
  unfold transfer. intros ->.
  destruct (transfer_body _ _ _ _ _) as [[b h] r]. simpl. eauto.
Qed.

Lemma transfer_body_set_flag bc flag from to amount key :
  transfer_body (set_flag bc flag) from to amount key
  = transfer_body bc from to amount key.
Proof. reflexivity. Qed.

(** An invocation that runs its five actions without interruption does
    what the function [transfer] does. *)
Lemma run_alone w i c :
  chainMutex w = None -> isTransferring (ledger w) = false ->
  threads w !! i = Some (c, Waiting) ->
  let call :=
    transfer (ledger w) (inv_from c) (inv_to c) (inv_amount c) (inv_key c)
      (inv_shard c) in
  exists r,
    snd call = Returned r
    /\ run [i; i; i; i; i] w
       = Some (mkWorld (fst call) None (<[i := (c, Finished r)]> (threads w))).
Proof.
  intros Hm Hf Hi call.
  assert (i < length (threads w))%nat as Hlt by (by eapply lookup_lt_Some).
  subst call. unfold transfer. rewrite Hf.
  destruct (transfer_body (ledger w) (inv_from c) (inv_to c) (inv_amount c)
              (inv_key c)) as [[b h] r] eqn:Hbody.
  exists r. split; [done|]. simpl fst.
  set (ts := threads w) in *.
  assert (step w i
          = Some (mkWorld (ledger w) (Some i) (<[i := (c, HoldsLock)]> ts)))
    as H1 by (unfold step; fold ts; by rewrite Hi, Hm).
  assert (forall p, <[i := (c, p)]> ts !! i = Some (c, p)) as Hl
    by (intros; by apply list_lookup_insert_eq).
  assert (forall p p', <[i := (c, p')]> (<[i := (c, p)]> ts)
                            = <[i := (c, p')]> ts) as Hii
    by (intros; apply list_insert_insert_eq).
  simpl. rewrite H1.
  unfold step at 1. simpl. rewrite Hl, Hf by done. simpl. rewrite Hii by done.
  unfold step at 1. simpl. rewrite Hl by done.
  rewrite transfer_body_set_flag, Hbody. simpl. rewrite Hii by done.
  unfold step at 1. simpl. rewrite Hl by done. simpl. rewrite Hii by done.
  unfold step at 1. simpl. rewrite Hl by done. simpl. rewrite Hii by done.
  done.
Qed.

(** *** Two transfers at once *)

Definition two_calls : list invocation :=
  [ mkInvocation "alice" "bob" 10%float "" 0;
    mkInvocation "alice" "carol" 5.5%float "" 0 ].

(** C9 (as stated) fails: of two invocations made at once on the sample
    ledger, the second waits for the mutex while the first is inside (it
    has no enabled action, and does not reach the guard), and then runs;
    both return [true], and both debits are in the balance of "alice". *)
Lemma concurrent_transfers_both_complete :
  let w0 := start LedgerFacts.sample_ledger two_calls in
  exists w2 wf,
    run [0; 0]%nat w0 = Some w2
    /\ isTransferring (ledger w2) = true
    /\ step w2 1 = None
    /\ run [0; 0; 0; 0; 0; 1; 1; 1; 1; 1]%nat w0 = Some wf
    /\ map snd (threads wf) = [Finished true; Finished true]
    /\ balances (ledger wf) !! "alice"%string = Some 110%float
    /\ balances (ledger wf) !! "bob"%string = Some 10%float
    /\ balances (ledger wf) !! "carol"%string = Some 5.5%float
    /\ isTransferring (ledger wf) = false.
Proof.
  do 2 eexists. split; [reflexivity|]. split; [reflexivity|].
  split; [reflexivity|]. split; [reflexivity|]. repeat split.
Qed.

(** C9 (amended): invocations of [transfer] made concurrently on a ledger
    whose flag is clear are serialised by the exclusive lock on
    [chainMutex], which is taken before the guard: at most one invocation
    is past the lock at a time, each finds the flag clear, none raises
    the reentrancy fault, there is no deadlock, and all can run to
    completion.  An invocation that finds the flag set raises the fault
    and leaves the ledger, and with it every balance, as it is; an
    admitted invocation clears the flag on every return path, so that a
    later call is admitted. *)
Theorem transfer_invocations_serialised
    (bc : Blockchain) (calls : list invocation) :
  isTransferring bc = false ->
  (forall w, reachable (start bc calls) w ->
     (forall j c p, threads w !! j = Some (c, p) ->
                    p <> Unwinding /\ p <> Faulted)
     /\ (forall j k tj tk, j <> k ->
           threads w !! j = Some tj -> threads w !! k = Some tk ->
           quiet (snd tj) = true \/ quiet (snd tk) = true)
     /\ (~ all_finished w -> exists i w', step w i = Some w')
     /\ (exists schedule w', run schedule w = Some w' /\ all_finished w'))
  /\ (forall from to amount key shard,
        isTransferring (fst (transfer bc from to amount key shard)) = false
        /\ exists r, snd (transfer bc from to amount key shard) = Returned r)
  /\ (forall held from to amount key shard,
        isTransferring held = true ->
        transfer held from to amount key shard = (held, ReentrancyFault)).
Proof.
  intros Hf. split; [|split].
  - intros w Hr.
    pose proof (reachable_inv _ _ (start_inv bc calls Hf) Hr) as Hinv.
    split; [|split; [|split]].
    + intros j c p. by apply inv_no_fault.
    + intros j k tj tk Hne Hj Hk. unfold inv in Hinv.
      destruct (chainMutex w) as [o|].
      * destruct Hinv as [_ Hothers].
        destruct (decide (j = o)) as [->|Hjo]; [right|left]; eauto.
      * destruct Hinv as [_ Hall]. left. eauto.
    + by apply inv_progress.
    + by eapply inv_completes.
  - intros. by apply transfer_releases_flag.
  - intros. by apply transfer_fault_when_held.
Qed.

(** The sample ledger with the two transfers, seen while the first is in
    its body: nothing has faulted, the other invocation is outside, and
    the run can be completed. *)
Lemma transfer_invocations_serialised_witness :
  let w0 := start LedgerFacts.sample_ledger two_calls in
  let w := default w0 (run [0; 0; 0]%nat w0) in
  map snd (threads w) = [BodyDone true; Waiting]
  /\ (forall j c p, threads w !! j = Some (c, p) ->
                    p <> Unwinding /\ p <> Faulted)
  /\ (exists schedule w', run schedule w = Some w' /\ all_finished w')
  /\ isTransferring
       (fst (transfer LedgerFacts.sample_ledger "alice" "bob" 10 "" 0))
     = false.
Proof.
  intros w0 w.
  destruct (transfer_invocations_serialised LedgerFacts.sample_ledger
              two_calls eq_refl) as (Hconc & Hrel & _).
  assert (reachable w0 w) as Hr.
  { apply (run_reachable w0 [0; 0; 0]%nat w0 w); [apply reach_start|].
    reflexivity. }
  destruct (Hconc w Hr) as (Hnf & _ & _ & Hcompl).
  split; [reflexivity|]. split; [exact Hnf|]. split; [exact Hcompl|].
  apply Hrel.
Defined.

End ReentrancyFacts.

(** ** Signs through rounding

    A datum is followed through addition and subtraction far enough to
    know that it is not negative. *)

Module SignFacts.
Import Dbl DblFacts.

(** Not a NaN and not below zero. *)
Definition sf_nonneg (x : spec_float) : Prop :=
  match x with
  | S754_zero _ => True
  | S754_infinity s | S754_finite s _ _ => s = false
  | S754_nan => False
  end.

Lemma leb_zero_nonneg x : (0 <=? x)%float = true <-> sf_nonneg (Prim2SF x).
Proof.
  rewrite leb_spec. change (Prim2SF 0) with (S754_zero false).
  unfold SFleb. destruct (Prim2SF x) as [s|[]| |[] m e]; simpl;
    split; congruence || done.
Qed.

Lemma binary_round_aux_nonneg m e l :
  0 <= m -> sf_nonneg (binary_round_aux prec emax false m e l).
Proof.
  intros Hm. unfold binary_round_aux.
  pose proof (shr_fexp_nonneg m e l Hm) as H1.
  destruct (shr_fexp prec emax m e l) as [mrs' e']. simpl in H1.
  pose proof (shr_fexp_nonneg _ e' loc_Exact
                (round_nearest_even_nonneg _ (loc_of_shr_record mrs') H1))
    as H2.
  destruct (shr_fexp prec emax _ e' loc_Exact) as [mrs'' e'']. simpl in H2.
  destruct (shr_m mrs'') as [|p|p]; [done| |lia].
  by destruct (e'' <=? emax - prec).
Qed.

Lemma binary_normalize_nonneg m e :
  0 <= m -> sf_nonneg (binary_normalize prec emax m e false).
Proof.
  intros Hm. unfold binary_normalize. destruct m as [|p|p]; [done| |lia].
  unfold binary_round. destruct (shl_align _ _ _) as [mz ez].
  by apply binary_round_aux_nonneg.
Qed.

Lemma shl_align_val mx ex ez :
  ez <= ex -> Z.pos (fst (shl_align mx ex ez)) = Z.pos mx * 2 ^ (ex - ez).
Proof.
  intros H. unfold shl_align.
  destruct (ez - ex) as [|d|d] eqn:Hd; simpl fst.
  - replace (ex - ez) with 0 by lia. lia.
  - lia.
  - change (Pos.iter xO mx d) with (shift_pos d mx).
    rewrite shift_pos_correct. change (Z.pow_pos 2 d) with (2 ^ Z.pos d).
    replace (ex - ez) with (Z.pos d) by lia. lia.
Qed.

(** The sum of a datum that is not negative and a positive finite one is
    not negative. *)
Lemma SFadd_nonneg x my ey :
  sf_nonneg x ->
  sf_nonneg (SFadd prec emax x (S754_finite false my ey)).
Proof.
  intros Hx. destruct x as [sx|sx| |sx mx ex]; simpl in Hx; try done.
  subst sx. cbn [SFadd]. apply binary_normalize_nonneg.
  cbn [cond_Zopp]. lia.
Qed.

(** Canonical data: a larger exponent carries a larger value. *)
Lemma canonical_digits m e :
  canonical_mantissa prec emax m e = true ->
  Z.pos m < 2 ^ 53 /\ (-1074 < e -> 2 ^ 52 <= Z.pos m).
Proof.
  unfold canonical_mantissa. intros H. apply Z.eqb_eq in H.
  rewrite fexp_eq in H. fold (Zdigits2 (Z.pos m)) in H.
  pose proof (Zdigits2_gt (Z.pos m) ltac:(lia)) as Hgt.
  rewrite Zdigits2_log2 in *.
  pose proof (Z.log2_spec (Z.pos m) ltac:(lia)) as [Hlo Hhi].
  split.
  - eapply Z.lt_le_trans; [exact Hgt|]. apply Z.pow_le_mono_r; lia.
  - intros He. replace 52 with (Z.log2 (Z.pos m)) by lia. exact Hlo.
Qed.

(** The difference of two positive finite data, the first not below the
    second, is not negative. *)
Lemma SFsub_nonneg x my ey :
  sf_nonneg x ->
  valid_binary x = true ->
  valid_binary (S754_finite false my ey) = true ->
  SFcompare x (S754_finite false my ey) <> Some Lt ->
  sf_nonneg (SFsub prec emax x (S754_finite false my ey)).
Proof.
  intros Hx Hvx Hvy Hc.
  destruct x as [sx|sx| |sx mx ex]; simpl in Hx; try done.
  subst sx. cbn [SFsub]. apply binary_normalize_nonneg. cbn [cond_Zopp].
  unfold SpecFloat.valid_binary, bounded in Hvx, Hvy.
  apply andb_true_iff in Hvx as [Hcx _].
  apply andb_true_iff in Hvy as [Hcy _].
  pose proof (Hcx' := Hcx). pose proof (Hcy' := Hcy).
  unfold canonical_mantissa in Hcx', Hcy'.
  apply Z.eqb_eq in Hcx'. apply Z.eqb_eq in Hcy'.
  rewrite fexp_eq in Hcx', Hcy'.
  apply canonical_digits in Hcx as [Hx53 Hx52].
  apply canonical_digits in Hcy as [Hy53 Hy52].
  rewrite !shl_align_val by lia.
  simpl in Hc.
  destruct (ex ?= ey) eqn:He.
  - apply Z.compare_eq in He. subst ey.
    rewrite Z.min_id, Z.sub_diag. simpl Z.pow.
    assert (Pos.compare_cont Eq mx my <> Lt) as Hm by congruence.
    assert ((mx ?= my)%positive <> Lt) as Hm' by exact Hm.
    rewrite Pos.compare_lt_iff in Hm'. lia.
  - congruence.
  - rewrite Z.compare_gt_iff in He.
    rewrite Z.min_r by lia. rewrite Z.sub_diag. simpl (2 ^ 0).
    assert (2 ^ 1 <= 2 ^ (ex - ey)) by (apply Z.pow_le_mono_r; lia).
    assert (2 ^ 52 <= Z.pos mx) by (apply Hx52; lia).
    clear Hc Hcx' Hcy' Hx52 Hy52. nia.
Qed.

Lemma positive_finite a :
  is_finite a = true -> (a <=? 0)%float = false ->
  exists m e, Prim2SF a = S754_finite false m e.
Proof.
  intros Hfin Hpos. apply PriceFacts.finite_sf in Hfin.
  rewrite leb_spec in Hpos. change (Prim2SF 0) with (S754_zero false) in Hpos.
  unfold SFleb in Hpos.
  destruct (Prim2SF a) as [s|s| |[] m e]; simpl in *; try done. eauto.
Qed.

(** On [double]: for [b] not below zero and [a] positive and finite,
    [b + a] is not below zero, and neither is [b - a] when [b < a] does
    not hold. *)
Lemma add_nonneg b a :
  (0 <=? b)%float = true -> is_finite a = true -> (a <=? 0)%float = false ->
  (0 <=? b + a)%float = true.
Proof.
  rewrite !leb_zero_nonneg, add_spec. intros Hb Hfin Hpos.
  destruct (positive_finite a Hfin Hpos) as (m & e & ->).
  by apply SFadd_nonneg.
Qed.

Lemma sub_nonneg b a :
  (0 <=? b)%float = true -> is_finite a = true -> (a <=? 0)%float = false ->
  (b <? a)%float = false ->
  (0 <=? b - a)%float = true.
Proof.
  rewrite !leb_zero_nonneg, sub_spec, ltb_spec. intros Hb Hfin Hpos Hlt.
  pose proof (Prim2SF_valid a) as Hva.
  destruct (positive_finite a Hfin Hpos) as (m & e & Ha).
  rewrite Ha in *.
  apply SFsub_nonneg; [done|apply Prim2SF_valid|done|].
  unfold SFltb in Hlt. intros Hc. by rewrite Hc in Hlt.
Qed.

End SignFacts.

(** ** Cryptographic services *)

Module CryptoFacts.
Import Str StrFacts Crypto.

Lemma uchar_range c : 0 <= uchar c < 256.
Proof.
  unfold uchar. pose proof (N_ascii_bounded c). lia.
Qed.

Lemma uchar_inj c d : uchar c = uchar d -> c = d.
Proof.
  unfold uchar. intros H. apply N2Z.inj in H.
  rewrite <- (ascii_N_embedding c), <- (ascii_N_embedding d). congruence.
Qed.

Lemma lor_lxor_range r x y :
  0 <= r < 256 -> 0 <= x < 256 -> 0 <= y < 256 ->
  0 <= Z.lor r (Z.lxor x y) < 256.
Proof.
  intros Hr Hx Hy.
  assert (0 <= Z.lxor x y) by (apply Z.lxor_nonneg; lia).
  assert (0 <= Z.lor r (Z.lxor x y)) by (apply Z.lor_nonneg; lia).
  split; [done|].
  change 256 with (2 ^ 8).
  destruct (Z.eq_dec (Z.lor r (Z.lxor x y)) 0) as [->|Hne]; [lia|].
  apply Z.log2_lt_pow2; [lia|].
  assert (forall z, 0 <= z < 256 -> Z.log2 z < 8) as Hlog.
  { intros z Hz. destruct (Z.eq_dec z 0) as [->|]; [done|].
    apply Z.log2_lt_pow2; lia. }
  rewrite Z.log2_lor by lia.
  apply Z.max_lub_lt; [apply Hlog; lia|].
  eapply Z.le_lt_trans; [apply Z.log2_lxor; lia|].
  apply Z.max_lub_lt; apply Hlog; lia.
Qed.

Lemma compare_loop_zero a b r :
  String.length a = String.length b -> 0 <= r < 256 ->
  compare_loop a b r = 0 <-> r = 0 /\ a = b.
Proof.
  revert b r. induction a as [|x a IH]; intros [|y b] r Hlen Hr;
    simpl in *; try discriminate.
  - naive_solver.
  - injection Hlen as Hlen.
    pose proof (uchar_range x). pose proof (uchar_range y).
    pose proof (lor_lxor_range r (uchar x) (uchar y) Hr).
    rewrite Z.mod_small by lia. rewrite IH by (done || lia).
    rewrite Z.lor_eq_0_iff, Z.lxor_eq_0_iff.
    split.
    + intros [[-> Hxy] ->]. apply uchar_inj in Hxy. by subst.
    + intros [-> [= -> ->]]. done.
Qed.

(** [constantTimeCompare] decides equality of its two arguments. *)
Theorem constantTimeCompare_eq (a b : string) :
  constantTimeCompare a b = true <-> a = b.
Proof.
  unfold constantTimeCompare.
  destruct (String.length a =? String.length b)%nat eqn:E; simpl.
  - apply Nat.eqb_eq in E. rewrite Z.eqb_eq.
    rewrite compare_loop_zero by (done || lia). naive_solver.
  - apply Nat.eqb_neq in E. split; [done|]. intros ->. done.
Qed.

(** *** The rate limiter *)

(** Calls of [allowRequest] made one after another at the clock values
    of a list, with the flag each call returns. *)
Fixpoint serve (rl : RateLimiter) (clock : list Z)
  : RateLimiter * list bool :=
  match clock with
  | [] => (rl, [])
  | now :: rest =>
      let '(rl1, ok) := allowRequest now rl in
      let '(rl2, oks) := serve rl1 rest in
      (rl2, ok :: oks)
  end.

(** How many of the calls made at clock value [t] were allowed. *)
Fixpoint allowed_at (t : Z) (clock : list Z) (flags : list bool) : Z :=
  match clock, flags with
  | now :: clock', ok :: flags' =>
      (if (now =? t) && ok then 1 else 0) + allowed_at t clock' flags'
  | _, _ => 0
  end.

Lemma allowed_at_nonneg t clock flags : 0 <= allowed_at t clock flags.
Proof.
  revert flags. induction clock as [|now clock IH]; intros [|ok flags];
    simpl; try lia.
  specialize (IH flags). destruct ((now =? t) && ok); lia.
Qed.

Lemma allowed_at_later t clock flags :
  Forall (fun now => t < now) clock -> allowed_at t clock flags = 0.
Proof.
  revert flags. induction clock as [|now clock IH]; intros [|ok flags] H;
    simpl; try done.
  inversion H as [|? ? Hnow Hrest]; subst.
  rewrite IH by done. destruct (Z.eqb_spec now t); [lia|done].
Qed.

Lemma serve_window rl clock t :
  maxPerSecond_ rl < 2 ^ 31 ->
  0 <= requestCount_ rl <= Z.max 0 (maxPerSecond_ rl) ->
  StronglySorted Z.le (windowStart_ rl :: clock) ->
  allowed_at t clock (snd (serve rl clock))
  + (if t =? windowStart_ rl then requestCount_ rl else 0)
  <= Z.max 0 (maxPerSecond_ rl).
Proof.
  revert rl. induction clock as [|now clock IH]; intros rl Hmax Hcount Hs.
  - simpl. destruct (t =? _); lia.
  - inversion Hs as [|? ? Hs' Hall]; subst.
    inversion Hall as [|? ? Hnow Hall']; subst.
    inversion Hs' as [|? ? Hs'' Hall'']; subst.
    simpl. unfold allowRequest.
    destruct (Z.gtb_spec now (windowStart_ rl)) as [Hgt|Hle]; simpl.
    + (* a new window *)
      destruct (Z.geb_spec 0 (maxPerSecond_ rl)) as [Hfull|Hroom]; simpl.
      * match goal with
        | |- context [serve ?r clock] =>
            specialize (IH r); destruct (serve r clock) as [rl2 oks] eqn:E
        end.
        simpl in *. rewrite andb_false_r.
        specialize (IH Hmax ltac:(lia) ltac:(by constructor)).
        destruct (Z.eqb_spec t (windowStart_ rl)) as [->|Hne].
        -- rewrite allowed_at_later; [lia|].
           eapply Forall_impl; [exact Hall''|]. simpl. lia.
        -- destruct (t =? now); lia.
      * match goal with
        | |- context [serve ?r clock] =>
            specialize (IH r); destruct (serve r clock) as [rl2 oks] eqn:E
        end.
        simpl in *. rewrite andb_true_r.
        assert (Dbl.wrap32 (0 + 1) = 1) as Hw by reflexivity.
        rewrite Hw in IH.
        specialize (IH Hmax ltac:(lia) ltac:(by constructor)).
        destruct (Z.eqb_spec t (windowStart_ rl)) as [->|Hne].
        -- rewrite allowed_at_later;
             [destruct (Z.eqb_spec now (windowStart_ rl)); lia|].
           eapply Forall_impl; [exact Hall''|]. simpl. lia.
        -- rewrite (Z.eqb_sym now t). destruct (t =? now); lia.
    + (* the window of the previous call *)
      assert (now = windowStart_ rl) as -> by lia.
      destruct (Z.geb_spec (requestCount_ rl) (maxPerSecond_ rl))
        as [Hfull|Hroom]; simpl.
      * match goal with
        | |- context [serve ?r clock] =>
            specialize (IH r); destruct (serve r clock) as [rl2 oks] eqn:E
        end.
        simpl in *. rewrite andb_false_r.
        specialize (IH Hmax ltac:(lia) ltac:(by constructor)). lia.
      * match goal with
        | |- context [serve ?r clock] =>
            specialize (IH r); destruct (serve r clock) as [rl2 oks] eqn:E
        end.
        simpl in *. rewrite andb_true_r.
        assert (Dbl.wrap32 (requestCount_ rl + 1) = requestCount_ rl + 1)
          as Hw.
        { unfold Dbl.wrap32. rewrite Z.mod_small; lia. }
        rewrite Hw in IH.
        specialize (IH Hmax ltac:(lia) ltac:(by constructor)).
        rewrite (Z.eqb_sym (windowStart_ rl) t).
        destruct (t =? windowStart_ rl); lia.
Qed.

(** Under a clock that does not go back, a [RateLimiter] made for
    [maxRequests] requests a second allows at most that many of the calls
    made at any one clock value; and whenever the clock has moved past
    the window of the last call, the next call is allowed if the limit is
    positive. *)
Theorem allowRequest_window_bound (maxRequests t0 : Z) (clock : list Z)
    (t : Z) :
  maxRequests < 2 ^ 31 ->
  Sorted Z.le (t0 :: clock) ->
  allowed_at t clock (snd (serve (RateLimiter_new maxRequests t0) clock))
  <= Z.max 0 maxRequests
  /\ (forall rl now,
        0 < maxPerSecond_ rl -> windowStart_ rl < now ->
        snd (allowRequest now rl) = true).
Proof.
  intros Hmax Hs. split.
  - pose proof (serve_window (RateLimiter_new maxRequests t0) clock t) as H.
    simpl in H. specialize (H Hmax ltac:(lia)).
    apply Sorted_StronglySorted in Hs; [|intros x y z; lia].
    specialize (H Hs). destruct (t =? t0); lia.
  - intros rl now Hpos Hnow. unfold allowRequest.
    destruct (Z.gtb_spec now (windowStart_ rl)); [|lia]. simpl.
    destruct (Z.geb_spec 0 (maxPerSecond_ rl)); [lia|done].
Qed.

Lemma allowRequest_window_bound_witness :
  allowed_at 7 [7; 7; 7; 8]
    (snd (serve (RateLimiter_new 2 7) [7; 7; 7; 8])) <= Z.max 0 2.
Proof.
  apply (allowRequest_window_bound 2 7 [7; 7; 7; 8] 7).
  - reflexivity.
  - repeat constructor; discriminate.
Defined.

(** *** What one service makes, another accepts *)

Lemma starts_with_prefix s pat : starts_with s pat = String.prefix pat s.
Proof.
  unfold starts_with. rewrite find_unfold.
  destruct (String.prefix pat s); [done|].
  destruct s; [done|]. by destruct (find s pat).
Qed.

Lemma starts_with_app pat b : starts_with (String.append pat b) pat = true.
Proof. rewrite starts_with_prefix. apply prefix_app. eauto. Qed.

Lemma contains_app a pat b :
  contains (String.append a (String.append pat b)) pat = true.
Proof. apply contains_substring. by exists a, b. Qed.

Lemma empty_app a b : empty (String.append a b) = empty a && empty b.
Proof. destruct a; [by rewrite append_nil|by rewrite append_cons]. Qed.

Lemma append_assoc a b c :
  String.append (String.append a b) c = String.append a (String.append b c).
Proof.
  induction a as [|x a IH]; [by rewrite !append_nil|].
  rewrite !append_cons. by rewrite IH.
Qed.

(** [signTransaction] returns the empty string exactly when the rate
    limiter denies the call, the data fail [validateInput] or the private
    key is empty; every other signature it returns is accepted by
    [verifyTransaction], for every non-empty transaction id and sender. *)
Theorem signTransaction_verifies (HMAC_sha512 : string -> string -> list Byte.byte)
    (now : Z) (rl : RateLimiter) (data key : string) (shard : Z) :
  let sig := snd (signTransaction HMAC_sha512 now rl data key shard) in
  (sig = EmptyString
   <-> snd (allowRequest now rl) = false \/ validateInput data = false
       \/ key = EmptyString)
  /\ (sig <> EmptyString ->
      forall txId sender,
        txId <> EmptyString -> sender <> EmptyString ->
        Ledger.verifyTransaction txId sig sender = true).
Proof.
  unfold signTransaction.
  destruct (allowRequest now rl) as [rl1 allowed]. simpl.
  destruct allowed; simpl; [|split; [tauto|done]].
  destruct (validateInput data); simpl; [|split; [tauto|done]].
  destruct (empty key) eqn:Ek; simpl.
  { apply empty_true in Ek. split; [tauto|done]. }
  assert (key <> EmptyString) as Hk by (intros ->; discriminate).
  split.
  - split; [|intros [?|[?|?]]; done].
    rewrite append_assoc. discriminate.
  - intros _ txId sender Ht Hs. unfold Ledger.verifyTransaction.
    rewrite append_assoc, starts_with_app.
    destruct txId; [done|]. destruct sender; [done|]. done.
Qed.

(** [zkStarkProve_v11] returns the empty string exactly when the data
    fail [validateInput] or no random bytes are delivered; every other
    proof it returns is accepted by [zkStarkVerify_v11]. *)
Theorem zkStarkProve_v11_verifies
    (EVP_sha512 : string -> option (list Byte.byte))
    (randomBytes : option (list Byte.byte)) (data : string) (shard : Z) :
  let proof := zkStarkProve_v11 EVP_sha512 randomBytes data shard in
  (proof = EmptyString
   <-> validateInput data = false \/ randomBytes = None)
  /\ (proof <> EmptyString -> Ledger.zkStarkVerify_v11 proof = true).
Proof.
  unfold zkStarkProve_v11.
  destruct (validateInput data); simpl; [|split; [tauto|done]].
  destruct randomBytes as [bytes|]; [|split; [tauto|done]].
  split.
  - split; [discriminate|]. intros [?|?]; done.
  - intros _. unfold Ledger.zkStarkVerify_v11.
    by rewrite starts_with_app.
Qed.

Lemma substring_all s : String.substring 0 (String.length s) s = s.
Proof. induction s as [|c s IH]; simpl; [done|by rewrite IH]. Qed.

Lemma drop_tag b :
  let x := String.append "aes256gcm_" b in
  String.substring 10 (String.length x - 10) x = b.
Proof.
  cbv zeta. rewrite !append_cons, append_nil. simpl.
  rewrite Nat.sub_0_r. apply substring_all.
Qed.

(** [decrypt] accepts exactly the strings that start with "aes256gcm_"
    and returns what follows the tag; applied to what [encrypt] returns
    for some data, this is the hash [sha3_512_v11] of the data, not the
    data. *)
Theorem decrypt_strips_tag (EVP_sha512 : string -> option (list Byte.byte)) :
  (forall x y, decrypt x = Some y <-> x = String.append "aes256gcm_" y)
  /\ (forall data shard c,
        encrypt EVP_sha512 data shard = Some c ->
        decrypt c = Some (sha3_512_v11 EVP_sha512 data shard)).
Proof.
  assert (forall x y,
            decrypt x = Some y <-> x = String.append "aes256gcm_" y) as H.
  { intros x y. unfold decrypt. split.
    - destruct (empty x) eqn:Ex; simpl; [done|].
      destruct (starts_with x "aes256gcm_") eqn:Es; simpl; [|done].
      rewrite starts_with_prefix in Es. apply prefix_app in Es as [b ->].
      rewrite (drop_tag b). congruence.
    - intros ->. rewrite (drop_tag y), starts_with_app.
      by rewrite !append_cons. }
  split; [exact H|].
  intros data shard c. unfold encrypt.
  destruct (validateInput data); simpl; [|done].
  intros [= <-]. by apply H.
Qed.


(** Every non-empty token [generateAuthToken] returns, whatever the
    private key it was made for, is accepted by
    [Blockchain::authenticateUser] for every non-empty account. *)
Theorem generateAuthToken_authenticates
    (EVP_sha512 : string -> option (list Byte.byte))
    (now : Z) (key : string) (shard : Z)
    (bc : Ledger.Blockchain) (account : string) :
  let token := generateAuthToken EVP_sha512 now key shard in
  token <> EmptyString -> account <> EmptyString ->
  Ledger.authenticateUser bc account token = true.
Proof.
  intros token Htoken Haccount. unfold Ledger.authenticateUser.
  destruct account as [|c account]; [done|]. cbn [empty].
  assert (empty token = false) as -> by (by destruct token).
  destruct (String.eqb _ _); [done|]. cbn [negb andb].
  subst token. unfold generateAuthToken, sha3_512_v11 in *.
  destruct (validateInput _); simpl in *; [|done].
  destruct (EVP_sha512 _); [|done].
  apply contains_app.
Qed.

Lemma generateAuthToken_authenticates_witness :
  Ledger.authenticateUser LedgerFacts.sample_ledger "alice"
    (generateAuthToken (fun _ => Some [Byte.x3c; Byte.xa7]) 1700000000
       "priv_v11_00" 3) = true.
Proof.
  apply (generateAuthToken_authenticates
           (fun _ => Some [Byte.x3c; Byte.xa7]) 1700000000 "priv_v11_00" 3
           LedgerFacts.sample_ledger "alice"); discriminate.
Defined.

End CryptoFacts.

(** ** Shard assignment *)

Module ShardingFacts.
Import Sharding.

Section Hash.

Variable std_hash : string -> Z.

(** The member functions that write a [ShardingManager]. *)
Inductive call : Type :=
| AssignShard (dataId : string) (shardId : Z)
| SyncShards
| RebalanceShards.

Definition perform (sm : ShardingManager) (c : call) : ShardingManager :=
  match c with
  | AssignShard dataId shardId => assignShard std_hash sm dataId shardId
  | SyncShards => syncShards sm
  | RebalanceShards => rebalanceShards sm
  end.

(** The manager after a sequence of calls on a fresh one. *)
Definition run (calls : list call) : ShardingManager :=
  fold_left perform calls ShardingManager_new.

Definition shards_inv (sm : ShardingManager) : Prop :=
  shardCount_ sm = ACTIVE_SHARDS
  /\ forall d s, shardAssignments_ sm !! d = Some s -> 0 <= s < ACTIVE_SHARDS.

Lemma calculateShardId_range d :
  0 <= calculateShardId std_hash d < ACTIVE_SHARDS.
Proof.
  unfold calculateShardId, ACTIVE_SHARDS.
  pose proof (Z.mod_pos_bound (Dbl.wrapu64 (std_hash d)) 16 ltac:(lia)).
  rewrite MiningFacts.wrap32_small; lia.
Qed.

Lemma perform_shards_inv sm c : shards_inv sm -> shards_inv (perform sm c).
Proof.
  intros [Hc Ha]. destruct c as [d s| |]; simpl; [|done..].
  split; [done|]. intros d' s'. simpl. rewrite lookup_insert.
  case_decide; [|apply Ha]. intros [= <-]. rewrite Hc.
  destruct (Z.ltb_spec s 0); simpl; [apply calculateShardId_range|].
  destruct (Z.geb_spec s ACTIVE_SHARDS); [apply calculateShardId_range|lia].
Qed.

Lemma run_shards_inv calls : shards_inv (run calls).
Proof.
  unfold run.
  assert (shards_inv ShardingManager_new) as H0 by (split; done).
  revert H0. generalize ShardingManager_new.
  induction calls as [|c calls IH]; intros sm H; simpl; [done|].
  by apply IH, perform_shards_inv.
Qed.

(** After every sequence of calls on a constructed [ShardingManager],
    the shard count is 16 and [getShardForData] answers, for every data
    id, with a shard that [validateShard] accepts.  Right after
    [assignShard(d, s)], [getShardForData(d)] is [s] when [s] is a valid
    shard and the hash-derived shard of [d] otherwise, and the answer
    for every other data id is as before. *)
Theorem getShardForData_valid (calls : list call) (dataId : string) :
  let sm := run calls in
  getShardCount sm = 16
  /\ validateShard sm (getShardForData std_hash sm dataId) = true
  /\ (forall s,
        getShardForData std_hash (assignShard std_hash sm dataId s) dataId
        = if validateShard sm s then s else calculateShardId std_hash dataId)
  /\ (forall d s, d <> dataId ->
        getShardForData std_hash (assignShard std_hash sm d s) dataId
        = getShardForData std_hash sm dataId).
Proof.
  intros sm. destruct (run_shards_inv calls) as [Hc Ha]. fold sm in Hc, Ha.
  split; [exact Hc|]. split; [|split].
  - unfold validateShard, getShardForData. rewrite Hc.
    destruct (shardAssignments_ sm !! dataId) as [s|] eqn:E.
    + specialize (Ha _ _ E). apply andb_true_iff.
      split; [apply Z.geb_le|apply Z.ltb_lt]; lia.
    + pose proof (calculateShardId_range dataId). apply andb_true_iff.
      split; [apply Z.geb_le|apply Z.ltb_lt]; lia.
  - intros s. unfold getShardForData, assignShard, validateShard. simpl.
    rewrite lookup_insert_eq.
    destruct (Z.ltb_spec s 0), (Z.geb_spec s 0); try lia; simpl; [done|].
    destruct (Z.geb_spec s (shardCount_ sm)), (Z.ltb_spec s (shardCount_ sm));
      try lia; done.
  - intros d s Hne. unfold getShardForData, assignShard. simpl.
    by rewrite lookup_insert_ne.
Qed.

End Hash.

End ShardingFacts.

(** ** Building a transaction *)

Module TxBuildFacts.
Import Str StrFacts Ledger TxBuild.

Lemma signature_prefix HMAC_sha512 now rl data key shard :
  let sig := snd (Crypto.signTransaction HMAC_sha512 now rl data key shard) in
  sig <> EmptyString ->
  starts_with sig "hmac_v11_" = true /\ data <> EmptyString.
Proof.
  unfold Crypto.signTransaction.
  destruct (Crypto.allowRequest now rl) as [rl1 [|]]; simpl; [|done].
  destruct (Crypto.validateInput data) eqn:Ev; simpl; [|done].
  destruct (empty key); simpl; [done|]. intros _. split.
  - rewrite CryptoFacts.append_assoc. apply CryptoFacts.starts_with_app.
  - intros ->. done.
Qed.

Lemma proof_prefix EVP_sha512 rnd data shard :
  let p := Crypto.zkStarkProve_v11 EVP_sha512 rnd data shard in
  p <> EmptyString -> starts_with p "zk_proof_v11_" = true.
Proof.
  unfold Crypto.zkStarkProve_v11.
  destruct (Crypto.validateInput data); simpl; [|done].
  destruct rnd; [|done]. intros _. apply CryptoFacts.starts_with_app.
Qed.

(** A transaction the constructor returns has the sender, receiver,
    amount and fee it was given: neither address is empty or holds a
    semicolon or an opening angle bracket, the amount is not [<= 0], the
    fee is not [< 0], neither is above half the largest double, and the
    multi-signatures pass [validateMultiSignature].  It expires 86400
    seconds after its construction, and [verify] accepts it exactly at
    the times up to its expiry, provided its signature and its proof are
    not empty; with an empty signature or proof it is never accepted. *)
Theorem Transaction_new_verifies
    (EVP_sha512 : string -> option (list Byte.byte))
    (HMAC_sha512 : string -> string -> list Byte.byte)
    (std_hash : string -> Z) (to_string_double : float -> string)
    (now : Z) (rl : Crypto.RateLimiter) (sm : Sharding.ShardingManager)
    (zkRandom : option (list Byte.byte)) (sender_ receiver_ : string)
    (amount_ fee_ : float) (keyPair : Crypto.KeyPair) (shardId_ : Z)
    (rl' : Crypto.RateLimiter) (sm' : Sharding.ShardingManager)
    (tx : Transaction) :
  Transaction_new EVP_sha512 HMAC_sha512 std_hash to_string_double now rl sm
    zkRandom sender_ receiver_ amount_ fee_ keyPair shardId_
  = (rl', sm', inr tx) ->
  (sender tx = sender_ /\ receiver tx = receiver_
   /\ amount tx = amount_ /\ fee tx = fee_)
  /\ (sender_ <> EmptyString /\ receiver_ <> EmptyString
      /\ contains sender_ ";" = false /\ contains receiver_ ";" = false
      /\ contains sender_ "<" = false /\ contains receiver_ "<" = false)
  /\ ((amount_ <=? 0)%float = false /\ (fee_ <? 0)%float = false
      /\ (Dbl.DBL_MAX / 2 <? amount_)%float = false
      /\ (Dbl.DBL_MAX / 2 <? fee_)%float = false)
  /\ validateMultiSignature (multiSignatures tx) = true
  /\ expiresAt tx = now + 86400
  /\ (forall t,
        Transaction_verify t tx
        = (t <=? now + 86400) && negb (empty (signature tx))
          && negb (empty (zkProof tx))).
Proof.
  unfold Transaction_new.
  destruct (empty sender_) eqn:Es; [done|].
  destruct (empty receiver_) eqn:Er; [done|]. cbn [orb].
  destruct (amount_ <=? 0)%float eqn:Ea; [done|].
  destruct (fee_ <? 0)%float eqn:Ef; [done|].
  destruct (contains sender_ ";") eqn:C1; [done|].
  destruct (contains receiver_ ";") eqn:C2; [done|].
  destruct (contains sender_ "<") eqn:C3; [done|].
  destruct (contains receiver_ "<") eqn:C4; [done|]. cbn [orb].
  destruct (Dbl.DBL_MAX / 2 <? amount_)%float eqn:Oa; [done|].
  destruct (Dbl.DBL_MAX / 2 <? fee_)%float eqn:Of; [done|]. cbn [orb].
  cbv zeta.
  set (data := String.append sender_ _).
  set (txId := Crypto.sha3_512_v11 EVP_sha512 data shardId_).
  pose proof (signature_prefix HMAC_sha512 now rl txId
                (Crypto.privateKey keyPair) shardId_) as Hsig.
  destruct (Crypto.signTransaction _ _ _ _ _ _) as [rl1 sig].
  cbn [snd] in Hsig. cbv zeta in Hsig.
  pose proof (proof_prefix EVP_sha512 zkRandom txId shardId_) as Hzk.
  cbv zeta in Hzk. set (zk := Crypto.zkStarkProve_v11 _ _ _ _) in *.
  destruct (validateMultiSignature _) eqn:Em; [|done]. cbn [negb].
  destruct (preventDataLeak data); [done|].
  intros [= <- <- <-]. cbn [sender receiver amount fee multiSignatures
                           expiresAt signature zkProof].
  assert (sender_ <> EmptyString) by (intros ->; done).
  assert (receiver_ <> EmptyString) by (intros ->; done).
  repeat split; try done.
  intros t. unfold Transaction_verify.
  cbn [expiresAt txId Ledger.txId signature sender zkProof multiSignatures].
  rewrite Em. cbn [negb].
  destruct (Z.gtb_spec t (now + 86400)) as [Hgt|Hle].
  { destruct (Z.leb_spec t (now + 86400)); [lia|done]. }
  destruct (Z.leb_spec t (now + 86400)); [|lia]. cbn [andb].
  unfold verifyTransaction, zkStarkVerify_v11.
  destruct (empty sig) eqn:Esig.
  { by rewrite orb_true_r. }
  assert (sig <> EmptyString) as Hne by (intros ->; done).
  destruct (Hsig Hne) as [Hp Htx].
  assert (empty txId = false) as -> by (by destruct txId).
  rewrite Es, Hp. cbn [orb negb andb].
  destruct (empty zk) eqn:Ezk; [done|].
  assert (zk <> EmptyString) as Hzne by (intros Hz; by rewrite Hz in Ezk).
  by rewrite (Hzk Hzne).
Qed.

(** A transaction of 5 from "alice" to "bob", built with stand-ins for
    the library functions. *)
Definition sample_build
  : Crypto.RateLimiter * Sharding.ShardingManager
    * (exception + Transaction) :=
  Transaction_new (fun _ => Some [Byte.x5b; Byte.x0e])
    (fun _ _ => [Byte.xc4; Byte.x71]) (fun _ => 7)
    (fun _ => "5.000000"%string) 1700000000
    (Crypto.RateLimiter_new 20000 1700000000) Sharding.ShardingManager_new
    (Some [Byte.x11; Byte.x9a]) "alice" "bob" 5%float 0.125%float
    (Crypto.generateKeyPair 1700000000 (Some []) (fun _ => []) 0) 0.

Definition sample_tx : Transaction :=
  match sample_build with
  | (_, _, inr tx) => tx
  | _ => mkTransaction "" "" "" "" "" [] 0%float 0%float 0
  end.

Lemma Transaction_new_verifies_witness :
  expiresAt sample_tx = 1700000000 + 86400
  /\ Transaction_verify 1700086400 sample_tx = true
  /\ Transaction_verify 1700086401 sample_tx = false.
Proof.
  destruct (Transaction_new_verifies (fun _ => Some [Byte.x5b; Byte.x0e])
              (fun _ _ => [Byte.xc4; Byte.x71]) (fun _ => 7)
              (fun _ => "5.000000"%string) 1700000000
              (Crypto.RateLimiter_new 20000 1700000000)
              Sharding.ShardingManager_new
              (Some [Byte.x11; Byte.x9a]) "alice" "bob" 5%float 0.125%float
              (Crypto.generateKeyPair 1700000000 (Some []) (fun _ => []) 0) 0
              (fst (fst sample_build)) (snd (fst sample_build)) sample_tx)
    as (_ & _ & _ & _ & Hexp & Hverify); [by vm_compute|].
  split; [exact Hexp|]. rewrite !Hverify. split; by vm_compute.
Defined.

End TxBuildFacts.

(** ** The range of the difficulty *)

Module DifficultyFacts.
Import Dbl Mining.

Lemma div_zero_positive a :
  (0 <? a)%float = true -> (a / 0)%float = infinity.
Proof.
  rewrite ltb_spec. change (Prim2SF 0) with (S754_zero false).
  intros H. apply Prim2SF_inj. rewrite div_spec.
  change (Prim2SF 0) with (S754_zero false).
  change (Prim2SF infinity) with (S754_infinity false).
  unfold SFltb in H.
  destruct (Prim2SF a) as [s|[]| |[] m e]; simpl in *; done.
Qed.

(** The difficulty never leaves [[1, 512]]: not under any sequence of
    calls on a [MiningManager], and not in one step of any of the three
    adjustment functions, each of which moves it by at most 2 whatever
    the two block times are.  [MiningManager::adjustDifficulty] of the
    header does nothing for a target time that is not positive; the
    free function has no such test, and for a target of 0 and a
    positive actual time it lowers the difficulty by 2, not below 1. *)
Theorem difficulty_stays_in_range :
  (forall calls, 1 <= getDifficulty (MiningFacts.run calls) <= 512)
  /\ (forall mm a t,
        1 <= getDifficulty mm <= 512 ->
        let d := getDifficulty mm in
        let d1 := getDifficulty (adjustDifficulty mm a t) in
        let d2 := getDifficulty (adjustDifficulty_cpp mm a t) in
        let d3 := Ledger.adjustDifficulty d a t in
        (1 <= d1 <= 512 /\ Z.abs (d1 - d) <= 2)
        /\ (1 <= d2 <= 512 /\ Z.abs (d2 - d) <= 2)
        /\ (1 <= d3 <= 512 /\ Z.abs (d3 - d) <= 2))
  /\ (forall mm a t, (t <=? 0)%float = true -> adjustDifficulty mm a t = mm)
  /\ (forall d a,
        1 <= d <= 512 -> (0 <? a)%float = true ->
        Ledger.adjustDifficulty d a 0 = Z.max (d - 2) 1).
Proof.
  split; [|split; [|split]].
  - intros calls. apply (MiningFacts.run_inv calls).
  - intros mm a t Hd. cbv zeta.
    unfold adjustDifficulty, adjustDifficulty_cpp, Ledger.adjustDifficulty,
      getDifficulty, MAX_DIFFICULTY, MIN_DIFFICULTY in *.
    destruct (t <=? 0)%float; simpl;
      rewrite !MiningFacts.wrap32_small by lia;
      repeat destruct (_ <? _)%float; lia.
  - intros mm a t Ht. by apply MiningFacts.adjustDifficulty_guard.
  - intros d a Hd Ha. unfold Ledger.adjustDifficulty.
    rewrite (div_zero_positive a Ha).
    change (infinity <? 0.5)%float with false.
    change (infinity <? 0.75)%float with false.
    change (2.0 <? infinity)%float with true. cbv iota.
    by rewrite MiningFacts.wrap32_small by lia.
Qed.

End DifficultyFacts.

(** ** Proof of work *)

Module PowFacts.
Import Mining Pow StrFacts.

(** Strings as lists of characters. *)
Lemma substring_take n s :
  String.substring 0 n s
  = string_of_list_ascii (take n (list_ascii_of_string s)).
Proof.
  revert s. induction n as [|n IH]; intros [|c s]; simpl; try done.
  by rewrite IH.
Qed.

(** The string of [d] zeros that [target] holds when its constructor
    does not throw. *)
Definition zeros (d : Z) : string :=
  string_of_list_ascii (repeat "0"%char (Z.to_nat d)).

Lemma target_nonneg d : 0 <= d -> target d = Some (zeros d).
Proof.
  intros Hd. unfold target, Str.fill.
  by destruct (Z.ltb_spec d 0); [lia|].
Qed.

Lemma target_negative d : d < 0 -> target d = None.
Proof.
  intros Hd. unfold target, Str.fill.
  by destruct (Z.ltb_spec d 0); [|lia].
Qed.

Lemma string_of_list_ascii_inj l l' :
  string_of_list_ascii l = string_of_list_ascii l' -> l = l'.
Proof.
  intros H. rewrite <- (list_ascii_of_string_of_list_ascii l),
    <- (list_ascii_of_string_of_list_ascii l'). by rewrite H.
Qed.

Lemma list_ascii_of_string_length s :
  length (list_ascii_of_string s) = String.length s.
Proof. induction s as [|c s IH]; simpl; [done|by rewrite IH]. Qed.

(** [substr(0, count)] keeps the first [count] characters, all of them
    when there are fewer. *)
Lemma substr0_take hash d :
  0 <= d < 2 ^ 64 ->
  Str.substr0 hash d
  = string_of_list_ascii (take (Z.to_nat d) (list_ascii_of_string hash)).
Proof.
  intros Hd. unfold Str.substr0. rewrite substring_take. f_equal.
  rewrite Z.mod_small by done.
  rewrite Z2Nat.inj_min, Nat2Z.id, <- list_ascii_of_string_length.
  rewrite <- take_take. by rewrite firstn_all.
Qed.

Lemma substr0_length hash d :
  (String.length (Str.substr0 hash d) <= String.length hash)%nat.
Proof.
  unfold Str.substr0. rewrite substring_take.
  rewrite <- !list_ascii_of_string_length.
  rewrite list_ascii_of_string_of_list_ascii, length_take. lia.
Qed.

Lemma meets_target_take hash d :
  0 <= d < 2 ^ 64 ->
  meets_target hash d (zeros d) = true
  <-> take (Z.to_nat d) (list_ascii_of_string hash)
      = repeat "0"%char (Z.to_nat d).
Proof.
  intros Hd. unfold meets_target, zeros.
  rewrite String.eqb_eq, substr0_take by done.
  split; [apply string_of_list_ascii_inj|by intros ->].
Qed.

Definition hash_chars (hash : Z) : list ascii :=
  map (fun i => hex_char (Z.land (Z.shiftr hash (i mod 16)) 15)) (seqZ 0 64).

Lemma hash_string_chars h : list_ascii_of_string (hash_string h) = hash_chars h.
Proof. apply list_ascii_of_string_of_list_ascii. Qed.

Lemma hash_chars_length h : length (hash_chars h) = 64%nat.
Proof. unfold hash_chars. by rewrite length_map, length_seqZ. Qed.

Lemma hash_chars_period h :
  hash_chars h
  = take 16 (hash_chars h) ++ take 16 (hash_chars h)
    ++ take 16 (hash_chars h) ++ take 16 (hash_chars h).
Proof. reflexivity. Qed.

Lemma string_of_list_ascii_length l :
  String.length (string_of_list_ascii l) = length l.
Proof. induction l as [|c l IH]; simpl; [done|by rewrite IH]. Qed.

Lemma string_of_list_ascii_app l l' :
  string_of_list_ascii (l ++ l')
  = String.append (string_of_list_ascii l) (string_of_list_ascii l').
Proof.
  induction l as [|c l IH]; simpl; [done|].
  by rewrite IH, append_cons.
Qed.

Lemma hex_char_digit n :
  In (hex_char (Z.land n 15)) (list_ascii_of_string "0123456789abcdef").
Proof.
  unfold hex_char. apply nth_In.
  change 15 with (Z.ones 4). rewrite Z.land_ones by lia.
  pose proof (Z.mod_pos_bound n (2 ^ 4) ltac:(lia)).
  change (length (list_ascii_of_string "0123456789abcdef")) with 16%nat.
  change (2 ^ 4) with 16 in *. lia.
Qed.

Lemma nibble_low h k :
  0 <= k <= 15 ->
  Z.land (Z.shiftr (h mod 2 ^ 19) k) 15 = Z.land (Z.shiftr h k) 15.
Proof.
  intros Hk. apply Z.bits_inj'. intros n Hn.
  rewrite !Z.land_spec, !Z.shiftr_spec by lia.
  destruct (Z.ltb_spec n 4) as [Hlow|Hhigh].
  - by rewrite Z.mod_pow2_bits_low by lia.
  - change 15 with (Z.ones 4). rewrite Z.ones_spec_high by lia.
    by rewrite !andb_false_r.
Qed.

Lemma hash_string_low h : hash_string (h mod 2 ^ 19) = hash_string h.
Proof.
  unfold hash_string. f_equal. apply map_ext_in. intros i Hi.
  f_equal. apply nibble_low.
  pose proof (Z.mod_pos_bound i 16 ltac:(lia)). lia.
Qed.

(** The string [generateHash] returns has 64 characters, each a
    lower-case hexadecimal digit, and is four copies of its first 16
    characters; it is fixed by the 19 low bits of the value [std::hash]
    gives, so that no more than 2^19 different strings come out. *)
Theorem generateHash_shape (std_hash : string -> Z) (data : string)
    (nonce shardId : Z) :
  let h := generateHash std_hash data nonce shardId in
  let p := String.substring 0 16 h in
  String.length h = 64%nat
  /\ Forall (fun c => In c (list_ascii_of_string "0123456789abcdef"))
            (list_ascii_of_string h)
  /\ h = String.append p (String.append p (String.append p p))
  /\ h = hash_string
           (std_hash (String.append data
                        (String.append (pretty nonce) (pretty shardId)))
            mod 2 ^ 19).
Proof.
  intros h p. subst h p. unfold generateHash.
  split; [|split; [|split]]; cycle 3.
  { rewrite <- (hash_string_low (Dbl.wrapu64 _)). f_equal.
    unfold Dbl.wrapu64. apply Z.mod_mod_divide.
    exists (2 ^ 45). reflexivity. }
  all: set (hash := Dbl.wrapu64 _); clearbody hash.
  - unfold hash_string. rewrite string_of_list_ascii_length.
    apply hash_chars_length.
  - rewrite hash_string_chars. unfold hash_chars.
    apply List.Forall_forall. intros c Hc.
    apply in_map_iff in Hc as (i & <- & _). apply hex_char_digit.
  - rewrite substring_take, hash_string_chars.
    rewrite <- !string_of_list_ascii_app.
    unfold hash_string. f_equal; try apply hash_chars_period.
Qed.

(** *** What a difficulty asks of the hash *)

Lemma meets_target_zero hash : meets_target hash 0 (zeros 0) = true.
Proof. by apply meets_target_take. Qed.

Lemma meets_target_above h d :
  64 < d -> meets_target (hash_string h) d (zeros d) = false.
Proof.
  intros Hd. apply not_true_is_false. unfold meets_target.
  rewrite String.eqb_eq. intros H.
  pose proof (substr0_length (hash_string h) d) as Hlen.
  rewrite H in Hlen. unfold zeros, hash_string in Hlen.
  rewrite !string_of_list_ascii_length, repeat_length in Hlen.
  fold (hash_chars h) in Hlen. rewrite hash_chars_length in Hlen. lia.
Qed.

Lemma repeat_take {A} (x : A) n m :
  (n <= m)%nat -> take n (repeat x m) = repeat x n.
Proof.
  revert m. induction n as [|n IH]; intros [|m] H; simpl; try done; [lia|].
  rewrite IH by lia. done.
Qed.

Lemma meets_target_saturates h d :
  16 <= d <= 64 ->
  meets_target (hash_string h) d (zeros d)
  = meets_target (hash_string h) 16 (zeros 16).
Proof.
  intros Hd. apply eq_true_iff_eq. rewrite !meets_target_take by lia.
  rewrite hash_string_chars.
  change (Z.to_nat 16) with 16%nat.
  split; intros H.
  - apply (f_equal (take 16)) in H.
    rewrite take_take, repeat_take in H by lia.
    by replace (16 `min` Z.to_nat d)%nat with 16%nat in H by lia.
  - rewrite hash_chars_period, H.
    change (repeat "0"%char 16 ++ repeat "0"%char 16
            ++ repeat "0"%char 16 ++ repeat "0"%char 16)
      with (repeat "0"%char 64).
    apply repeat_take. lia.
Qed.

(** *** The search for a nonce *)

Lemma attempts_pos :
  exists k, Z.to_nat MAX_NONCE_ATTEMPTS = S k /\ 0 <= MAX_NONCE_ATTEMPTS.
Proof.
  assert (0 < MAX_NONCE_ATTEMPTS) as H by reflexivity.
  exists (Z.to_nat (MAX_NONCE_ATTEMPTS - 1)). split; [|lia].
  rewrite <- Z2Nat.inj_succ by lia. f_equal; lia.
Qed.

Section Search.

Variable std_hash : string -> Z.

Lemma mine_loop_outcome attempts data d t n hash shard :
  match mine_loop std_hash attempts data d t n hash shard with
  | (n', h', true) =>
      n <= n' < n + Z.of_nat attempts
      /\ h' = generateHash std_hash data n' shard
      /\ meets_target h' d t = true
      /\ (forall m, n <= m < n' ->
            meets_target (generateHash std_hash data m shard) d t = false)
  | (n', h', false) =>
      n' = n + Z.of_nat attempts
      /\ h' = match attempts with
              | O => hash
              | S _ => generateHash std_hash data (n' - 1) shard
              end
      /\ (forall m, n <= m < n' ->
            meets_target (generateHash std_hash data m shard) d t = false)
  end.
Proof.
  revert n hash. induction attempts as [|k IH]; intros n hash.
  - simpl. split; [lia|]. split; [done|]. intros; lia.
  - cbn [mine_loop].
    destruct (meets_target (generateHash std_hash data n shard) d t) eqn:E.
    + split; [lia|]. split; [done|]. split; [done|]. intros; lia.
    + specialize (IH (n + 1) (generateHash std_hash data n shard)).
      destruct (mine_loop _ _ _ _ _ _ _ _) as [[n' h'] [|]].
      * destruct IH as (Hn & Hh & Hm & Hleast).
        split; [lia|]. split; [done|]. split; [done|].
        intros m Hm'. destruct (decide (m = n)) as [->|]; [done|].
        apply Hleast. lia.
      * destruct IH as (Hn & Hh & Hnone). split; [lia|]. split.
        -- destruct k; [|done]. subst. f_equal. lia.
        -- intros m Hm'. destruct (decide (m = n)) as [->|]; [done|].
           apply Hnone. lia.
Qed.

Lemma mine_loop_difficulty attempts data d t d' t' n hash shard :
  (forall h, meets_target (hash_string h) d t
             = meets_target (hash_string h) d' t') ->
  mine_loop std_hash attempts data d t n hash shard
  = mine_loop std_hash attempts data d' t' n hash shard.
Proof.
  intros Hd. revert n hash. induction attempts as [|k IH]; intros n hash.
  - done.
  - cbn [mine_loop]. unfold generateHash at 1 3. rewrite Hd.
    destruct (meets_target _ d' t'); [done|]. apply IH.
Qed.

(** A successful [mineBlock] had a target, and the hash it leaves meets
    it. *)
Lemma mineBlock_success_meets (mm : MiningManager) (data : string)
    (difficulty nonce : Z) (hash : string) (shardId n : Z) (h : string) :
  mineBlock std_hash mm data difficulty nonce hash shardId
  = Finished (n, h, true) ->
  exists t, target difficulty = Some t
            /\ meets_target h difficulty t = true.
Proof.
  unfold mineBlock. destruct (checkMiningLimit mm); [|done]. cbn [negb].
  destruct (target difficulty) as [t|]; [|done].
  generalize (Z.to_nat MAX_NONCE_ATTEMPTS). intros attempts.
  pose proof (mine_loop_outcome attempts data difficulty t 0 hash shardId)
    as H.
  intros [= E]. rewrite E in H. exists t. tauto.
Qed.

(** When the supply cap is reached, [mineBlock] returns false and leaves
    [nonce] and [hash] as they were, whatever the difficulty.  Otherwise
    a negative difficulty ends the program: the constructor of [target]
    throws inside the [noexcept] function.  For a difficulty that is not
    negative it tries the nonces 0, 1, 2, ... below [MAX_NONCE_ATTEMPTS]
    in turn: it returns true with the least nonce whose hash starts with
    [difficulty] zeros and with that hash; and false, with [nonce] at
    [MAX_NONCE_ATTEMPTS] and the hash of the last nonce tried, when no
    nonce below the bound has such a hash. *)
Theorem mineBlock_least_nonce (mm : MiningManager) (data : string)
    (difficulty nonce : Z) (hash : string) (shardId : Z) :
  if checkMiningLimit mm then
    if difficulty <? 0 then
      mineBlock std_hash mm data difficulty nonce hash shardId = Terminated
    else
      let t := zeros difficulty in
      match mineBlock std_hash mm data difficulty nonce hash shardId with
      | Finished (n, h, true) =>
          0 <= n < MAX_NONCE_ATTEMPTS
          /\ h = generateHash std_hash data n shardId
          /\ meets_target h difficulty t = true
          /\ (forall m, 0 <= m < n ->
                meets_target (generateHash std_hash data m shardId)
                  difficulty t = false)
      | Finished (n, h, false) =>
          n = MAX_NONCE_ATTEMPTS
          /\ h = generateHash std_hash data (MAX_NONCE_ATTEMPTS - 1) shardId
          /\ (forall m, 0 <= m < MAX_NONCE_ATTEMPTS ->
                meets_target (generateHash std_hash data m shardId)
                  difficulty t = false)
      | Terminated => False
      end
  else
    mineBlock std_hash mm data difficulty nonce hash shardId
    = Finished (nonce, hash, false).
Proof.
  unfold mineBlock. destruct (checkMiningLimit mm); [|done]. cbn [negb].
  destruct (Z.ltb_spec difficulty 0) as [Hneg|Hpos'].
  { by rewrite target_negative. }
  rewrite target_nonneg by done. cbv zeta.
  destruct attempts_pos as (k & Hk & Hpos). rewrite Hk.
  pose proof (mine_loop_outcome (S k) data difficulty (zeros difficulty) 0
                hash shardId) as H.
  rewrite <- Hk, Z2Nat.id in H by lia. rewrite Hk in H.
  destruct (mine_loop _ _ _ _ _ _ _ _) as [[n h] [|]]; [exact H|].
  destruct H as (-> & Hh & Hnone). done.
Qed.

(** While the supply cap is not reached: at difficulty 0 [mineBlock]
    succeeds at once with nonce 0; at a difficulty above 64, the length
    of a hash, it tries every nonce and fails; and from difficulty 16 to
    64 it does what it does at difficulty 16. *)
Theorem mineBlock_difficulty_edges (mm : MiningManager) (data : string)
    (nonce : Z) (hash : string) (shardId : Z) :
  checkMiningLimit mm = true ->
  mineBlock std_hash mm data 0 nonce hash shardId
  = Finished (0, generateHash std_hash data 0 shardId, true)
  /\ (forall d, 64 < d ->
        mineBlock std_hash mm data d nonce hash shardId
        = Finished (MAX_NONCE_ATTEMPTS,
                    generateHash std_hash data (MAX_NONCE_ATTEMPTS - 1)
                      shardId,
                    false))
  /\ (forall d, 16 <= d <= 64 ->
        mineBlock std_hash mm data d nonce hash shardId
        = mineBlock std_hash mm data 16 nonce hash shardId).
Proof.
  intros Hlimit. split; [|split].
  - unfold mineBlock. rewrite Hlimit. cbn [negb].
    rewrite target_nonneg by lia.
    destruct attempts_pos as (k & -> & _).
    cbn [mine_loop]. by rewrite meets_target_zero.
  - intros d Hd.
    unfold mineBlock. rewrite Hlimit. cbn [negb].
    rewrite target_nonneg by lia.
    destruct attempts_pos as (k & Hk & Hpos). rewrite Hk.
    pose proof (mine_loop_outcome (S k) data d (zeros d) 0 hash shardId)
      as H.
    rewrite <- Hk, Z2Nat.id in H by lia. rewrite Hk in H.
    destruct (mine_loop _ _ _ _ _ _ _ _) as [[n h] [|]].
    + destruct H as (_ & -> & Hm & _).
      unfold generateHash in Hm. by rewrite meets_target_above in Hm.
    + by destruct H as (-> & -> & _).
  - intros d Hd. unfold mineBlock. rewrite Hlimit. cbn [negb].
    rewrite !target_nonneg by lia. f_equal.
    apply mine_loop_difficulty. intros h. by apply meets_target_saturates.
Qed.

(** Once the counter of the [MiningManager] stands at the cap, mining
    is closed: [checkMiningLimit] fails, [mineBlock] and [Block::mine]
    return false without touching their arguments, and [addMinedCoins]
    of an amount that is not negative leaves the counter at the cap. *)
Theorem mining_stops_at_cap (mm : MiningManager) :
  totalMinedCoins_ mm = maxSatoshis ->
  checkMiningLimit mm = false
  /\ (forall data difficulty nonce hash shardId,
        mineBlock std_hash mm data difficulty nonce hash shardId
        = Finished (nonce, hash, false))
  /\ (forall b merkleRoot timestamp nonce,
        Block_mine std_hash mm b merkleRoot timestamp nonce
        = Finished (mm, b, nonce, false))
  /\ (forall amount,
        0 <= Dbl.to_int64 (amount * 100000000)%float < 2 ^ 63 - maxSatoshis ->
        totalMinedCoins_ (addMinedCoins mm amount) = maxSatoshis).
Proof.
  intros Hcap.
  assert (checkMiningLimit mm = false) as Hlimit.
  { unfold checkMiningLimit, getTotalMinedCoins. by rewrite Hcap. }
  split; [done|]. split; [|split].
  - intros. unfold mineBlock. by rewrite Hlimit.
  - intros. unfold Block_mine. by rewrite Hlimit.
  - intros amount Ha. unfold addMinedCoins. rewrite Hcap.
    rewrite MiningFacts.maxSatoshis_value in *.
    rewrite MiningFacts.wrap64_small by lia.
    destruct (Z.gtb_spec (300000000000000
                          + Dbl.to_int64 (amount * 100000000)%float)
                         300000000000000); simpl; lia.
Qed.

End Search.

Lemma mineBlock_difficulty_edges_witness :
  mineBlock (fun _ => 5) MiningManager_new "block" 0 7 "" 3
  = Finished (0, generateHash (fun _ => 5) "block" 0 3, true).
Proof.
  destruct (mineBlock_difficulty_edges (fun _ => 5) MiningManager_new "block"
              7 "" 3 eq_refl) as [H _].
  exact H.
Defined.

Lemma mining_stops_at_cap_witness :
  checkMiningLimit (mkMiningManager 300000000000000 4) = false.
Proof.
  apply (mining_stops_at_cap (fun _ => 0) (mkMiningManager 300000000000000 4)).
  reflexivity.
Defined.

End PowFacts.

(** ** The chain of blocks *)

Module ChainFacts.
Import Str StrFacts Ledger Chain.

Lemma genesis_block_valid sha3 now i :
  Block_validate now (genesis_block sha3 i) = Returned true.
Proof.
  unfold Block_validate, genesis_block. cbn [prevHash isOrphaned Block_new].
  by rewrite CryptoFacts.starts_with_app.
Qed.

Lemma in_tail {A} (x : A) l : In x (tail l) -> In x l.
Proof. destruct l; simpl; auto. Qed.

(** *** When [validate] throws *)

(** [validate] throws for the blocks that are not genesis blocks and
    have a negative difficulty, and for no other. *)
Lemma Block_validate_throws now b :
  Block_validate now b <> ReentrancyFault
  /\ (Block_validate now b = LengthError
      <-> starts_with (prevHash b) "genesis_" = false /\ difficulty b < 0).
Proof.
  unfold Block_validate, fill.
  destruct (starts_with (prevHash b) "genesis_").
  { split; [done|]. split; [done|]. by intros [? _]. }
  destruct (Z.ltb_spec (difficulty b) 0) as [Hneg|Hpos].
  { split; [done|]. by split. }
  destruct (negb (String.eqb _ _)).
  { split; [done|]. split; [done|]. intros [_ ?]. lia. }
  destruct (negb (forallb _ _));
    (split; [done|]; split; [done|]; intros [_ ?]; lia).
Qed.

Lemma Block_validate_returns now b :
  starts_with (prevHash b) "genesis_" = true \/ 0 <= difficulty b ->
  exists r, Block_validate now b = Returned r.
Proof.
  intros H. destruct (Block_validate_throws now b) as [Hre Hlen].
  destruct (Block_validate now b) as [r| |] eqn:E; [by exists r|done|].
  destruct Hlen as [Hlen _]. destruct Hlen as [Hg Hd]; [done|].
  destruct H as [H|H]; [congruence|lia].
Qed.

(** A block that [validate] accepts is a genesis block or has a
    difficulty that is not negative. *)
Lemma Block_validate_accepts now b :
  Block_validate now b = Returned true ->
  starts_with (prevHash b) "genesis_" = true \/ 0 <= difficulty b.
Proof.
  unfold Block_validate, fill.
  destruct (starts_with (prevHash b) "genesis_"); [by left|].
  destruct (Z.ltb_spec (difficulty b) 0); [done|]. by right.
Qed.

(** The blocks after the first on which [validate] can be called without
    an exception. *)
Definition no_throw (blocks : list Block) : Prop :=
  Forall (fun b => starts_with (prevHash b) "genesis_" = true
                   \/ 0 <= difficulty b) (tail blocks).

Lemma validate_from_true now l :
  validate_from now l = Returned true
  <-> Forall (fun b => Block_validate now b = Returned true) l.
Proof.
  induction l as [|b l IH]; simpl; [by split|].
  destruct (Block_validate now b) as [[|]| |] eqn:E.
  - rewrite IH. split; [by constructor|by inversion 1].
  - split; [done|]. inversion 1; congruence.
  - split; [done|]. inversion 1; congruence.
  - split; [done|]. inversion 1; congruence.
Qed.

Lemma validate_from_returns now l :
  Forall (fun b => starts_with (prevHash b) "genesis_" = true
                   \/ 0 <= difficulty b) l ->
  exists r, validate_from now l = Returned r.
Proof.
  induction 1 as [|b l Hb _ IH]; simpl; [by exists true|].
  destruct (Block_validate_returns now b Hb) as [[|] ->]; [done|].
  by exists false.
Qed.

Lemma tail_snoc {A} (l : list A) x :
  l <> [] -> tail (l ++ [x]) = tail l ++ [x].
Proof. by destruct l. Qed.

(** A constructed [Blockchain] has sixteen blocks and passes
    [validateChain] at every time; nothing is mined, mining is open, no
    public balance exists, and the one hidden balance is 2,000,000 under
    the founder's stealth address. *)
Theorem Blockchain_new_valid (sha3 : string -> Z -> string)
    (stealthKeyPair : Crypto.KeyPair) :
  let bc := Blockchain_new sha3 stealthKeyPair in
  (forall now, validateChain now bc = Returned true)
  /\ getChainLength bc = 16
  /\ Ledger.getTotalMinedCoins bc = 0%float
  /\ Ledger.checkMiningLimit bc = true
  /\ balances bc = ∅
  /\ hiddenBalances bc = {[ founderStealthAddress bc := 2000000.0%float ]}.
Proof.
  intros bc. split; [|by repeat split].
  intros now. unfold validateChain. apply validate_from_true.
  apply List.Forall_forall. intros b Hb. apply in_tail in Hb.
  apply in_map_iff in Hb as (i & <- & _).
  apply genesis_block_valid.
Qed.

(** [addBlock] throws the guard's [std::runtime_error] exactly when
    [isAddingBlock] is set, and the [std::length_error] of [validate]
    exactly when the flag is clear and the block is not a genesis block
    and has a negative difficulty; either way the ledger is as before.
    Otherwise it returns whether the block passes [validate]: a block
    that fails leaves the ledger as it is; a block that passes is
    appended at the end, the balances stay as they are, and a chain that
    passed [validateChain] still passes it.  No call puts a block on the
    chain for which [validate] throws. *)
Theorem addBlock_extends_valid_chain (now : Z) (bc : Blockchain) (b : Block) :
  match addBlock now bc b with
  | (bc', Returned true) =>
      isAddingBlock bc = false
      /\ Block_validate now b = Returned true
      /\ chain bc' = chain bc ++ [b]
      /\ getChainLength bc' = getChainLength bc + 1
      /\ balances bc' = balances bc
      /\ hiddenBalances bc' = hiddenBalances bc
      /\ (validateChain now bc = Returned true ->
          validateChain now bc' = Returned true)
  | (bc', Returned false) =>
      isAddingBlock bc = false
      /\ Block_validate now b = Returned false
      /\ bc' = bc
  | (bc', ReentrancyFault) => isAddingBlock bc = true /\ bc' = bc
  | (bc', LengthError) =>
      isAddingBlock bc = false
      /\ starts_with (prevHash b) "genesis_" = false
      /\ difficulty b < 0
      /\ bc' = bc
  end
  /\ (isAddingBlock bc = false ->
      starts_with (prevHash b) "genesis_" = false ->
      difficulty b < 0 ->
      addBlock now bc b = (bc, LengthError))
  /\ (no_throw (chain bc) -> no_throw (chain (fst (addBlock now bc b)))).
Proof.
  destruct (Block_validate_throws now b) as [Hre Hlen].
  split; [|split].
  - unfold addBlock. destruct (isAddingBlock bc) eqn:Hflag; [done|].
    destruct (Block_validate now b) as [[|]| |] eqn:Hb; [|done|done|].
    + repeat split; try done.
      * unfold getChainLength. simpl. rewrite length_app. simpl. lia.
      * unfold validateChain. simpl. rewrite !validate_from_true.
        destruct (chain bc) as [|b0 l]; [done|]. simpl.
        intros Hl. apply Forall_app. split; [done|]. by constructor.
    + destruct Hlen as [[Hg Hd] _]; done.
  - intros Hflag Hg Hd. unfold addBlock. rewrite Hflag.
    destruct Hlen as [_ ->]; done.
  - unfold addBlock. destruct (isAddingBlock bc); [done|].
    destruct (Block_validate now b) as [[|]| |] eqn:Hb; try done.
    unfold no_throw. cbn [fst chain]. intros Hbc.
    destruct (chain bc) as [|b0 l]; [by constructor|].
    rewrite tail_snoc by done. apply Forall_app. split; [done|].
    constructor; [|done]. by eapply Block_validate_accepts.
Qed.

Lemma Transaction_verify_earlier t t' tx :
  t' <= t -> Transaction_verify t tx = true -> Transaction_verify t' tx = true.
Proof.
  unfold Transaction_verify. intros Ht.
  destruct (Z.gtb_spec t (expiresAt tx)); [done|].
  destruct (Z.gtb_spec t' (expiresAt tx)); [lia|done].
Qed.

Lemma Block_validate_earlier t t' b :
  t' <= t ->
  Block_validate t b = Returned true -> Block_validate t' b = Returned true.
Proof.
  unfold Block_validate. intros Ht.
  destruct (starts_with _ _); [done|].
  destruct (fill _ _) as [target|]; [|done].
  destruct (negb (String.eqb _ _)); [done|].
  destruct (forallb (Transaction_verify t) _) eqn:E; [|done]. simpl.
  assert (forallb (Transaction_verify t') (transactions b) = true) as ->;
    [|done].
  rewrite forallb_forall in *. intros tx Hin.
  eapply Transaction_verify_earlier; eauto.
Qed.

(** [validateChain] depends on the clock: a chain it accepts at some
    time it accepts at every earlier time; and once the clock is past the
    expiry of a transaction held in a block after the first one whose
    [prevHash] does not begin with "genesis_", it does not accept the
    chain: it rejects it, unless [validate] throws for one of the
    blocks.  That does not happen on a chain that holds, after the first
    block, only genesis blocks and blocks of a difficulty that is not
    negative, as the chains do that the constructor and [addBlock]
    build: on these [validateChain] returns at every time.  The free
    function [deepValidateChain] gives the same verdicts. *)
Theorem validateChain_until_expiry (bc : Blockchain) :
  (forall t, deepValidateChain t (chain bc) = validateChain t bc)
  /\ (forall t t', t' <= t ->
        validateChain t bc = Returned true ->
        validateChain t' bc = Returned true)
  /\ (forall i b tx t,
        chain bc !! S i = Some b ->
        starts_with (prevHash b) "genesis_" = false ->
        In tx (transactions b) ->
        expiresAt tx < t ->
        validateChain t bc <> Returned true
        /\ (no_throw (chain bc) -> validateChain t bc = Returned false))
  /\ (no_throw (chain bc) ->
      forall t, exists r, validateChain t bc = Returned r)
  /\ (forall sha3 stealthKeyPair,
        no_throw (chain (Blockchain_new sha3 stealthKeyPair))).
Proof.
  assert (forall i b tx t,
            chain bc !! S i = Some b ->
            starts_with (prevHash b) "genesis_" = false ->
            In tx (transactions b) ->
            expiresAt tx < t ->
            validateChain t bc <> Returned true) as Hexpired.
  { intros i b tx t Hb Hgen Htx Hexp. unfold validateChain.
    rewrite validate_from_true, List.Forall_forall. intros H.
    assert (In b (tail (chain bc))) as Hin.
    { destruct (chain bc) as [|b0 l]; [done|]. simpl in *.
      apply list_elem_of_In. by eapply list_elem_of_lookup_2. }
    specialize (H b Hin). unfold Block_validate in H. rewrite Hgen in H.
    destruct (fill _ _) as [target|]; [|done].
    destruct (negb (String.eqb _ _)); [done|].
    destruct (forallb (Transaction_verify t) (transactions b)) eqn:E;
      [|done].
    rewrite forallb_forall in E. specialize (E tx Htx).
    unfold Transaction_verify in E.
    destruct (Z.gtb_spec t (expiresAt tx)); [done|lia]. }
  split; [|split; [|split; [|split]]].
  - intros t. unfold deepValidateChain, validateChain.
    by destruct (chain bc).
  - intros t t' Ht. unfold validateChain. rewrite !validate_from_true.
    intros H. eapply Forall_impl; [exact H|].
    intros b. by apply Block_validate_earlier.
  - intros i b tx t Hb Hgen Htx Hexp.
    pose proof (Hexpired i b tx t Hb Hgen Htx Hexp) as Hno.
    split; [done|]. intros Hbc.
    destruct (validate_from_returns t _ Hbc) as [[|] Hr]; [done|].
    exact Hr.
  - intros Hbc t. by apply validate_from_returns.
  - intros sha3 stealthKeyPair. unfold no_throw.
    apply List.Forall_forall. intros b Hb. apply in_tail in Hb.
    apply in_map_iff in Hb as (i & <- & _). left.
    unfold genesis_block. cbn [prevHash].
    by rewrite CryptoFacts.starts_with_app.
Qed.

(** A block that [Block::mine] has mined passes the difficulty test of
    [validate]: when it is not orphaned and its transactions verify,
    [addBlock] appends it.  Mining adds the block's reward to the
    counter of the [MiningManager]; a failed attempt leaves the manager
    as it is. *)
Theorem mined_block_is_accepted (std_hash : string -> Z)
    (mm : Mining.MiningManager) (b : Block) (merkleRoot : string)
    (timestamp nonce now : Z) (bc : Blockchain) :
  0 <= difficulty b ->
  isOrphaned b = false ->
  forallb (Transaction_verify now) (transactions b) = true ->
  isAddingBlock bc = false ->
  match Pow.Block_mine std_hash mm b merkleRoot timestamp nonce with
  | Pow.Finished (mm', b', _, true) =>
      Block_validate now b' = Returned true
      /\ addBlock now bc b'
         = (mkBlockchain (chain bc ++ [b']) (balances bc) (hiddenBalances bc)
              (founderStealthAddress bc)
              (Dbl.wrap64 (totalMinedCoins bc
                           + Dbl.to_int64 (reward b * 100000000)%float))
              false (isTransferring bc),
            Returned true)
      /\ mm' = Mining.addMinedCoins mm (reward b)
  | Pow.Finished (mm', _, _, false) => mm' = mm
  | Pow.Terminated => False
  end.
Proof.
  intros Hd Horph Htxs Hflag. unfold Pow.Block_mine.
  destruct (Mining.checkMiningLimit mm) eqn:Hlimit; [|done]. cbn [negb].
  destruct (Pow.mineBlock _ _ _ _ _ _ _) as [[[n h] [|]]|] eqn:Emine;
    [|done|].
  - destruct (PowFacts.mineBlock_success_meets _ _ _ _ _ _ _ _ _ Emine)
      as (t & Ht & Hmeets).
    assert (Block_validate now
              (mkBlock (prevHash b) h (difficulty b) (reward b)
                 (transactions b) (isOrphaned b) (shardId b))
            = Returned true) as Hv.
    { unfold Block_validate. simpl.
      destruct (starts_with (prevHash b) "genesis_"); [by rewrite Horph|].
      unfold Pow.meets_target, Pow.target in Hmeets, Ht.
      by rewrite Ht, Hmeets, Htxs, Horph. }
    split; [done|]. split; [|done].
    unfold addBlock. by rewrite Hflag, Hv.
  - unfold Pow.mineBlock in Emine. rewrite Hlimit in Emine.
    by rewrite PowFacts.target_nonneg in Emine.
Qed.

Definition sample_block : Block :=
  mkBlock "00c1a7" "" 2 50%float [] false 0.

Lemma mined_block_is_accepted_witness :
  match Pow.Block_mine (fun _ => 0) Mining.MiningManager_new sample_block
          "4e1f" 1700000000 0 with
  | Pow.Finished (mm', b', _, true) =>
      Block_validate 1700000000 b' = Returned true
      /\ addBlock 1700000000 LedgerFacts.sample_ledger b'
         = (mkBlockchain (chain LedgerFacts.sample_ledger ++ [b'])
              (balances LedgerFacts.sample_ledger)
              (hiddenBalances LedgerFacts.sample_ledger)
              (founderStealthAddress LedgerFacts.sample_ledger)
              (Dbl.wrap64
                 (totalMinedCoins LedgerFacts.sample_ledger
                  + Dbl.to_int64 (reward sample_block * 100000000)%float))
              false (isTransferring LedgerFacts.sample_ledger),
            Returned true)
      /\ mm' = Mining.addMinedCoins Mining.MiningManager_new
                 (reward sample_block)
  | Pow.Finished (mm', _, _, false) => mm' = Mining.MiningManager_new
  | Pow.Terminated => False
  end.
Proof.
  apply (mined_block_is_accepted (fun _ => 0) Mining.MiningManager_new
           sample_block "4e1f" 1700000000 0 1700000000
           LedgerFacts.sample_ledger); [discriminate|reflexivity..].
Defined.

End ChainFacts.

(** ** Transfers *)

Module TransferFacts.
Import Str StrFacts Dbl Ledger.

Lemma with_stores_same bc :
  isTransferring bc = false ->
  with_stores bc (balances bc, hiddenBalances bc) false = bc.
Proof. destruct bc. simpl. by intros ->. Qed.

Lemma credit_dom (m : gmap string float) k amount :
  is_Some (m !! k) -> dom (credit m k amount) = dom m.
Proof.
  intros Hk. unfold credit. rewrite dom_insert_L.
  apply elem_of_dom in Hk. set_solver.
Qed.

(** What a call of [transfer] leaves behind.  It throws exactly when
    [isTransferring] is set, and then, as when it returns false, the
    ledger is as it was.  When it returns true, sender and receiver are
    not empty and the amount is not [<= 0]; the chain, the mined-coin
    counter and the founder's address are as they were, both flags are
    clear, and the hidden store has the keys it had: a transfer neither
    makes nor removes a hidden address. *)
Theorem transfer_outcomes (bc : Blockchain) (from to : string)
    (amount : float) (key : string) (shard : Z) :
  match transfer bc from to amount key shard with
  | (bc', ReentrancyFault) => isTransferring bc = true /\ bc' = bc
  | (bc', Returned false) => isTransferring bc = false /\ bc' = bc
  | (bc', Returned true) =>
      isTransferring bc = false
      /\ from <> EmptyString /\ to <> EmptyString
      /\ (amount <=? 0)%float = false
      /\ chain bc' = chain bc
      /\ totalMinedCoins bc' = totalMinedCoins bc
      /\ founderStealthAddress bc' = founderStealthAddress bc
      /\ isAddingBlock bc' = isAddingBlock bc
      /\ isTransferring bc' = false
      /\ dom (hiddenBalances bc') = dom (hiddenBalances bc)
  | (bc', LengthError) => False
  end.
Proof.
  unfold transfer. destruct (isTransferring bc) eqn:Hflag; [done|].
  unfold transfer_body.
  destruct (empty from) eqn:Hf; simpl;
    [by rewrite with_stores_same|].
  destruct (empty to) eqn:Ht; simpl;
    [by rewrite with_stores_same|].
  destruct (amount <=? 0)%float eqn:Ha; simpl;
    [by rewrite with_stores_same|].
  assert (from <> EmptyString) by (intros ->; done).
  assert (to <> EmptyString) by (intros ->; done).
  destruct (hiddenBalances bc !! from) as [hb|] eqn:Hh.
  - destruct (hb <? amount)%float; [by rewrite with_stores_same|].
    destruct (authenticateUser bc from key); simpl;
      [|by rewrite with_stores_same].
    assert (dom (<[from := (hb - amount)%float]> (hiddenBalances bc))
            = dom (hiddenBalances bc)) as Hdom.
    { rewrite dom_insert_L. apply elem_of_dom_2 in Hh. set_solver. }
    case_bool_decide as Hto; simpl; repeat split; try done.
    by rewrite credit_dom.
  - destruct (balances bc !! from) as [b|];
      [|by rewrite with_stores_same].
    destruct (b <? amount)%float; [by rewrite with_stores_same|].
    simpl. repeat split; done.
Qed.

(** The private key is checked for hidden senders only: a transfer
    from a hidden address succeeds only with a key that
    [authenticateUser] accepts for the sender; for a sender that is not a
    hidden address, the key and the shard passed do not bear on what
    [transfer] does. *)
Theorem transfer_checks_key_of_hidden_sender_only (bc : Blockchain)
    (from to : string) (amount : float) (key : string) (shard : Z) :
  (isHiddenAddress bc from = true ->
   snd (transfer bc from to amount key shard) = Returned true ->
   authenticateUser bc from key = true)
  /\ (isHiddenAddress bc from = false ->
      forall key' shard',
        transfer bc from to amount key shard
        = transfer bc from to amount key' shard').
Proof.
  unfold isHiddenAddress. split; intros Hh.
  - apply bool_decide_eq_true in Hh as [hb Hhb].
    unfold transfer, transfer_body. rewrite Hhb.
    destruct (isTransferring bc); [done|].
    destruct (_ || _); [done|].
    destruct (hb <? amount)%float; [done|].
    by destruct (authenticateUser bc from key).
  - apply bool_decide_eq_false in Hh.
    assert (hiddenBalances bc !! from = None) as Hnone.
    { destruct (hiddenBalances bc !! from) eqn:E; [|done].
      exfalso. apply Hh. eauto. }
    intros key' shard'. unfold transfer, transfer_body. by rewrite Hnone.
Qed.

(** A transfer from a public account to a hidden address is credited in
    the public store, under the receiver's address: the hidden store is
    as it was, and so is every balance [getBalance] reports for the
    receiver. *)
Theorem transfer_public_to_hidden (bc bc' : Blockchain) (from to : string)
    (amount : float) (key : string) (shard : Z) :
  isHiddenAddress bc from = false ->
  isHiddenAddress bc to = true ->
  transfer bc from to amount key shard = (bc', Returned true) ->
  hiddenBalances bc' = hiddenBalances bc
  /\ is_Some (balances bc' !! to)
  /\ forall token, getBalance bc' to token = getBalance bc to token.
Proof.
  unfold isHiddenAddress. intros Hf Ht.
  apply bool_decide_eq_false in Hf. apply bool_decide_eq_true in Ht.
  assert (hiddenBalances bc !! from = None) as Hnone.
  { destruct (hiddenBalances bc !! from) eqn:E; [|done].
    exfalso. apply Hf. eauto. }
  unfold transfer, transfer_body. rewrite Hnone.
  destruct (isTransferring bc); [done|].
  destruct (_ || _); [done|].
  destruct (balances bc !! from) as [b|]; [|done].
  destruct (b <? amount)%float; [done|].
  intros [= <-]. simpl. split; [done|]. split.
  - unfold credit. rewrite lookup_insert_eq. eauto.
  - intros token. unfold getBalance, isHiddenAddress, authenticateUser.
    simpl. by rewrite !bool_decide_eq_true_2 by done.
Qed.

(** A ledger with one public and one hidden account. *)
Definition funded : Blockchain :=
  mkBlockchain [] {[ "alice"%string := 12.5%float ]}
    {[ "9f86d081884c7d65"%string := 2000000%float ]} "9f86d081884c7d65"
    0 false false.

Lemma transfer_public_to_hidden_witness :
  let bc' := fst (transfer funded "alice" "9f86d081884c7d65" 2.5%float "" 0) in
  hiddenBalances bc' = hiddenBalances funded
  /\ is_Some (balances bc' !! "9f86d081884c7d65"%string)
  /\ getBalance bc' "9f86d081884c7d65" "view_v11_key"
     = getBalance funded "9f86d081884c7d65" "view_v11_key".
Proof.
  intros bc'.
  destruct (transfer_public_to_hidden funded bc' "alice" "9f86d081884c7d65"
              2.5%float "" 0) as (H1 & H2 & H3); [reflexivity..|].
  split; [exact H1|]. split; [exact H2|apply H3].
Defined.

(** *** Balances stay non-negative *)

Definition nonneg_store (m : gmap string float) : Prop :=
  forall k v, m !! k = Some v -> (0 <=? v)%float = true.

Definition nonneg_balances (bc : Blockchain) : Prop :=
  nonneg_store (balances bc) /\ nonneg_store (hiddenBalances bc).

Lemma nonneg_store_insert m k v :
  nonneg_store m -> (0 <=? v)%float = true -> nonneg_store (<[k := v]> m).
Proof.
  intros Hm Hv k' v'. rewrite lookup_insert.
  case_decide; [by intros [= <-]|apply Hm].
Qed.

Lemma nonneg_store_credit m k amount :
  nonneg_store m -> is_finite amount = true ->
  (amount <=? 0)%float = false ->
  nonneg_store (credit m k amount).
Proof.
  intros Hm Hfin Hpos. apply nonneg_store_insert; [done|].
  apply SignFacts.add_nonneg; [|done..].
  destruct (m !! k) as [v|] eqn:E; simpl; [by eapply Hm|done].
Qed.

(** Under [transfer] with a finite amount, no balance goes below zero:
    when every balance of the two stores is not below zero (and so not
    NaN) before the call, so is every balance after it. *)
Theorem transfer_keeps_balances_nonneg (bc : Blockchain) (from to : string)
    (amount : float) (key : string) (shard : Z) :
  is_finite amount = true ->
  nonneg_balances bc ->
  nonneg_balances (fst (transfer bc from to amount key shard)).
Proof.
  intros Hfin [Hb Hh]. unfold transfer.
  destruct (isTransferring bc); [done|].
  unfold transfer_body.
  destruct (empty from || empty to || (amount <=? 0)%float) eqn:Hchk;
    [done|].
  apply orb_false_iff in Hchk as [_ Hpos].
  destruct (hiddenBalances bc !! from) as [hb|] eqn:Ehb.
  - destruct (hb <? amount)%float eqn:Elt; [done|].
    destruct (authenticateUser bc from key); simpl; [|done].
    assert (nonneg_store (<[from := (hb - amount)%float]> (hiddenBalances bc)))
      as Hh'.
    { apply nonneg_store_insert; [done|].
      apply SignFacts.sub_nonneg; try done. by eapply Hh. }
    case_bool_decide; simpl; split; simpl; try done;
      by apply nonneg_store_credit.
  - destruct (balances bc !! from) as [b|] eqn:Eb; [|done].
    destruct (b <? amount)%float eqn:Elt; [done|].
    simpl. split; simpl; [|done].
    apply nonneg_store_credit; try done.
    apply nonneg_store_insert; [done|].
    apply SignFacts.sub_nonneg; try done. by eapply Hb.
Qed.

Lemma transfer_keeps_balances_nonneg_witness :
  nonneg_balances (fst (transfer funded "alice" "bob" 12.5%float "" 0)).
Proof.
  apply (transfer_keeps_balances_nonneg funded "alice" "bob" 12.5%float "" 0).
  - reflexivity.
  - split; intros k v; unfold funded; simpl; rewrite lookup_singleton;
      case_decide; intros [= <-]; reflexivity.
Defined.

End TransferFacts.

(** ** Input sanitising *)

Module HelpersFacts.
Import Str StrFacts Helpers.

Local Abbreviation chars := list_ascii_of_string.

Lemma chars_length s : length (chars s) = String.length s.
Proof. induction s as [|c s IH]; simpl; [done|by rewrite IH]. Qed.

Lemma chars_inj s s' : chars s = chars s' -> s = s'.
Proof.
  intros H. rewrite <- (string_of_list_ascii_of_string s),
    <- (string_of_list_ascii_of_string s'). by rewrite H.
Qed.

Lemma chars_substring n s : chars (String.substring 0 n s) = take n (chars s).
Proof.
  revert s. induction n as [|n IH]; intros [|c s]; simpl; try done.
  by rewrite IH.
Qed.

Lemma chars_erase_remove c s :
  chars (erase_remove c s) = filter (fun x => x <> c) (chars s).
Proof.
  induction s as [|x s IH]; simpl; [done|].
  rewrite filter_cons. destruct (Ascii.eqb_spec x c) as [->|Hne].
  - by rewrite decide_False by naive_solver.
  - rewrite decide_True by done. simpl. by rewrite IH.
Qed.

Lemma filter_all {A} (P : A -> Prop) `{!forall x, Decision (P x)}
    (l : list A) :
  Forall P l -> filter P l = l.
Proof.
  induction 1 as [|x l Hx _ IH]; [done|].
  rewrite filter_cons, decide_True by done. by rewrite IH.
Qed.

Lemma chars_fold_erase (l : list ascii) s :
  chars (fold_left (fun acc c => erase_remove c acc) l s)
  = filter (fun x => x ∉ l) (chars s).
Proof.
  revert s. induction l as [|c l IH]; intros s; simpl.
  - symmetry. apply filter_all. apply Forall_forall. set_solver.
  - rewrite IH, chars_erase_remove, list_filter_filter.
    apply list_filter_iff. intros x. set_solver.
Qed.

Lemma sanitizeInput_chars input :
  chars (sanitizeInput input)
  = take (Z.to_nat 2000000) (filter (fun x => x ∉ dangerous) (chars input)).
Proof.
  unfold sanitizeInput.
  set (sanitized := fold_left _ dangerous input).
  assert (chars sanitized = filter (fun x => x ∉ dangerous) (chars input))
    as Hs by apply chars_fold_erase.
  destruct (Z.gtb_spec (Z.of_nat (String.length sanitized)) 2000000).
  - by rewrite chars_substring, Hs.
  - rewrite <- Hs. symmetry. apply take_ge. rewrite chars_length. lia.
Qed.

(** What [sanitizeInput] returns holds none of the seven dangerous
    characters (semicolon, angle brackets, the three quotes, backslash),
    is no longer than the input and no longer than 2,000,000 characters,
    and is a fixed point: sanitising it again changes nothing.  An input
    of at most 2,000,000 characters that holds none of these characters
    is returned as it is. *)
Theorem sanitizeInput_clean (input : string) :
  let out := sanitizeInput input in
  Forall (fun c => c ∉ dangerous) (chars out)
  /\ (String.length out <= String.length input)%nat
  /\ Z.of_nat (String.length out) <= 2000000
  /\ sanitizeInput out = out
  /\ (Forall (fun c => c ∉ dangerous) (chars input) ->
      Z.of_nat (String.length input) <= 2000000 ->
      out = input).
Proof.
  intros out. subst out.
  pose proof (sanitizeInput_chars input) as Hc.
  pose proof (sanitizeInput_chars (sanitizeInput input)) as Hc2.
  remember (Z.to_nat 2000000) as N eqn:HNdef.
  assert (Z.of_nat N = 2000000) as HN by (subst N; by rewrite Z2Nat.id).
  clear HNdef.
  assert (Forall (fun c => c ∉ dangerous) (chars (sanitizeInput input)))
    as Hclean.
  { rewrite Hc. apply Forall_take. apply Forall_forall.
    intros x Hx. by apply list_elem_of_filter in Hx as [? _]. }
  split; [done|]. split; [|split; [|split]].
  - rewrite <- !chars_length, Hc, length_take.
    pose proof (length_filter (fun x => x ∉ dangerous) (chars input)). lia.
  - rewrite <- chars_length, Hc, length_take. lia.
  - apply chars_inj. rewrite Hc2.
    rewrite filter_all by done. rewrite Hc, take_take. f_equal. lia.
  - intros Hin Hlen. apply chars_inj. rewrite Hc.
    rewrite filter_all by done. apply take_ge. rewrite chars_length. lia.
Qed.

(** *** The simulated oracle *)

Lemma factor_finite (s c : float) :
  (abs s <=? 1)%float = true ->
  DblFacts.sf_mag (-6) (Prim2SF c) ->
  DblFacts.sf_mag 3 (Prim2SF (1.0 + s * c)%float).
Proof.
  intros Hs Hc. rewrite add_spec, mul_spec.
  apply (DblFacts.SFadd_mag _ _ 1 (-4)); [by vm_compute| |lia].
  apply (DblFacts.SFmul_mag _ _ 1 (-6)); [|done|lia].
  by apply DblFacts.abs_le_one_mag.
Qed.

Lemma mul_finite_not_nan (p q : float) :
  is_finite p = true -> DblFacts.sf_finite (Prim2SF q) ->
  Dbl.not_nan (p * q)%float.
Proof.
  intros Hp Hq. apply PriceFacts.finite_sf in Hp.
  unfold Dbl.not_nan. rewrite mul_spec.
  apply DblFacts.SFmul_not_nan;
    auto using PriceFacts.sf_finite_not_nan.
  - by rewrite PriceFacts.sf_finite_not_inf.
  - by rewrite (PriceFacts.sf_finite_not_inf _ Hq), andb_false_r.
Qed.

(** For every finite price and every block height, [oracleSimulation]
    returns a value that is at least 600000; the C library is asked for
    a sine and a cosine in [[-1, 1]] at the arguments used. *)
Theorem oracleSimulation_floor (std_sin std_cos : float -> float)
    (p : float) (h : Z) :
  is_finite p = true ->
  (abs (std_sin (Dbl.of_Z h * 0.001)) <=? 1)%float = true ->
  (abs (std_cos (Dbl.of_Z h * 0.002)) <=? 1)%float = true ->
  (600000 <=? oracleSimulation std_sin std_cos p h)%float = true.
Proof.
  intros Hp Hsin Hcos. unfold oracleSimulation.
  set (s1 := (p * (1.0 + std_sin _ * 0.01))%float).
  set (s2 := (p * (1.0 + std_cos _ * 0.008))%float).
  set (s3 := (p * 1.0005)%float).
  assert (Dbl.not_nan s1) as H1.
  { apply mul_finite_not_nan; [done|].
    eapply PriceFacts.sf_mag_finite, factor_finite; [done|by vm_compute]. }
  assert (Dbl.not_nan s2) as H2.
  { apply mul_finite_not_nan; [done|].
    eapply PriceFacts.sf_mag_finite, factor_finite; [done|by vm_compute]. }
  assert (Dbl.not_nan s3) as H3.
  { apply mul_finite_not_nan; [done|by vm_compute]. }
  apply DblFacts.std_max_ge; [|by vm_compute].
  assert (Forall Dbl.not_nan (merge_sort double_not_after [s1; s2; s3]))
    as Hall.
  { rewrite merge_sort_Permutation. repeat constructor; done. }
  assert (length (merge_sort double_not_after [s1; s2; s3]) = 3%nat) as Hlen.
  { by rewrite merge_sort_Permutation. }
  destruct (merge_sort double_not_after [s1; s2; s3]) as [|a [|b l]];
    try done.
  by inversion Hall as [|? ? _ Hb]; subst; inversion Hb.
Qed.

(** A reference cosine near zero: the Taylor polynomial of degree
    four. *)
Definition cos_ref (x : float) : float :=
  (1 - x * x / 2 + x * x * x * x / 24)%float.

Lemma oracleSimulation_floor_witness :
  (600000 <=? oracleSimulation PriceFacts.sin_ref cos_ref 599999 100)%float
  = true.
Proof.
  apply (oracleSimulation_floor PriceFacts.sin_ref cos_ref 599999 100);
    by vm_compute.
Defined.

End HelpersFacts.

(** ** Outpoints and their keys *)

Module OutpointFacts.
Import Str StrFacts UTXO.

Local Abbreviation chars := list_ascii_of_string.

(** The decimal text of an integer holds no colon. *)
Lemma pretty_N_char_digit d : pretty_N_char d <> ":"%char.
Proof.
  destruct d as [|p]; [done|].
  do 4 (destruct p as [p|p|]; try done).
Qed.

Lemma pretty_N_go_colon x s :
  ~ In ":"%char (chars s) -> ~ In ":"%char (chars (pretty_N_go x s)).
Proof.
  revert s. induction (N.lt_wf_0 x) as [x _ IH]. intros s Hs.
  destruct (decide (x = 0%N)) as [->|Hx].
  - by rewrite pretty_N_go_0.
  - rewrite pretty_N_go_step by lia. apply IH.
    + apply N.div_lt; lia.
    + simpl. intros [Hc|Hin]; [|done].
      by apply (pretty_N_char_digit (x `mod` 10)%N).
Qed.

Lemma pretty_Z_colon (z : Z) : ~ In ":"%char (chars (pretty z)).
Proof.
  assert (forall p : positive, ~ In ":"%char (chars (pretty p))) as Hp.
  { intros p. unfold pretty, pretty_positive, pretty, pretty_N.
    case_decide; [done|]. apply pretty_N_go_colon. simpl. tauto. }
  destruct z as [|p|p]; unfold pretty, pretty_Z.
  - simpl. intros [?|[]]. done.
  - apply Hp.
  - rewrite append_cons, append_nil. simpl. intros [?|?]; [done|].
    by apply (Hp p).
Qed.

Lemma colon_split a b a' b' :
  ~ In ":"%char (chars b) -> ~ In ":"%char (chars b') ->
  String.append a (String (":"%char) b) = String.append a' (String ":"%char b') ->
  a = a' /\ b = b'.
Proof.
  intros Hb Hb'. revert a'. induction a as [|c a IH]; intros [|c' a'];
    rewrite ?append_nil, ?append_cons.
  - by intros [= ->].
  - intros [= <- ->]. exfalso. apply Hb.
    clear. induction a' as [|x a' IH]; simpl; [by left|by right].
  - intros [= -> <-]. exfalso. apply Hb'.
    clear. induction a as [|x a IH]; simpl; [by left|by right].
  - intros [= <- H]. apply IH in H as [-> ->]. done.
Qed.

(** Two outpoints with one key are one outpoint. *)
Lemma make_key_inj t v t' v' :
  make_key t v = make_key t' v' -> t = t' /\ v = v'.
Proof.
  unfold make_key. rewrite !append_cons, !append_nil. intros H.
  apply colon_split in H as [-> Hv]; [|apply pretty_Z_colon..].
  split; [done|]. by apply (inj pretty).
Qed.

Lemma getUTXO_spent {A : Type} (s : @UTXOSet A) t v :
  getUTXO (fst (spendUTXO s t v)) t v = None.
Proof.
  unfold getUTXO, spendUTXO.
  destruct (utxos_ s !! make_key t v) eqn:E; simpl; [|done].
  apply lookup_delete_eq.
Qed.

(** [getUTXO] after [addUTXO] and [spendUTXO]: the outpoint added is
    found, the outpoint spent is not, every other outpoint is found as
    before; and [getUTXOCount] moves by one exactly when an outpoint
    enters or leaves the set. *)
Theorem getUTXO_after_update {A : Type} (s : @UTXOSet A) (u : @UTXOutput A)
    (t : string) (v : Z) :
  getUTXO (addUTXO s u) (txid u) (vout u) = Some u
  /\ (forall t' v', (t', v') <> (txid u, vout u) ->
        getUTXO (addUTXO s u) t' v' = getUTXO s t' v')
  /\ getUTXOCount (addUTXO s u)
     = match getUTXO s (txid u) (vout u) with
       | Some _ => getUTXOCount s
       | None => S (getUTXOCount s)
       end
  /\ snd (spendUTXO s t v) = bool_decide (is_Some (getUTXO s t v))
  /\ getUTXO (fst (spendUTXO s t v)) t v = None
  /\ (forall t' v', (t', v') <> (t, v) ->
        getUTXO (fst (spendUTXO s t v)) t' v' = getUTXO s t' v')
  /\ getUTXOCount (fst (spendUTXO s t v))
     = match getUTXO s t v with
       | Some _ => pred (getUTXOCount s)
       | None => getUTXOCount s
       end.
Proof.
  unfold getUTXO, getUTXOCount, addUTXO, spendUTXO, utxo_key. simpl.
  split; [apply lookup_insert_eq|]. split.
  { intros t' v' Hne. apply lookup_insert_ne. intros Hk.
    apply make_key_inj in Hk as [Ht Hv]. congruence. }
  split.
  { destruct (utxos_ s !! make_key (txid u) (vout u)) eqn:E.
    - rewrite map_size_insert_Some; [done|eauto].
    - by rewrite map_size_insert_None. }
  destruct (utxos_ s !! make_key t v) as [u0|] eqn:E; simpl.
  - split; [done|].
    split; [apply lookup_delete_eq|]. split.
    + intros t' v' Hne. apply lookup_delete_ne. intros Hk.
      apply make_key_inj in Hk as [Ht Hv]. congruence.
    + rewrite map_size_delete_Some; [done|eauto].
  - done.
Qed.

(** *** What an address lists *)

Section Listing.

Context {A : Type}.
Variable premine : A.

(** The states reached when [addUTXO] is only called for outpoints that
    are not in the set. *)
Inductive reachable_fresh : @UTXOSet A -> Prop :=
| fresh_new : reachable_fresh (UTXOSet_new premine)
| fresh_add s u :
    reachable_fresh s -> getUTXO s (txid u) (vout u) = None ->
    reachable_fresh (addUTXO s u)
| fresh_spend s t v :
    reachable_fresh s -> reachable_fresh (fst (spendUTXO s t v)).

(** Every key in the side index of an address is the key of a stored
    output of that address. *)
Definition owned (s : @UTXOSet A) : Prop :=
  forall a k, k ∈ keys_of s a ->
    exists u, utxos_ s !! k = Some u /\ address u = a.

Lemma owned_addUTXO s u :
  owned s -> getUTXO s (txid u) (vout u) = None -> owned (addUTXO s u).
Proof.
  intros Hs Hfresh a k. rewrite UTXOFacts.keys_of_addUTXO.
  unfold addUTXO. cbn [utxos_].
  destruct (decide (k = utxo_key u)) as [->|Hne].
  - rewrite lookup_insert_eq. intros Hk. exists u. split; [done|].
    destruct (decide (address u = a)) as [|Hna]; [done|].
    destruct (Hs _ _ Hk) as (u0 & Hu0 & _).
    unfold getUTXO in Hfresh. fold (utxo_key u) in Hfresh. congruence.
  - rewrite lookup_insert_ne by done. intros Hk. apply Hs.
    destruct (decide (address u = a)); set_solver.
Qed.

Lemma owned_spendUTXO s t v : owned s -> owned (fst (spendUTXO s t v)).
Proof.
  intros Hs. unfold spendUTXO.
  destruct (utxos_ s !! make_key t v) as [u0|] eqn:E; [|done].
  intros a k. unfold keys_of. cbn [fst utxos_ addressUtxos_].
  rewrite lookup_insert. destruct (decide (address u0 = a)) as [Ha|Ha];
    simpl.
  - intros Hk. apply elem_of_difference in Hk as [Hk Hne].
    destruct (Hs a k) as (u1 & Hu1 & Hau1); [by rewrite <- Ha|].
    exists u1. split; [|done]. rewrite lookup_delete_ne; [done|set_solver].
  - intros Hk. destruct (Hs a k Hk) as (u1 & Hu1 & Hau1).
    exists u1. split; [|done]. rewrite lookup_delete_ne; [done|].
    intros <-. congruence.
Qed.

Lemma reachable_fresh_owned s : reachable_fresh s -> owned s.
Proof.
  induction 1 as [|s u _ IH Hfresh|s t v _ IH].
  - apply owned_addUTXO; [|done]. intros a k Hk.
    unfold keys_of in Hk. simpl in Hk. rewrite lookup_empty in Hk.
    set_solver.
  - by apply owned_addUTXO.
  - by apply owned_spendUTXO.
Qed.

Lemma reachable_fresh_reachable s :
  reachable_fresh s -> UTXOFacts.reachable premine s.
Proof.
  induction 1; [apply UTXOFacts.reach_new|by apply UTXOFacts.reach_add|
                by apply UTXOFacts.reach_spend].
Qed.

Lemma NoDup_omap_keys (m : gmap string (@UTXOutput A)) (l : list string) :
  (forall k u, m !! k = Some u -> k = utxo_key u) ->
  NoDup l -> NoDup (omap (fun k => m !! k) l).
Proof.
  intros Hkey. induction 1 as [|k l Hk _ IH]; csimpl; [constructor|].
  destruct (m !! k) as [u|] eqn:E; [|done].
  constructor; [|done]. intros Hin.
  apply list_elem_of_omap in Hin as (k' & Hk' & Hu).
  apply Hkey in E, Hu. congruence.
Qed.

(** In every state of a [UTXOSet], the output stored for an outpoint
    carries that outpoint's [txid] and [vout] and is listed by
    [getAddressUTXOs] under its own address, and every output
    [getAddressUTXOs] lists is the one stored for its outpoint.  When
    [addUTXO] has only been called for outpoints not in the set,
    [getAddressUTXOs] lists for an address exactly the stored outputs of
    that address, each once. *)
Theorem listing_matches_store (s : @UTXOSet A) :
  (UTXOFacts.reachable premine s ->
   (forall t v u,
      getUTXO s t v = Some u ->
      txid u = t /\ vout u = v /\ u ∈ getAddressUTXOs s (address u))
   /\ (forall a u,
         u ∈ getAddressUTXOs s a -> getUTXO s (txid u) (vout u) = Some u))
  /\ (reachable_fresh s ->
      forall a,
        NoDup (getAddressUTXOs s a)
        /\ (forall u,
              u ∈ getAddressUTXOs s a
              <-> getUTXO s (txid u) (vout u) = Some u /\ address u = a)).
Proof.
  assert (UTXOFacts.reachable premine s ->
          (forall t v u,
             getUTXO s t v = Some u ->
             txid u = t /\ vout u = v /\ u ∈ getAddressUTXOs s (address u))
          /\ (forall a u,
                u ∈ getAddressUTXOs s a ->
                getUTXO s (txid u) (vout u) = Some u)) as Hgeneral.
  { intros Hr.
    pose proof (UTXOFacts.reachable_indexed (fun x _ => x) _ _ Hr) as Hs.
    split.
    - intros t v u Hu. unfold getUTXO in Hu.
      destruct (Hs _ _ Hu) as [Hk Hin].
      apply make_key_inj in Hk as [Ht Hv]. subst t v.
      split; [done|]. split; [done|].
      rewrite UTXOFacts.getAddressUTXOs_perm.
      apply list_elem_of_omap. exists (make_key (txid u) (vout u)).
      split; [by apply elem_of_elements|done].
    - intros a u Hu. rewrite UTXOFacts.getAddressUTXOs_perm in Hu.
      apply list_elem_of_omap in Hu as (k & _ & Hk).
      destruct (Hs _ _ Hk) as [-> _]. exact Hk. }
  split; [exact Hgeneral|].
  intros Hf a.
  pose proof (reachable_fresh_owned s Hf) as Ho.
  pose proof (reachable_fresh_reachable s Hf) as Hr.
  pose proof (UTXOFacts.reachable_indexed (fun x _ => x) _ _ Hr) as Hs.
  destruct (Hgeneral Hr) as [Hstored Hlisted].
  split.
  - rewrite UTXOFacts.getAddressUTXOs_perm.
    apply NoDup_omap_keys; [|apply NoDup_elements].
    intros k u Hk. by destruct (Hs _ _ Hk).
  - intros u. split.
    + intros Hu. split; [by eapply Hlisted|].
      rewrite UTXOFacts.getAddressUTXOs_perm in Hu.
      apply list_elem_of_omap in Hu as (k & Hk & Hku).
      apply elem_of_elements in Hk.
      destruct (Ho _ _ Hk) as (u' & Hu' & Ha). congruence.
    + intros [Hu <-]. by destruct (Hstored _ _ _ Hu) as (_ & _ & ?).
Qed.

End Listing.

(** *** Inputs of a transaction *)

Lemma sum_inputs_found s inputs acc r :
  UTXOTx.sum_inputs s inputs acc = Some r ->
  Forall (fun input =>
            is_Some (getUTXO s (UTXOTx.in_txid input) (UTXOTx.in_vout input)))
         inputs.
Proof.
  revert acc. induction inputs as [|i l IH]; intros acc; simpl; [done|].
  destruct (getUTXO s _ _) eqn:E; [|done].
  intros H. constructor; [by rewrite E|by eapply IH].
Qed.

Lemma sum_inputs_missing s inputs acc input :
  In input inputs ->
  getUTXO s (UTXOTx.in_txid input) (UTXOTx.in_vout input) = None ->
  UTXOTx.sum_inputs s inputs acc = None.
Proof.
  revert acc. induction inputs as [|i l IH]; intros acc; simpl; [done|].
  intros [->|Hin] Hnone; [by rewrite Hnone|].
  destruct (getUTXO s (UTXOTx.in_txid i) (UTXOTx.in_vout i)); [|done].
  by apply IH.
Qed.

(** [validateInputs] accepts a transaction only when each of its inputs
    is in the set; and once [spendUTXO] has been called for an outpoint,
    it rejects every transaction that lists this outpoint among its
    inputs. *)
Theorem validateInputs_needs_unspent (s : @UTXOSet float)
    (tx : UTXOTx.Transaction) :
  (UTXOTx.validateInputs s tx = true ->
   Forall (fun input =>
             is_Some (getUTXO s (UTXOTx.in_txid input)
                        (UTXOTx.in_vout input)))
          (UTXOTx.vin tx))
  /\ (forall input,
        In input (UTXOTx.vin tx) ->
        UTXOTx.validateInputs
          (fst (spendUTXO s (UTXOTx.in_txid input) (UTXOTx.in_vout input)))
          tx = false).
Proof.
  unfold UTXOTx.validateInputs. split.
  - destruct (UTXOTx.sum_inputs s _ _) eqn:E; [|done].
    intros _. by eapply sum_inputs_found.
  - intros input Hin.
    rewrite (sum_inputs_missing _ _ _ input); [done|done|].
    apply (getUTXO_spent s).
Qed.

End OutpointFacts.

(** ** Reading the pool *)

Module MempoolQueriesFacts.
Import Mempool MempoolQueries.

Definition total_weight (l : list Transaction) : Z :=
  fold_right (fun t acc => weight t + acc) 0 l.

Lemma wrapu64_small z : 0 <= z < 2 ^ 64 -> Dbl.wrapu64 z = z.
Proof. intros H. unfold Dbl.wrapu64. by rewrite Z.mod_small. Qed.

Lemma template_loop_weight sorted maxWeight currentWeight :
  Forall (fun e => 0 <= weight (tx e) < 2 ^ 31) sorted ->
  maxWeight <= 2 ^ 63 ->
  0 <= currentWeight <= maxWeight ->
  currentWeight + total_weight (template_loop sorted maxWeight currentWeight)
  <= maxWeight.
Proof.
  intros Hw Hmax. revert currentWeight.
  induction Hw as [|e l He _ IH]; intros cw Hcw; simpl; [lia|].
  rewrite wrapu64_small by lia.
  destruct (Z.leb_spec (cw + weight (tx e)) maxWeight) as [Hfit|Hno].
  - simpl. specialize (IH (cw + weight (tx e)) ltac:(lia)). lia.
  - by apply IH.
Qed.

Lemma template_loop_members sorted maxWeight currentWeight t :
  In t (template_loop sorted maxWeight currentWeight) ->
  exists e, In e sorted /\ tx e = t.
Proof.
  revert currentWeight. induction sorted as [|e l IH]; intros cw; simpl;
    [done|].
  destruct (_ <=? _).
  - intros [<-|Hin]; [eauto|]. apply IH in Hin as (e' & ? & ?). eauto.
  - intros Hin. apply IH in Hin as (e' & ? & ?). eauto.
Qed.

(** When the weights of the pooled transactions are not negative, the
    transactions [getBlockTemplate] returns weigh together at most
    [maxWeight]; and each of them is a transaction of the pool. *)
Theorem getBlockTemplate_within_weight (mp : TransactionMempool)
    (maxWeight : Z) :
  (forall k e, transactions_ mp !! k = Some e -> 0 <= weight (tx e) < 2 ^ 31) ->
  0 <= maxWeight <= 2 ^ 63 ->
  total_weight (getBlockTemplate mp maxWeight) <= maxWeight
  /\ (forall t, In t (getBlockTemplate mp maxWeight) ->
        exists k e, transactions_ mp !! k = Some e /\ tx e = t).
Proof.
  intros Hw Hmax. unfold getBlockTemplate.
  set (entries := map snd (in_key_order (transactions_ mp))).
  assert (forall e, e ∈ merge_sort fee_not_before entries ->
                    exists k, transactions_ mp !! k = Some e) as Hin.
  { intros e He. rewrite merge_sort_Permutation in He.
    subst entries. apply list_elem_of_fmap in He as ([k e'] & -> & Hke).
    unfold in_key_order in Hke. rewrite merge_sort_Permutation in Hke.
    apply elem_of_map_to_list in Hke. eauto. }
  split.
  - pose proof (template_loop_weight (merge_sort fee_not_before entries)
                  maxWeight 0) as H.
    simpl in H. apply H; [|lia|lia].
    apply Forall_forall. intros e He. apply Hin in He as [k Hk]. eauto.
  - intros t Ht. apply template_loop_members in Ht as (e & He & <-).
    apply list_elem_of_In in He. apply Hin in He as [k Hk]. eauto.
Qed.

Definition pool_ab : TransactionMempool :=
  fst (addTransaction 0
         (fst (addTransaction 0 (TransactionMempool_new 1000)
                 MempoolFacts.tx_a))
         MempoolFacts.tx_b).

Lemma getBlockTemplate_within_weight_witness :
  total_weight (getBlockTemplate pool_ab 300) <= 300.
Proof.
  apply (getBlockTemplate_within_weight pool_ab 300).
  - apply (bool_decide_unpack
             (map_Forall (fun _ e => 0 <= weight (tx e) < 2 ^ 31)
                (transactions_ pool_ab))).
    vm_compute. exact I.
  - lia.
Defined.

(** *** Adding, finding and removing *)

Lemma wrapu64_sub a b :
  Dbl.wrapu64 (Dbl.wrapu64 (a + b) - b) = Dbl.wrapu64 a.
Proof.
  unfold Dbl.wrapu64. rewrite Zminus_mod_idemp_l. f_equal. lia.
Qed.

(** [addTransaction] returns false, and changes nothing, for a
    transaction whose id is in the pool.  Otherwise it returns true, and
    then [hasTransaction] and [getTransaction] find the transaction;
    [removeTransaction] of its id returns true, the id is no longer
    found, the byte counter is back at its value before the two calls,
    and, when the addition did not evict, so is the content of the
    pool. *)
Theorem addTransaction_then_remove (now : Z) (mp : TransactionMempool)
    (t : Transaction) :
  match transactions_ mp !! txid t with
  | Some _ => addTransaction now mp t = (mp, false)
  | None =>
      let mp1 := fst (addTransaction now mp t) in
      let mp2 := fst (removeTransaction mp1 (txid t)) in
      snd (addTransaction now mp t) = true
      /\ hasTransaction mp1 (txid t) = true
      /\ getTransaction mp1 (txid t) = Some t
      /\ snd (removeTransaction mp1 (txid t)) = true
      /\ hasTransaction mp2 (txid t) = false
      /\ getTransaction mp2 (txid t) = None
      /\ getBytes mp2 = Dbl.wrapu64 (getBytes mp)
      /\ (Dbl.wrapu64 (currentSize_ mp + size t) <= maxSize_ mp ->
          transactions_ mp2 = transactions_ mp)
  end.
Proof.
  unfold addTransaction.
  destruct (transactions_ mp !! txid t) eqn:E; [done|].
  cbn zeta.
  set (mp0 := if _ >? _ then _ else mp).
  assert (currentSize_ mp0 = currentSize_ mp) as Hsz
    by (subst mp0; by destruct (_ >? _)).
  cbn [fst snd]. unfold removeTransaction, hasTransaction, getTransaction.
  cbn [transactions_]. rewrite lookup_insert_eq. cbn [fst snd].
  cbn [transactions_ currentSize_ tx getBytes].
  rewrite lookup_delete_eq, Hsz, wrapu64_sub.
  rewrite bool_decide_eq_true_2 by eauto.
  rewrite bool_decide_eq_false_2 by (by intros [? ?]).
  repeat split; try done.
  intros Hfit. subst mp0.
  destruct (Z.gtb_spec (Dbl.wrapu64 (currentSize_ mp + size t)) (maxSize_ mp));
    [lia|].
  rewrite delete_insert_eq. by apply delete_id.
Qed.

(** *** Eviction *)

(** The bytes of the entries of a map. *)
Definition bytes (m : gmap string MempoolEntry) : Z :=
  map_fold (fun _ e acc => acc + size (tx e)) 0 m.

Definition sizes_nonneg (m : gmap string MempoolEntry) : Prop :=
  forall k e, m !! k = Some e -> 0 <= size (tx e).

Lemma bytes_delete m k e :
  m !! k = Some e -> bytes m = bytes (delete k m) + size (tx e).
Proof.
  intros H. unfold bytes.
  rewrite (map_fold_delete_L _ _ k e m); [done| |done].
  intros. lia.
Qed.

Lemma bytes_insert m k e :
  m !! k = None -> bytes (<[k := e]> m) = bytes m + size (tx e).
Proof.
  intros H. unfold bytes. rewrite map_fold_insert_L; [done| |done].
  intros. lia.
Qed.

Lemma bytes_nonneg m : sizes_nonneg m -> 0 <= bytes m.
Proof.
  induction m as [|k e m Hk IH] using map_ind; intros Hm.
  - unfold bytes. by rewrite map_fold_empty.
  - rewrite bytes_insert by done.
    assert (0 <= size (tx e)) by (apply (Hm k); apply lookup_insert_eq).
    assert (0 <= bytes m); [|lia].
    apply IH. intros k' e' H'. apply (Hm k').
    rewrite lookup_insert_ne; [done|]. intros ->. congruence.
Qed.

Lemma sizes_nonneg_delete m k : sizes_nonneg m -> sizes_nonneg (delete k m).
Proof.
  intros Hm k' e'. rewrite lookup_delete_Some. intros [_ H]. by eapply Hm.
Qed.

Lemma evict_loop_frees sorted needed freed txs :
  sizes_nonneg txs -> 0 <= freed -> freed + bytes txs < 2 ^ 64 ->
  evict_loop sorted needed freed txs ⊆ txs
  /\ (needed <= freed + (bytes txs - bytes (evict_loop sorted needed freed txs))
      \/ forall p, p ∈ sorted ->
           evict_loop sorted needed freed txs !! p.1 = None).
Proof.
  revert freed txs. induction sorted as [|[k f] rest IH];
    intros freed txs Hnn Hfreed Hfit; simpl.
  - split; [done|]. right. intros p Hp. by apply elem_of_nil in Hp.
  - destruct (Z.geb_spec freed needed) as [Hge|Hlt].
    + split; [done|]. left. lia.
    + pose proof (bytes_nonneg _ (sizes_nonneg_delete txs k Hnn)) as Hd.
      assert (exists sz,
                match txs !! k with Some e => size (tx e) | None => 0 end = sz
                /\ 0 <= sz /\ bytes txs = bytes (delete k txs) + sz)
        as (sz & -> & Hsz & Hb).
      { destruct (txs !! k) as [e|] eqn:E.
        - exists (size (tx e)). split; [done|]. split; [by eapply Hnn|].
          by apply bytes_delete.
        - exists 0. split; [done|]. split; [done|].
          rewrite delete_id by done. lia. }
      rewrite wrapu64_small by lia.
      destruct (IH (freed + sz) (delete k txs)) as [Hsub Hcase];
        [by apply sizes_nonneg_delete|lia|lia|].
      split.
      * etrans; [exact Hsub|]. apply delete_subseteq.
      * destruct Hcase as [Hfreed'|Hnone]; [left; lia|]. right.
        intros p Hp. apply elem_of_cons in Hp as [->|Hp]; [|by apply Hnone].
        simpl. eapply lookup_weaken_None; [|exact Hsub].
        apply lookup_delete_eq.
Qed.

(** When the sizes of the pooled transactions are not negative,
    [evictLowFeeTxs] only removes transactions, and it stops once the
    sizes of those removed reach [needed]: afterwards the pool is empty,
    or at least [needed] bytes of its content are gone. *)
Theorem evictLowFeeTxs_frees (mp : TransactionMempool) (needed : Z) :
  sizes_nonneg (transactions_ mp) ->
  MempoolFacts.resident_bytes mp < 2 ^ 64 ->
  let mp' := evictLowFeeTxs mp needed in
  transactions_ mp' ⊆ transactions_ mp
  /\ (transactions_ mp' = ∅
      \/ needed
         <= MempoolFacts.resident_bytes mp - MempoolFacts.resident_bytes mp').
Proof.
  intros Hnn Hfit mp'. subst mp'. unfold evictLowFeeTxs. cbn [transactions_].
  set (sorted := merge_sort _ _).
  destruct (evict_loop_frees sorted needed 0 (transactions_ mp) Hnn)
    as [Hsub Hcase]; [lia|exact Hfit|].
  split; [done|].
  destruct Hcase as [Hfreed|Hnone]; [right; exact Hfreed|]. left.
  apply map_empty. intros k.
  destruct (evict_loop sorted needed 0 (transactions_ mp) !! k) as [e|] eqn:E;
    [|done].
  assert (transactions_ mp !! k = Some e) as Hk
    by (eapply lookup_weaken; eauto).
  rewrite <- E. apply (Hnone (k, feeRate e)).
  subst sorted. rewrite merge_sort_Permutation.
  apply list_elem_of_fmap. exists (k, e). split; [done|].
  unfold in_key_order. rewrite merge_sort_Permutation.
  by apply elem_of_map_to_list.
Qed.

Lemma evictLowFeeTxs_frees_witness :
  let mp' := evictLowFeeTxs pool_ab 70 in
  transactions_ mp' ⊆ transactions_ pool_ab
  /\ (transactions_ mp' = ∅
      \/ 70 <= MempoolFacts.resident_bytes pool_ab
               - MempoolFacts.resident_bytes mp').
Proof.
  apply (evictLowFeeTxs_frees pool_ab 70).
  - apply (bool_decide_unpack
             (map_Forall (fun _ e => 0 <= size (tx e))
                (transactions_ pool_ab))).
    vm_compute. exact I.
  - reflexivity.
Defined.

End MempoolQueriesFacts.

